(** * The zip extraction pipeline of [scripts/extract-zip-and-count.mjs]

    A shallow embedding of the script: JavaScript strings are [string]s
    whose characters stand for code units below 256, arrays are lists in
    array order, the [Set] of processed paths is a [gset string], and the
    [async] functions are computations in a state-and-exception monad
    over an abstract host (file system, external tools, clock). *)

From Stdlib Require Import ZArith List Ascii String Lia Permutation Sorted.
From Stdlib Require Import DecimalString.
From stdpp Require Import gmap strings.
Import ListNotations.

Local Open Scope Z_scope.

(** ** JavaScript string operations *)

Module Js.

(** Code-unit lists are easier to scan from the right than [string]s. *)
Definition chars (s : string) : list ascii := list_ascii_of_string s.
Definition str (l : list ascii) : string := string_of_list_ascii l.

(** [String.prototype.toLowerCase] on code units below 256: the letters
    A-Z and the Latin-1 capitals U+00C0-U+00DE other than U+00D7. *)
Definition lower_char (c : ascii) : ascii :=
  let n := nat_of_ascii c in
  if ((65 <=? n) && (n <=? 90))%nat then ascii_of_nat (n + 32)
  else if ((192 <=? n) && (n <=? 222) && negb (n =? 215))%nat
       then ascii_of_nat (n + 32)
  else c.

Definition toLowerCase (s : string) : string :=
  str (List.map lower_char (chars s)).

(** White space and line terminators below 256, as [trim] sees them. *)
Definition is_white (c : ascii) : bool :=
  let n := nat_of_ascii c in
  ((n =? 9) || (n =? 10) || (n =? 11) || (n =? 12) || (n =? 13)
   || (n =? 32) || (n =? 160))%nat.

Fixpoint drop_white (l : list ascii) : list ascii :=
  match l with
  | c :: l' => if is_white c then drop_white l' else l
  | [] => []
  end.

Definition trim (s : string) : string :=
  str (rev (drop_white (rev (drop_white (chars s))))).

Fixpoint is_prefix (p l : list ascii) : bool :=
  match p, l with
  | [], _ => true
  | a :: p', b :: l' => if Ascii.eqb a b then is_prefix p' l' else false
  | _ :: _, [] => false
  end.

Fixpoint is_infix (p l : list ascii) : bool :=
  is_prefix p l ||
  match l with
  | [] => false
  | _ :: l' => is_infix p l'
  end.

Definition startsWith (s p : string) : bool := is_prefix (chars p) (chars s).
Definition endsWith (s p : string) : bool :=
  is_prefix (rev (chars p)) (rev (chars s)).
Definition includes (s p : string) : bool := is_infix (chars p) (chars s).

(** A template literal prints an integer-valued number in decimal
    (numbers below 1e21, which covers every [Date.now()]). *)
Definition ofZ (z : Z) : string := NilZero.string_of_int (Z.to_int z).
Definition ofNat (n : nat) : string := ofZ (Z.of_nat n).

(** [Array.prototype.join]. *)
Fixpoint join (sep : string) (l : list string) : string :=
  match l with
  | [] => ""
  | [x] => x
  | x :: l' => x +:+ sep +:+ join sep l'
  end.

(** [Array.prototype.sort] with a comparator is a stable sort: [a] moves
    behind [b] only when [cmp a b > 0].  A stable sort has one possible
    result, computed here by insertion from the right. *)
Section Sort.
Context {A : Type} (cmp : A -> A -> Z).

Fixpoint insert_sorted (x : A) (l : list A) : list A :=
  match l with
  | [] => [x]
  | y :: l' => if 0 <? cmp x y then y :: insert_sorted x l' else x :: l
  end.

Fixpoint sort (l : list A) : list A :=
  match l with
  | [] => []
  | x :: l' => insert_sorted x (sort l')
  end.
End Sort.

(** [Array.from(new Set(l))]: first occurrences, in order. *)
Fixpoint uniq (seen l : list string) : list string :=
  match l with
  | [] => []
  | x :: l' =>
      if bool_decide (x ∈ seen) then uniq seen l' else x :: uniq (x :: seen) l'
  end.

End Js.

(** ** The POSIX flavour of Node's [path] module *)

Module Path.
Import Js.

Definition slash : ascii := "/"%char.
Definition dot : ascii := "."%char.
Definition is_slash (c : ascii) : bool := Ascii.eqb c slash.

Fixpoint drop_slashes (l : list ascii) : list ascii :=
  match l with
  | c :: l' => if is_slash c then drop_slashes l' else l
  | [] => []
  end.

(** Characters of [l] up to the first slash, and what follows from it. *)
Fixpoint span_segment (l : list ascii) : list ascii * list ascii :=
  match l with
  | [] => ([], [])
  | c :: l' =>
      if is_slash c then ([], l)
      else let '(seg, rest) := span_segment l' in (c :: seg, rest)
  end.

(** The last path component, reversed, with trailing slashes ignored. *)
Definition rev_base (p : string) : list ascii :=
  fst (span_segment (drop_slashes (rev (chars p)))).

(** [path.basename(p)]. *)
Definition basename (p : string) : string := str (rev (rev_base p)).

(** [path.basename(p, suffix)].  The suffix is removed from the last
    component unless it is the whole component; a component that is a
    proper tail of the suffix comes back with the trailing slashes of
    [p], as Node's scan leaves them. *)
Definition basename_ext (p suffix : string) : string :=
  if ((String.length suffix =? 0) || (String.length p <? String.length suffix))%nat
  then basename p
  else if String.eqb suffix p then ""
  else
    let rb := rev_base p in
    let rs := rev (chars suffix) in
    if is_prefix rs rb then
      if (length rb =? length rs)%nat then str (rev rb)
      else str (rev (skipn (length rs) rb))
    else if is_prefix rb rs then
      let trailing := (length (chars p) - length (drop_slashes (rev (chars p))))%nat in
      str (rev rb ++ repeat slash trailing)
    else str (rev rb).

(** [path.dirname(p)]. *)
Definition dirname (p : string) : string :=
  match chars p with
  | [] => "."
  | c0 :: tl =>
      let hasRoot := is_slash c0 in
      let rest := snd (span_segment (drop_slashes (rev tl))) in
      match rest with
      | [] => if hasRoot then "/" else "."
      | _ :: before =>
          if hasRoot && (length before =? 0)%nat then "//"
          else str (c0 :: rev before)
      end
  end.

(** [path.extname(p)]: from the last dot of the last component, unless
    there is none, it is the component's first character, or the
    component is [".."]. *)
Fixpoint span_dot (l : list ascii) : option (list ascii * list ascii) :=
  match l with
  | [] => None
  | c :: l' =>
      if Ascii.eqb c dot then Some ([], l')
      else match span_dot l' with
           | Some (ext, before) => Some (c :: ext, before)
           | None => None
           end
  end.

Definition extname (p : string) : string :=
  match span_dot (rev_base p) with
  | None => ""
  | Some (rext, before) =>
      match before, rext with
      | [], _ => ""
      | [c], [] => if Ascii.eqb c dot then "" else "."
      | _, _ => str (dot :: rev rext)
      end
  end.

(** Splitting at slashes, and Node's [normalizeString] on the segments:
    empty and ["."] segments vanish, [".."] removes the segment before
    it, or stays when there is none and the path is relative. *)
Fixpoint split_slash (cur : list ascii) (l : list ascii) : list string :=
  match l with
  | [] => [str (rev cur)]
  | c :: l' =>
      if is_slash c then str (rev cur) :: split_slash [] l'
      else split_slash (c :: cur) l'
  end.

Definition segments (p : string) : list string := split_slash [] (chars p).

Fixpoint normalize_rev (allowAboveRoot : bool) (acc : list string)
    (segs : list string) : list string :=
  match segs with
  | [] => acc
  | seg :: segs' =>
      if String.eqb seg "" || String.eqb seg "." then
        normalize_rev allowAboveRoot acc segs'
      else if String.eqb seg ".." then
        match acc with
        | last :: acc' =>
            if String.eqb last ".." then
              normalize_rev allowAboveRoot
                (if allowAboveRoot then ".." :: acc else acc) segs'
            else normalize_rev allowAboveRoot acc' segs'
        | [] =>
            normalize_rev allowAboveRoot
              (if allowAboveRoot then [".."] else []) segs'
        end
      else normalize_rev allowAboveRoot (seg :: acc) segs'
  end.

Definition normalizeString (p : string) (allowAboveRoot : bool) : string :=
  Js.join "/" (rev (normalize_rev allowAboveRoot [] (segments p))).

Definition isAbsolute (p : string) : bool := startsWith p "/".

(** [path.normalize(p)]. *)
Definition normalize (p : string) : string :=
  if (String.length p =? 0)%nat then "."
  else
    let abs := isAbsolute p in
    let trailing := endsWith p "/" in
    let body := normalizeString p (negb abs) in
    if (String.length body =? 0)%nat then
      if abs then "/" else if trailing then "./" else "."
    else
      let body' := if trailing then body +:+ "/" else body in
      if abs then "/" +:+ body' else body'.

(** [path.join(...parts)]. *)
Definition join (parts : list string) : string :=
  match List.filter (fun s => negb (String.length s =? 0)%nat) parts with
  | [] => "."
  | ps => normalize (Js.join "/" ps)
  end.

(** [path.resolve(...parts)] in working directory [cwd]: right to left
    until an absolute part is met, the working directory last. *)
Fixpoint resolve_acc (rparts : list string) (acc : string) : string * bool :=
  match rparts with
  | [] => (acc, false)
  | p :: rest =>
      if (String.length p =? 0)%nat then resolve_acc rest acc
      else
        let acc' := p +:+ "/" +:+ acc in
        if isAbsolute p then (acc', true) else resolve_acc rest acc'
  end.

Definition resolve (cwd : string) (parts : list string) : string :=
  let '(joined, abs) := resolve_acc (rev (cwd :: parts)) "" in
  let body := normalizeString joined (negb abs) in
  if abs then "/" +:+ body
  else if (0 <? String.length body)%nat then body else ".".

End Path.

(** ** The host: file system, external tools and clock *)

Inductive kind := KFile | KDir | KOther.

(** A [Dirent] of [readdir(dir, { withFileTypes: true })]. *)
Record Dirent := mkDirent { d_name : string; d_kind : kind }.

(** The part of [fs.Stats] the script reads. *)
Record Stats := mkStats { st_kind : kind; mtimeMs : Z }.

Definition isFile (k : kind) : bool := match k with KFile => true | _ => false end.
Definition isDirectory (k : kind) : bool := match k with KDir => true | _ => false end.

(** The calls that change the world. *)
Inductive syscall :=
| Rm (p : string) (recursive force : bool)
| Mkdir (p : string) (recursive : bool)
| Chmod (p : string) (mode : Z)
| ExecFile (file : string) (args : list string) (env : list (string * string)).

(** Every value the script catches is an [Error] object; it is
    represented by its [message].  A failed call may still have changed
    the world. *)
Class Host (W : Type) := {
  cwd : string;
  readdir : string -> W -> string + list Dirent;
  stat : string -> W -> string + Stats;
  perform : syscall -> W -> option string * W;
  now : W -> Z
}.

(** What a run leaves behind, oldest first: console lines, the calls that
    change the world with their outcome, and two probes, one for each
    entry into [unzipToDir] and one for each list that
    [listFilesRecursive] returns.  [LogError line None] is
    [console.error(line)]; [LogError line (Some err)] is
    [console.error(line, err)] for a caught [Error], which the runtime
    prints after [line] as it inspects it (its name, message, stack and
    fields); the trace keeps the error, represented by its message, and
    not that text. *)
Inductive event :=
| Log (line : string)
| LogError (line : string) (caught : option string)
| Did (c : syscall) (err : option string)
| Enter (zipPath preferredOutputDir : string)
| Scan (dirPath : string) (files : list string).

Record state (W : Type) := mkState { world : W; trace : list event }.
Arguments mkState {W}.
Arguments world {W}.
Arguments trace {W}.

(** The loops that are given a bound. *)
Inductive loop := InListFiles | InListDirs | InNestedZips.

Inductive outcome (W A : Type) :=
| Ok (a : A) (s : state W)
| Throw (err : string) (s : state W)
| Exit (code : Z) (s : state W)
| OutOfFuel (l : loop) (s : state W).
Arguments Ok {W A}.
Arguments Throw {W A}.
Arguments Exit {W A}.
Arguments OutOfFuel {W A}.

Definition M (W A : Type) : Type := state W -> outcome W A.

Definition final {W A} (r : outcome W A) : state W :=
  match r with
  | Ok _ s | Throw _ s | Exit _ s | OutOfFuel _ s => s
  end.

Section Monad.
Context {W : Type}.

Definition ret {A} (a : A) : M W A := fun s => Ok a s.
Definition throw {A} (err : string) : M W A := fun s => Throw err s.
Definition exit {A} (code : Z) : M W A := fun s => Exit code s.
Definition outOfFuel {A} (l : loop) : M W A := fun s => OutOfFuel l s.

Definition bind {A B} (m : M W A) (k : A -> M W B) : M W B :=
  fun s =>
    match m s with
    | Ok a s' => k a s'
    | Throw e s' => Throw e s'
    | Exit c s' => Exit c s'
    | OutOfFuel l s' => OutOfFuel l s'
    end.

(** [try { m } catch (err) { handler }]. *)
Definition tryCatch {A} (m : M W A) (handler : string -> M W A) : M W A :=
  fun s =>
    match m s with
    | Throw e s' => handler e s'
    | r => r
    end.

Definition emit (e : event) : M W unit :=
  fun s => Ok tt (mkState (world s) (trace s ++ [e])).

Definition consoleLog (line : string) : M W unit := emit (Log line).
Definition consoleError (line : string) : M W unit := emit (LogError line None).
Definition consoleErrorWith (line err : string) : M W unit :=
  emit (LogError line (Some err)).
End Monad.

Declare Scope js_scope.
Delimit Scope js_scope with js.
Notation "x <- m ;; k" := (bind m (fun x => k))
  (at level 100, m at next level, right associativity) : js_scope.
Notation "m ;; k" := (bind m (fun _ => k))
  (at level 100, right associativity) : js_scope.
Local Open Scope js_scope.

Section HostCalls.
Context {W : Type} `{Host W}.

Definition readdirM (dir : string) : M W (list Dirent) :=
  fun s =>
    match readdir dir (world s) with
    | inl e => Throw e s
    | inr entries => Ok entries s
    end.

Definition statM (p : string) : M W Stats :=
  fun s =>
    match stat p (world s) with
    | inl e => Throw e s
    | inr info => Ok info s
    end.

(** [stat(p).catch(() => null)]. *)
Definition statOrNull (p : string) : M W (option Stats) :=
  tryCatch (info <- statM p ;; ret (Some info)) (fun _ => ret None).

Definition sys (c : syscall) : M W unit :=
  fun s =>
    let '(err, w') := perform c (world s) in
    let s' := mkState w' (trace s ++ [Did c err]) in
    match err with
    | Some e => Throw e s'
    | None => Ok tt s'
    end.

Definition dateNow : M W Z := fun s => Ok (now (world s)) s.
End HostCalls.

(** ** The script *)

Definition nl : string := String (ascii_of_nat 10) "".
Definition dquote : string := String (ascii_of_nat 34) "".

(** [stack.pop()]: the last element of the array. *)
Definition pop {A} (stack : list A) : option (list A * A) :=
  match rev stack with
  | [] => None
  | x :: r => Some (rev r, x)
  end.

(** [errorText(err)] of an [Error] is its message. *)
Definition errorText (err : string) : string := err.

Definition isZipExt (filePath : string) : bool :=
  String.eqb (Js.toLowerCase (Path.extname filePath)) ".zip".

Definition isRealZipPath (filePath : string) : bool :=
  if negb (isZipExt filePath) then false
  else
    let base := Path.basename filePath in
    if Js.startsWith base "._" then false
    else if Js.includes filePath "/__MACOSX/" || Js.includes filePath "\__MACOSX\"
    then false
    else true.

Definition isMacMetadataFile (filePath : string) : bool :=
  let base := Path.basename filePath in
  String.eqb base ".DS_Store" || Js.startsWith base "._".

Definition isMacosxDir (dirPath : string) : bool :=
  String.eqb (Path.basename dirPath) "__MACOSX".

(** [(a, b) => b.length - a.length]. *)
Definition byLengthDesc (a b : string) : Z :=
  Z.of_nat (String.length b) - Z.of_nat (String.length a).

(** [{ zipPath, mtimeMs }]. *)
Record ZipReference := mkZipReference { zipPath : string; zipMtimeMs : Z }.

(** [(a, b) => b.mtimeMs - a.mtimeMs]. *)
Definition byMtimeDesc (a b : ZipReference) : Z := zipMtimeMs b - zipMtimeMs a.

Definition cLocale : list (string * string) :=
  [("LANG", "C"); ("LC_ALL", "C"); ("LC_CTYPE", "C")].

Section Script.
Context {W : Type} `{Host W}.

Definition UPLOAD_DIR : string := Path.resolve cwd [cwd; "upload"].

(** The [for] loop over the entries of one directory in
    [listFilesRecursive]. *)
Fixpoint filesOfEntries (current : string) (entries : list Dirent)
    (stack out : list string) : list string * list string :=
  match entries with
  | [] => (stack, out)
  | entry :: rest =>
      let fullPath := Path.join [current; d_name entry] in
      if isDirectory (d_kind entry) then
        filesOfEntries current rest (stack ++ [fullPath]) out
      else if isFile (d_kind entry) then
        filesOfEntries current rest stack (out ++ [fullPath])
      else filesOfEntries current rest stack out
  end.

Fixpoint listFilesLoop (fuel : nat) (stack out : list string) : M W (list string) :=
  match fuel with
  | O => outOfFuel InListFiles
  | S fuel' =>
      match pop stack with
      | None => ret out
      | Some (stack', current) =>
          entries <- readdirM current ;;
          let '(stack'', out') := filesOfEntries current entries stack' out in
          listFilesLoop fuel' stack'' out'
      end
  end.

Definition listFilesRecursive (fuel : nat) (dirPath : string) : M W (list string) :=
  out <- listFilesLoop fuel [dirPath] [] ;;
  emit (Scan dirPath out) ;;
  ret out.

Fixpoint dirsOfEntries (current : string) (entries : list Dirent)
    (stack out : list string) : list string * list string :=
  match entries with
  | [] => (stack, out)
  | entry :: rest =>
      if negb (isDirectory (d_kind entry)) then
        dirsOfEntries current rest stack out
      else
        let fullPath := Path.join [current; d_name entry] in
        dirsOfEntries current rest (stack ++ [fullPath]) (out ++ [fullPath])
  end.

Fixpoint listDirsLoop (fuel : nat) (stack out : list string) : M W (list string) :=
  match fuel with
  | O => outOfFuel InListDirs
  | S fuel' =>
      match pop stack with
      | None => ret out
      | Some (stack', current) =>
          entries <- readdirM current ;;
          let '(stack'', out') := dirsOfEntries current entries stack' out in
          listDirsLoop fuel' stack'' out'
      end
  end.

Definition listDirsRecursive (fuel : nat) (dirPath : string) : M W (list string) :=
  listDirsLoop fuel [dirPath] [].

Definition buildFallbackDirPath (preferredDir : string) : M W string :=
  let parent := Path.dirname preferredDir in
  let base := Path.basename preferredDir in
  t <- dateNow ;;
  ret (Path.join [parent; base +:+ "_" +:+ Js.ofZ t]).

Definition prepareEmptyDir (preferredDir : string) : M W string :=
  tryCatch
    (sys (Rm preferredDir true true) ;;
     sys (Mkdir preferredDir true) ;;
     ret preferredDir)
    (fun err =>
       fallbackDir <- buildFallbackDirPath preferredDir ;;
       sys (Mkdir fallbackDir true) ;;
       consoleLog ("[zip:extract] cannot reuse output dir (" +:+ preferredDir
                   +:+ "); using fallback: " +:+ fallbackDir) ;;
       consoleLog ("[zip:extract] reason: " +:+ err) ;;
       ret fallbackDir).

Definition unzipToDir (zipPath preferredOutputDir : string) : M W string :=
  emit (Enter zipPath preferredOutputDir) ;;
  outputDir <- prepareEmptyDir preferredOutputDir ;;
  tryCatch
    (sys (ExecFile "unzip" ["-o"; zipPath; "-d"; outputDir] cLocale))
    (fun unzipErr =>
       let unzipMsg := errorText unzipErr in
       consoleLog "[zip:extract] unzip failed, retrying with ditto..." ;;
       consoleLog ("[zip:extract] unzip reason: " +:+ unzipMsg) ;;
       tryCatch
         (sys (ExecFile "ditto" ["-x"; "-k"; zipPath; outputDir] []) ;;
          consoleLog "[zip:extract] ditto fallback succeeded.")
         (fun dittoErr =>
            let dittoMsg := errorText dittoErr in
            throw ("Both unzip and ditto failed." +:+ nl +:+ "- unzip: " +:+ unzipMsg
                   +:+ nl +:+ "- ditto: " +:+ dittoMsg))) ;;
  ret outputDir.

(** The two [for] loops of [cleanupMacArtifacts]. *)
Fixpoint removeMetadataFiles (files : list string) (removedFiles : nat) : M W nat :=
  match files with
  | [] => ret removedFiles
  | filePath :: rest =>
      if negb (isMacMetadataFile filePath) then removeMetadataFiles rest removedFiles
      else
        sys (Rm filePath false true) ;;
        removeMetadataFiles rest (removedFiles + 1)
  end.

Fixpoint removeMacosxDirs (dirs : list string) (removedDirs : nat) : M W nat :=
  match dirs with
  | [] => ret removedDirs
  | dirPath :: rest =>
      if negb (isMacosxDir dirPath) then removeMacosxDirs rest removedDirs
      else
        sys (Rm dirPath true true) ;;
        removeMacosxDirs rest (removedDirs + 1)
  end.

Definition cleanupMacArtifacts (walk : nat) (rootOutputDir : string) : M W (nat * nat) :=
  files <- listFilesRecursive walk rootOutputDir ;;
  removedFiles <- removeMetadataFiles files 0 ;;
  dirs <- listDirsRecursive walk rootOutputDir ;;
  let dirs := Js.sort byLengthDesc dirs in
  removedDirs <- removeMacosxDirs dirs 0 ;;
  ret (removedFiles, removedDirs).

Fixpoint chmodEach (dirs : list string) (updated : nat) : M W nat :=
  match dirs with
  | [] => ret updated
  | dirPath :: rest =>
      updated' <- tryCatch (sys (Chmod dirPath 493) ;; ret (updated + 1)%nat)
                           (fun _ => ret updated) ;;
      chmodEach rest updated'
  end.

Definition makeDirectoriesWritable (walk : nat) (rootDir : string) : M W nat :=
  sub <- listDirsRecursive walk rootDir ;;
  chmodEach (rootDir :: sub) 0.

(** [Promise.all(paths.map(async (zipPath) => ...stat...))]. *)
Fixpoint withMtimeOf (paths : list string) : M W (list ZipReference) :=
  match paths with
  | [] => ret []
  | zipPath :: rest =>
      info <- statM zipPath ;;
      others <- withMtimeOf rest ;;
      ret (mkZipReference zipPath (mtimeMs info) :: others)
  end.

(** [withMtime[0].zipPath]. *)
Definition firstZipPath (withMtime : list ZipReference) : M W string :=
  match withMtime with
  | first :: _ => ret (zipPath first)
  | [] => throw "Cannot read properties of undefined (reading 'zipPath')"
  end.

Definition matchesArg (normalizedArg normalizedArgZip file : string) : bool :=
  let base := Js.toLowerCase (Path.basename file) in
  String.eqb base normalizedArg || String.eqb base normalizedArgZip.

Definition resolveZipFromArgs (walk : nat) (zipArg : option string) : M W string :=
  let cleanArg := from_option Js.trim "" zipArg in
  if negb (String.length cleanArg =? 0)%nat then
    let directPath := Path.resolve cwd [cleanArg] in
    directInfo <- statOrNull directPath ;;
    if from_option (fun i => isFile (st_kind i)) false directInfo then ret directPath
    else
      let uploadPath := Path.resolve cwd [UPLOAD_DIR; cleanArg] in
      uploadInfo <- statOrNull uploadPath ;;
      if from_option (fun i => isFile (st_kind i)) false uploadInfo then ret uploadPath
      else
        uploadFiles <- tryCatch (listFilesRecursive walk UPLOAD_DIR) (fun _ => ret []) ;;
        let uploadZips := List.filter isRealZipPath uploadFiles in
        let normalizedArg := Js.toLowerCase cleanArg in
        let normalizedArgZip :=
          if Js.endsWith normalizedArg ".zip" then normalizedArg
          else normalizedArg +:+ ".zip" in
        let matches := List.filter (matchesArg normalizedArg normalizedArgZip) uploadZips in
        match matches with
        | [only] => ret only
        | _ :: _ :: _ =>
            withMtime <- withMtimeOf matches ;;
            let withMtime := Js.sort byMtimeDesc withMtime in
            first <- firstZipPath withMtime ;;
            consoleLog ("[zip:extract] multiple matches for " +:+ dquote +:+ cleanArg
                        +:+ dquote +:+ ", using newest: " +:+ first) ;;
            ret first
        | [] =>
            let available :=
              firstn 12 (Js.uniq [] (List.map Path.basename uploadZips)) in
            let listed := Js.join ", " available in
            throw ("zip file not found: " +:+ cleanArg
                   +:+ ". Available zip files in upload: "
                   +:+ (if (String.length listed =? 0)%nat then "(none)" else listed))
        end
  else
    uploadStat <- statOrNull UPLOAD_DIR ;;
    if negb (from_option (fun i => isDirectory (st_kind i)) false uploadStat) then
      throw ("upload folder not found: " +:+ UPLOAD_DIR)
    else
      files <- listFilesRecursive walk UPLOAD_DIR ;;
      let zips := List.filter isRealZipPath files in
      if (length zips =? 0)%nat then
        throw ("no .zip files found in upload folder: " +:+ UPLOAD_DIR)
      else
        withMtime <- withMtimeOf zips ;;
        let withMtime := Js.sort byMtimeDesc withMtime in
        firstZipPath withMtime.

(** The counters and the processed set that [extractNestedZips] keeps. *)
Record nested := mkNested {
  processed : gset string;
  nestedZipCount : nat;
  nestedZipFailures : nat
}.

(** The [for] loop over [pending], one scan pass. *)
Fixpoint extractPending (pending : list string) (st : nested) : M W nested :=
  match pending with
  | [] => ret st
  | zipPath :: rest =>
      let processed := {[zipPath]} ∪ processed st in
      let base := Path.basename_ext zipPath ".zip" in
      let parent := Path.dirname zipPath in
      let nestedOutputDir := Path.join [parent; base +:+ "_extracted"] in
      st' <- tryCatch
               (resolvedNestedOutputDir <- unzipToDir zipPath nestedOutputDir ;;
                consoleLog ("[zip:extract] nested zip extracted: " +:+ zipPath
                            +:+ " -> " +:+ resolvedNestedOutputDir) ;;
                ret (mkNested processed (nestedZipCount st + 1) (nestedZipFailures st)))
               (fun err =>
                  consoleLog ("[zip:extract] nested zip skipped (failed to extract): "
                              +:+ zipPath) ;;
                  consoleLog ("[zip:extract] reason: " +:+ err) ;;
                  ret (mkNested processed (nestedZipCount st) (nestedZipFailures st + 1))) ;;
      extractPending rest st'
  end.

(** The zips of a scan that are not in the processed set. *)
Definition pendingOf (processed : gset string) (files : list string) : list string :=
  let zips := List.filter isRealZipPath files in
  List.filter (fun zipPath => negb (bool_decide (zipPath ∈ processed))) zips.

(** The [while (true)] loop: [fuel] bounds the number of scan passes,
    [walk] the length of each directory walk. *)
Fixpoint nestedLoop (walk fuel : nat) (rootOutputDir : string) (st : nested) : M W nested :=
  match fuel with
  | O => outOfFuel InNestedZips
  | S fuel' =>
      makeDirectoriesWritable walk rootOutputDir ;;
      files <- listFilesRecursive walk rootOutputDir ;;
      let pending := pendingOf (processed st) files in
      if (length pending =? 0)%nat then ret st
      else
        st' <- extractPending pending st ;;
        nestedLoop walk fuel' rootOutputDir st'
  end.

Definition extractNestedZips (walk fuel : nat) (rootOutputDir : string) : M W (nat * nat) :=
  st <- nestedLoop walk fuel rootOutputDir (mkNested ∅ 0 0) ;;
  ret (nestedZipCount st, nestedZipFailures st).

Definition main (walk fuel : nat) (argv : list string) : M W unit :=
  let zipArg := nth_error argv 2 in
  let outputArg := nth_error argv 3 in
  zipPath <- resolveZipFromArgs walk zipArg ;;
  if negb (isZipExt zipPath) then
    consoleError ("[zip:extract] input is not a .zip file: " +:+ zipPath) ;;
    exit 1
  else
    let defaultOutput :=
      Path.join [Path.dirname zipPath; Path.basename_ext zipPath ".zip" +:+ "_extracted"] in
    let outputDir := Path.resolve cwd [from_option id defaultOutput outputArg] in
    consoleLog ("[zip:extract] source zip: " +:+ zipPath) ;;
    consoleLog ("[zip:extract] requested output dir: " +:+ outputDir) ;;
    outputDir <- unzipToDir zipPath outputDir ;;
    consoleLog ("[zip:extract] output dir: " +:+ outputDir) ;;
    consoleLog "[zip:extract] root zip extracted." ;;
    writableDirsUpdated <- makeDirectoriesWritable walk outputDir ;;
    consoleLog ("[zip:extract] writable directory normalization: "
                +:+ Js.ofNat writableDirsUpdated +:+ " dirs updated") ;;
    counts <- extractNestedZips walk fuel outputDir ;;
    removed <- cleanupMacArtifacts walk outputDir ;;
    allFiles <- listFilesRecursive walk outputDir ;;
    allDirs <- listDirsRecursive walk outputDir ;;
    let zipFiles := List.filter isZipExt allFiles in
    let nonZipFiles := List.filter (fun file => negb (isZipExt file)) allFiles in
    consoleLog "[zip:extract] summary:" ;;
    consoleLog ("- nested zips extracted: " +:+ Js.ofNat (fst counts)) ;;
    consoleLog ("- nested zips failed/skipped: " +:+ Js.ofNat (snd counts)) ;;
    consoleLog ("- mac metadata files removed: " +:+ Js.ofNat (fst removed)) ;;
    consoleLog ("- __MACOSX folders removed: " +:+ Js.ofNat (snd removed)) ;;
    consoleLog ("- total folders found: " +:+ Js.ofNat (length allDirs)) ;;
    consoleLog ("- total files found: " +:+ Js.ofNat (length allFiles)) ;;
    consoleLog ("- non-zip files: " +:+ Js.ofNat (length nonZipFiles)) ;;
    consoleLog ("- zip files still present: " +:+ Js.ofNat (length zipFiles)).

(** [main().catch(...)]: the whole process. *)
Definition program (walk fuel : nat) (argv : list string) : M W unit :=
  tryCatch (main walk fuel argv)
    (fun err =>
       consoleErrorWith "[zip:extract] failed:" err ;;
       exit 1).

(** The exit code of a process that ended. *)
Definition exitCode (r : outcome W unit) : option Z :=
  match r with
  | Ok _ _ => Some 0
  | Exit code _ => Some code
  | Throw _ _ => Some 1
  | OutOfFuel _ _ => None
  end.

End Script.

(** ** Plain absolute paths *)

(** An entry name as [readdir] gives them: not empty, no slash, neither
    [.] nor [..]. *)
Definition plain (name : string) : bool :=
  negb (String.length name =? 0)%nat
  && negb (existsb Path.is_slash (Js.chars name))
  && negb (String.eqb name ".") && negb (String.eqb name "..").

(** The normalized absolute path with the given components. *)
Definition render (segs : list string) : string := "/" +:+ Js.join "/" segs.

(** ** Reading a trace *)

(** The zip paths handed to [unzipToDir], in order. *)
Definition entered (tr : list event) : list string :=
  omap (fun e => match e with Enter zipPath _ => Some zipPath | _ => None end) tr.

(** The lists returned by [listFilesRecursive], in order. *)
Definition scans (tr : list event) : list (list string) :=
  omap (fun e => match e with Scan _ files => Some files | _ => None end) tr.

(** The calls that changed, or tried to change, the world. *)
Definition mutations (tr : list event) : list syscall :=
  omap (fun e => match e with Did c _ => Some c | _ => None end) tr.

(** The external tool runs that succeeded. *)
Definition toolSuccesses (tr : list event) : nat :=
  length (List.filter (fun e => match e with
                                | Did (ExecFile _ _ _) None => true
                                | _ => false
                                end) tr).

(** The paths removed recursively, in order. *)
Definition removedTrees (tr : list event) : list string :=
  omap (fun e => match e with Did (Rm p true _) None => Some p | _ => None end) tr.

Definition logged (tr : list event) : list string :=
  omap (fun e => match e with Log line => Some line | _ => None end) tr.

(** The events of a run that started in [s] and ended in [s']. *)
Definition since {W} (s s' : state W) : list event :=
  skipn (length (trace s)) (trace s').


(** ** A simulated host

    An in-memory file system used to run the script on concrete trees: a
    Linux-like machine with [unzip] and without [ditto].  A file carries
    the number of its content; the table [archives] tells which contents
    are readable zip archives and what they hold.  Paths in
    [undeletable] refuse removal, directories in [readonly] refuse new
    entries and a change of mode. *)

Module Sim.

Record node := mkNode {
  n_path : string;
  n_kind : kind;
  n_content : nat;
  n_mtimeMs : Z
}.

(** One member of an archive: path inside the archive, kind, content. *)
Record member := mkMember { m_path : string; m_kind : kind; m_content : nat }.

Record t := mkSim {
  nodes : list node;
  archives : list (nat * list member);
  undeletable : list string;
  readonly : list string;
  clock : Z
}.

Definition lookupNode (p : string) (w : t) : option node :=
  List.find (fun n => String.eqb (n_path n) p) (nodes w).

(** The name of [p] inside directory [dir], if [p] is a child of it. *)
Definition childName (dir p : string) : option string :=
  let d := Js.chars (if String.eqb dir "/" then "/" else dir +:+ "/") in
  let l := Js.chars p in
  if Js.is_prefix d l then
    let name := skipn (length d) l in
    if (0 <? length name)%nat && negb (existsb Path.is_slash name)
    then Some (Js.str name) else None
  else None.

Definition isUnder (dir p : string) : bool :=
  String.eqb dir p || Js.startsWith p (dir +:+ "/").

Definition sim_readdir (dir : string) (w : t) : string + list Dirent :=
  match lookupNode dir w with
  | Some n =>
      if isDirectory (n_kind n) then
        inr (omap (fun c => match childName dir (n_path c) with
                            | Some name => Some (mkDirent name (n_kind c))
                            | None => None
                            end) (nodes w))
      else inl ("ENOTDIR: not a directory, scandir '" +:+ dir +:+ "'")
  | None => inl ("ENOENT: no such file or directory, scandir '" +:+ dir +:+ "'")
  end.

Definition sim_stat (p : string) (w : t) : string + Stats :=
  match lookupNode p w with
  | Some n => inr (mkStats (n_kind n) (n_mtimeMs n))
  | None => inl ("ENOENT: no such file or directory, stat '" +:+ p +:+ "'")
  end.

Definition missing (ns : list node) (p : string) : bool :=
  negb (existsb (fun n => String.eqb (n_path n) p) ns).

Definition holdsUndeletable (p : string) (w : t) : bool :=
  existsb (fun held => isUnder p held && negb (missing (nodes w) held)) (undeletable w).

Definition inReadonly (p : string) (w : t) : bool :=
  existsb (String.eqb (Path.dirname p)) (readonly w).

Definition withNodes (w : t) (ns : list node) : t :=
  mkSim ns (archives w) (undeletable w) (readonly w) (clock w).

Definition putNode (n : node) (ns : list node) : list node :=
  List.filter (fun m => negb (String.eqb (n_path m) (n_path n))) ns ++ [n].

(** The directories above [p], nearest first. *)
Fixpoint parents (fuel : nat) (p : string) : list string :=
  match fuel with
  | O => []
  | S fuel' =>
      let d := Path.dirname p in
      if String.eqb d p || String.eqb d "." then [] else d :: parents fuel' d
  end.

Definition ensureDir (w : t) (ns : list node) (p : string) : list node :=
  if missing ns p then ns ++ [mkNode p KDir 0 (clock w)] else ns.

Definition sim_perform (c : syscall) (w : t) : option string * t :=
  match c with
  | Rm p recursive force =>
      if holdsUndeletable p w
      then (Some ("EPERM: operation not permitted, rm '" +:+ p +:+ "'"), w)
      else match lookupNode p w with
           | None =>
               if force then (None, w)
               else (Some ("ENOENT: no such file or directory, rm '" +:+ p +:+ "'"), w)
           | Some n =>
               if isDirectory (n_kind n) && negb recursive
               then (Some ("ERR_FS_EISDIR: Path is a directory: rm '" +:+ p +:+ "'"), w)
               else (None, withNodes w
                             (List.filter (fun m => negb (isUnder p (n_path m))) (nodes w)))
           end
  | Mkdir p recursive =>
      match lookupNode p w with
      | Some n =>
          if isDirectory (n_kind n) && recursive then (None, w)
          else (Some ("EEXIST: file already exists, mkdir '" +:+ p +:+ "'"), w)
      | None =>
          let above := if recursive then rev (parents (String.length p) p) else [] in
          let wanted := List.filter (missing (nodes w)) (above ++ [p]) in
          if existsb (fun d => inReadonly d w) wanted
          then (Some ("EACCES: permission denied, mkdir '" +:+ p +:+ "'"), w)
          else (None, withNodes w (fold_left (ensureDir w) wanted (nodes w)))
      end
  | Chmod p mode =>
      if existsb (String.eqb p) (readonly w)
      then (Some ("EPERM: operation not permitted, chmod '" +:+ p +:+ "'"), w)
      else match lookupNode p w with
           | Some _ => (None, w)
           | None => (Some ("ENOENT: no such file or directory, chmod '" +:+ p +:+ "'"), w)
           end
  | ExecFile "unzip" ["-o"; zip; "-d"; out] _ =>
      let failed := Some ("Command failed: unzip -o " +:+ zip +:+ " -d " +:+ out) in
      match lookupNode zip w with
      | Some n =>
          match List.find (fun a => Nat.eqb (fst a) (n_content n)) (archives w) with
          | Some (_, members) =>
              let made := List.map (fun m => mkNode (Path.join [out; m_path m]) (m_kind m)
                                                    (m_content m) (clock w)) members in
              if existsb (fun n => inReadonly (n_path n) w) made then (failed, w)
              else (None, withNodes w (fold_left (fun ns n => putNode n ns) made (nodes w)))
          | None => (failed, w)
          end
      | None => (failed, w)
      end
  | ExecFile file _ _ => (Some ("spawn " +:+ file +:+ " ENOENT"), w)
  end.

#[global] Instance host : Host t := {|
  cwd := "/work";
  readdir := sim_readdir;
  stat := sim_stat;
  perform := sim_perform;
  now := clock
|}.

Definition start (w : t) : state t := mkState w [].

End Sim.

(** ** A host with a self-containing archive

    The tree under [/out] holds one archive, [r.zip], whose single
    member is a copy of itself.  A world is the number of nested copies
    unpacked so far: directory [dirAt j] and the file [zipAt j] exist
    for every [j] up to [depth]; [fresh] tells that the next directory
    has been created and is still empty.  Existing entries cannot be
    removed.  As on a real host, no path longer than a limit can be
    listed or created: [pathMax] plays the part of [PATH_MAX], scaled
    down so that a run reaches it after a few levels. *)

Module Quine.

Definition dirAt (j : nat) : string := render ("out" :: repeat "r_extracted" j).
Definition zipAt (j : nat) : string := dirAt j +:+ "/r.zip".

Definition pathMax : nat := 60.
Definition tooLong (p : string) : bool := (pathMax <? String.length p)%nat.

Record t := mkWorld { depth : nat; fresh : bool }.

(** The [j] with [p = dirAt j]. *)
Definition depthOf (p : string) : option nat :=
  List.find (fun j => String.eqb (dirAt j) p) (seq 0 (S (String.length p))).

(** The [j] with [p = zipAt j]. *)
Definition zipDepthOf (p : string) : option nat :=
  if Js.endsWith p "/r.zip" then depthOf (Path.dirname p) else None.

Definition dirExists (p : string) (w : t) : bool :=
  match depthOf p with
  | Some i => (i <=? depth w)%nat || (fresh w && (i =? S (depth w))%nat)
  | None => false
  end.

Definition zipExists (p : string) (w : t) : bool :=
  match zipDepthOf p with
  | Some i => (i <=? depth w)%nat
  | None => false
  end.

Definition q_readdir (p : string) (w : t) : string + list Dirent :=
  let missing := inl ("ENOENT: no such file or directory, scandir '" +:+ p +:+ "'") in
  if tooLong p then inl ("ENAMETOOLONG: name too long, scandir '" +:+ p +:+ "'")
  else
    match depthOf p with
    | Some i =>
        if (i <=? depth w)%nat then
          inr (mkDirent "r.zip" KFile ::
               (if (i <? depth w)%nat || (fresh w && (i =? depth w)%nat)
                then [mkDirent "r_extracted" KDir] else []))
        else if fresh w && (i =? S (depth w))%nat then inr []
        else missing
    | None => missing
    end.

Definition q_stat (p : string) (w : t) : string + Stats :=
  if tooLong p then inl ("ENAMETOOLONG: name too long, stat '" +:+ p +:+ "'")
  else if dirExists p w then inr (mkStats KDir 0)
  else if zipExists p w then inr (mkStats KFile 0)
  else inl ("ENOENT: no such file or directory, stat '" +:+ p +:+ "'").

Definition q_perform (c : syscall) (w : t) : option string * t :=
  match c with
  | Rm p _ force =>
      if tooLong p
      then (Some ("ENAMETOOLONG: name too long, rm '" +:+ p +:+ "'"), w)
      else if dirExists p w || zipExists p w
      then (Some ("EPERM: operation not permitted, rm '" +:+ p +:+ "'"), w)
      else if force then (None, w)
      else (Some ("ENOENT: no such file or directory, rm '" +:+ p +:+ "'"), w)
  | Mkdir p recursive =>
      if tooLong p
      then (Some ("ENAMETOOLONG: name too long, mkdir '" +:+ p +:+ "'"), w)
      else if dirExists p w then
        (if recursive then None
         else Some ("EEXIST: file already exists, mkdir '" +:+ p +:+ "'"), w)
      else if String.eqb p (dirAt (S (depth w)))
      then (None, mkWorld (depth w) true)
      else (Some ("EACCES: permission denied, mkdir '" +:+ p +:+ "'"), w)
  | Chmod p _ =>
      if tooLong p
      then (Some ("ENAMETOOLONG: name too long, chmod '" +:+ p +:+ "'"), w)
      else if dirExists p w || zipExists p w then (None, w)
      else (Some ("ENOENT: no such file or directory, chmod '" +:+ p +:+ "'"), w)
  | ExecFile "unzip" ["-o"; zip; "-d"; out] _ =>
      let failed := Some ("Command failed: unzip -o " +:+ zip +:+ " -d " +:+ out) in
      match zipDepthOf zip, depthOf out with
      | Some i, Some j =>
          if (i <=? depth w)%nat && (j =? S i)%nat && negb (tooLong zip)
             && negb (tooLong (out +:+ "/r.zip")) then
            if (j <=? depth w)%nat then (None, w)
            else (None, mkWorld (S (depth w)) false)
          else (failed, w)
      | _, _ => (failed, w)
      end
  | ExecFile file _ _ => (Some ("spawn " +:+ file +:+ " ENOENT"), w)
  end.

#[global] Instance host : Host t := {|
  cwd := "/";
  readdir := q_readdir;
  stat := q_stat;
  perform := q_perform;
  now := fun _ => 0
|}.

(** The world with [k] unpacked copies, and a run starting in it. *)
Definition at_depth (k : nat) : t := mkWorld k false.
Definition start : state t := mkState (at_depth 0) [].

End Quine.

(** * The pure parts of the detection script [index.js]

    The file-name and markup helpers, and the arithmetic that clamps a
    detection box to the image.  The rest of [detectAndCrop] talks to
    the network and to the image library. *)

Module Detect.

(** The class [[a-zA-Z0-9_-]] of the pattern in [sanitizeFilename]. *)
Definition isSafeChar (c : ascii) : bool :=
  let n := nat_of_ascii c in
  (((97 <=? n) && (n <=? 122)) || ((65 <=? n) && (n <=? 90))
   || ((48 <=? n) && (n <=? 57)) || (n =? 95) || (n =? 45))%nat.

(** [name.replace(/[^a-zA-Z0-9_-]/g, "_")]: without the [u] flag the
    pattern is tried at every code unit. *)
Definition sanitizeFilename (name : string) : string :=
  Js.str (List.map (fun c => if isSafeChar c then c else "_"%char) (Js.chars name)).

(** [s.replace(/c/g, by)] for a pattern of one character [c]. *)
Fixpoint replaceAll (c : ascii) (by_ : string) (l : list ascii) : list ascii :=
  match l with
  | [] => []
  | x :: l' => (if Ascii.eqb x c then Js.chars by_ else [x]) ++ replaceAll c by_ l'
  end.

Definition amp : ascii := "&"%char.
Definition lt : ascii := "<"%char.
Definition gt : ascii := ">"%char.
Definition quot : ascii := ascii_of_nat 34.

(** [escapeXml(s)]: four replacements, one after the other, the
    ampersand first. *)
Definition escapeXml (s : string) : string :=
  Js.str (replaceAll quot "&quot;"
            (replaceAll gt "&gt;"
               (replaceAll lt "&lt;"
                  (replaceAll amp "&amp;" (Js.chars s))))).

(** The body of the cropping loop up to its [continue], lines 127-135:
    [left], [top], [w] and [h] are the rounded values of lines 122-125,
    integers like the image's width and height.  [None] is the skipped
    detection, otherwise the region handed to [extract]. *)
Definition cropRegion (left top w h actualWidth actualHeight : Z) :
    option (Z * Z * Z * Z) :=
  let left := Z.max 0 (Z.min left (actualWidth - 1)) in
  let top := Z.max 0 (Z.min top (actualHeight - 1)) in
  let w := Z.min w (actualWidth - left) in
  let h := Z.min h (actualHeight - top) in
  if (w <=? 0) || (h <=? 0) then None else Some (left, top, w, h).

End Detect.

(** * Vocabulary of the properties *)

(** ** Orders by a key *)

Section ByKey.
Context {A : Type} (key : A -> Z).

(** The comparator [(a, b) => key(b) - key(a)]. *)
Definition keyDesc (a b : A) : Z := key b - key a.

(** Largest key first. *)
Definition descending (l : list A) : Prop :=
  StronglySorted (fun a b => key b <= key a) l.

End ByKey.

(** ** Classes of events and of runs *)

Definition isEnter (e : event) : bool := match e with Enter _ _ => true | _ => false end.
Definition isScan (e : event) : bool := match e with Scan _ _ => true | _ => false end.
Definition isDid (e : event) : bool := match e with Did _ _ => true | _ => false end.
Definition isChmod (e : event) : bool :=
  match e with Did (Chmod _ _) _ => true | _ => false end.
Definition isToolSuccess (e : event) : bool :=
  match e with Did (ExecFile _ _ _) None => true | _ => false end.

Definition isLogError (e : event) : bool :=
  match e with LogError _ _ => true | _ => false end.

(** Nothing for the error stream. *)
Definition calm (e : event) : bool := negb (isLogError e).

(** What a trace holds for the error stream, in order. *)
Definition errorOutput (tr : list event) : list event := List.filter isLogError tr.

(** Neither probe: a console line or a call. *)
Definition quiet (e : event) : bool := negb (isEnter e || isScan e).

(** Console lines and scan probes: nothing that touches the world. *)
Definition harmless (e : event) : bool := negb (isDid e || isEnter e).

(** [m] only appends events of class [P] to the trace. *)
Definition emits {W A} (P : event -> bool) (m : M W A) : Prop :=
  forall s, exists d, trace (final (m s)) = trace s ++ d /\ forallb P d = true.

(** [m] leaves the world alone. *)
Definition reads {W A} (m : M W A) : Prop :=
  forall s, world (final (m s)) = world s.

(** [m] never ends the process. *)
Definition stays {W A} (m : M W A) : Prop :=
  forall s code s', m s <> Exit code s'.

(** ** Resolution of the argument *)

(** [arg] neither starts nor ends with white space. *)
Definition trimmed (arg : string) : bool :=
  match Js.chars arg, rev (Js.chars arg) with
  | c :: _, d :: _ => negb (Js.is_white c) && negb (Js.is_white d)
  | _, _ => true
  end.

(** The path picked among [paths] by modification time. *)
Definition newestAmong {W} `{Host W} (s : state W) (paths : list string) (p : string) : Prop :=
  In p paths /\
  exists best, stat p (world s) = inr best /\
    forall z, In z paths ->
      exists info, stat z (world s) = inr info /\ mtimeMs info <= mtimeMs best.



(** Whether [p] names a regular file. *)
Definition isFileAt {W} `{Host W} (p : string) (s : state W) : bool :=
  match stat p (world s) with
  | inr info => isFile (st_kind info)
  | inl _ => false
  end.



(** ** Deletion order *)


(** ** Preparation of the output directory *)

(** Clearing and recreating [preferredDir] in world [w] fails with
    [err], leaving world [w1] and the events [evs]. *)
Inductive prepFailure {W} `{Host W} (preferredDir : string) (w : W) :
    string -> W -> list event -> Prop :=
| rmFails err w1 :
    perform (Rm preferredDir true true) w = (Some err, w1) ->
    prepFailure preferredDir w err w1 [Did (Rm preferredDir true true) (Some err)]
| mkdirFails w0 err w1 :
    perform (Rm preferredDir true true) w = (None, w0) ->
    perform (Mkdir preferredDir true) w0 = (Some err, w1) ->
    prepFailure preferredDir w err w1
      [Did (Rm preferredDir true true) None; Did (Mkdir preferredDir true) (Some err)].

Definition fallbackOf (preferredDir : string) (t : Z) : string :=
  Path.join [Path.dirname preferredDir;
             Path.basename preferredDir +:+ "_" +:+ Js.ofZ t].

Definition fallbackEvents (preferredDir fallbackDir err : string) : list event :=
  [ Did (Mkdir fallbackDir true) None;
    Log ("[zip:extract] cannot reuse output dir (" +:+ preferredDir
         +:+ "); using fallback: " +:+ fallbackDir);
    Log ("[zip:extract] reason: " +:+ err) ].

Definition bothFailed (unzipMsg dittoMsg : string) : string :=
  "Both unzip and ditto failed." +:+ nl +:+ "- unzip: " +:+ unzipMsg
  +:+ nl +:+ "- ditto: " +:+ dittoMsg.

(** ** Passes of the nested-extraction loop *)

(** How a run of the loop can end without being out of passes: it found
    nothing pending, or a directory walk failed or was cut short. *)
Definition stopped {W} `{Host W} (st : nested) (r : outcome W nested) : Prop :=
  match r with
  | Ok st' _ => st' = st
  | Throw e s' => exists dir, readdir dir (world s') = inl e
  | Exit _ _ => False
  | OutOfFuel l _ => l <> InNestedZips
  end.

(** The passes of a run of [nestedLoop] from counters [st], its outcome
    and its events.  A pass makes the directories writable ([evw]),
    scans, and hands every pending zip to [unzipToDir] ([evp]). *)
Inductive loopRun {W} `{Host W} (root : string) :
    nat -> nested -> outcome W nested -> list event -> Prop :=
| run_out st s : loopRun root O st (OutOfFuel InNestedZips s) []
| run_stop fuel st r ev :
    entered ev = [] -> toolSuccesses ev = O -> stopped st r ->
    loopRun root (S fuel) st r ev
| run_pass fuel st files evw evp st' r evr :
    forallb isChmod evw = true ->
    pendingOf (processed st) files <> [] ->
    entered evp = pendingOf (processed st) files ->
    scans evp = [] ->
    processed st' = list_to_set (pendingOf (processed st) files) ∪ processed st ->
    nestedZipCount st' = (nestedZipCount st + toolSuccesses evp)%nat ->
    (nestedZipCount st' + nestedZipFailures st'
     = nestedZipCount st + nestedZipFailures st
       + length (pendingOf (processed st) files))%nat ->
    loopRun root fuel st' r evr ->
    loopRun root (S fuel) st r (evw ++ [Scan root files] ++ evp ++ evr).

(** What the passes hand to the extractor when their scans list
    [scans]: of each scan, every zip that no earlier pass has taken, in
    the order of the scan. *)
Fixpoint handedOver (seen : gset string) (scans : list (list string)) : list string :=
  match scans with
  | [] => []
  | files :: rest =>
      pendingOf seen files
      ++ handedOver (list_to_set (pendingOf seen files) ∪ seen) rest
  end.

(** ** The end of a run *)

(** The error [e] raised in state [s'] comes from a directory listing
    that failed, or from a removal that failed and was the last thing
    done. *)
Definition listingOrRemovalFailed {W} `{Host W} (e : string) (s' : state W) : Prop :=
  (exists dir, readdir dir (world s') = inl e) \/
  (exists p recursive tr, trace s' = tr ++ [Did (Rm p recursive true) (Some e)]).

(** [m] does not end the process, and fails on nothing else. *)
Definition failsOnlyOnFiles {W A} `{Host W} (m : M W A) : Prop :=
  forall s,
    match m s with
    | Ok _ _ => True
    | Throw e s' => listingOrRemovalFailed e s'
    | Exit _ _ => False
    | OutOfFuel _ _ => True
    end.

(** A call that failed. *)
Definition isFailure (e : event) : bool :=
  match e with Did _ (Some _) => true | _ => false end.

(** [m] tolerates no failed call: a call that fails is the last thing
    [m] does, and its error is raised. *)
Definition stopsAtFailure {W A} (m : M W A) : Prop :=
  forall s, exists d,
    trace (final (m s)) = trace s ++ d /\
    (existsb isFailure d = false \/
     exists d0 c e s',
       d = d0 ++ [Did c (Some e)] /\ existsb isFailure d0 = false /\ m s = Throw e s').

Definition summaryLines (counts removed : nat * nat) (dirs files nonZip zips : nat) :
    list event :=
  [ Log "[zip:extract] summary:";
    Log ("- nested zips extracted: " +:+ Js.ofNat (fst counts));
    Log ("- nested zips failed/skipped: " +:+ Js.ofNat (snd counts));
    Log ("- mac metadata files removed: " +:+ Js.ofNat (fst removed));
    Log ("- __MACOSX folders removed: " +:+ Js.ofNat (snd removed));
    Log ("- total folders found: " +:+ Js.ofNat dirs);
    Log ("- total files found: " +:+ Js.ofNat files);
    Log ("- non-zip files: " +:+ Js.ofNat nonZip);
    Log ("- zip files still present: " +:+ Js.ofNat zips) ].

(** ** The self-containing archive *)

(** The components of [Quine.dirAt j]. *)
Definition segsAt (j : nat) : list string := "out" :: repeat "r_extracted" j.

(** ** Hosts with a path limit *)

(** No listing of the host holds an entry whose path is longer than
    [limit]. *)
Definition listingsWithin {W} `{Host W} (limit : nat) : Prop :=
  forall (w : W) dir entries name k,
    readdir dir w = inr entries -> In (mkDirent name k) entries ->
    (String.length (Path.join [dir; name]) <= limit)%nat.

(** The names in the listings of the host are plain. *)
Definition plainListings {W} `{Host W} : Prop :=
  forall (w : W) dir entries name k,
    readdir dir w = inr entries -> In (mkDirent name k) entries -> plain name = true.

(** A normalized absolute path below the root, as [path.resolve] gives
    them. *)
Definition plainPath (p : string) : Prop :=
  exists segs, segs <> [] /\ List.Forall (fun seg => plain seg = true) segs /\ p = render segs.

(** A numbering of the strings; those of at most [limit] code units have
    a number below [257 ^ limit]. *)
Fixpoint numberOf (p : string) : nat :=
  match p with
  | EmptyString => 0
  | String c rest => 1 + nat_of_ascii c + 256 * numberOf rest
  end.

(** How a run of the loop ends when it is not out of passes: it returns
    its counts, or fails on a directory listing, or is cut short inside
    a directory walk by the bound of that walk. *)
Definition loopEnds {W A} `{Host W} (r : outcome W A) : Prop :=
  match r with
  | Ok _ _ => True
  | Throw e s' => exists dir, readdir dir (world s') = inl e
  | Exit _ _ => False
  | OutOfFuel l _ => l <> InNestedZips
  end.

(** The loop returns: its counts, or the error of a directory
    listing. *)
Definition loopReturns {W A} `{Host W} (r : outcome W A) : Prop :=
  match r with
  | Ok _ _ => True
  | Throw e s' => exists dir, readdir dir (world s') = inl e
  | Exit _ _ => False
  | OutOfFuel _ _ => False
  end.

(** ** The calls the script makes *)

Fixpoint sameEnv (a b : list (string * string)) : bool :=
  match a, b with
  | [], [] => true
  | (k, v) :: a', (k', v') :: b' => String.eqb k k' && String.eqb v v' && sameEnv a' b'
  | _, _ => false
  end.

(** The shapes of the calls in the script: removal with [force],
    recursive [mkdir], [chmod] to [0o755], [unzip -o zip -d dir] in the C
    locale and [ditto -x -k zip dir]. *)
Definition scriptCall (c : syscall) : bool :=
  match c with
  | Rm _ _ force => force
  | Mkdir _ recursive => recursive
  | Chmod _ mode => mode =? 493
  | ExecFile file [a; b; c; _] env =>
      (String.eqb file "unzip" && String.eqb a "-o" && String.eqb c "-d"
       && sameEnv env cLocale)
      || (String.eqb file "ditto" && String.eqb a "-x" && String.eqb b "-k"
          && sameEnv env [])
  | ExecFile _ _ _ => false
  end.

Definition scriptEvent (e : event) : bool :=
  match e with Did c _ => scriptCall c | _ => true end.

(** What the cleanup may remove: a metadata file, or a [__MACOSX]
    directory with what it holds. *)
Definition cleanupEvent (e : event) : bool :=
  match e with
  | Did (Rm p false true) _ => isMacMetadataFile p
  | Did (Rm p true true) _ => isMacosxDir p
  | Did _ _ => false
  | Enter _ _ => false
  | _ => true
  end.

(** The external tools a run started, in order, each with its archive,
    its directory and whether it succeeded. *)
Definition toolRuns (tr : list event) : list (string * string * string * bool) :=
  omap (fun e => match e with
                 | Did (ExecFile file [a; b; c; d] _) err =>
                     let ok := match err with None => true | Some _ => false end in
                     if String.eqb file "unzip" then Some (file, b, d, ok)
                     else if String.eqb file "ditto" then Some (file, c, d, ok)
                     else None
                 | _ => None
                 end) tr.

(** The modification time of [p], when it can be read. *)
Definition mtimeOf {W} `{Host W} (s : state W) (p : string) : option Z :=
  match stat p (world s) with
  | inr info => Some (mtimeMs info)
  | inl _ => None
  end.


(** ** Directory walks *)

(** [dir] is [root] or lies below it through entries that are
    directories. *)
Inductive reachedFrom {W} `{Host W} (w : W) : string -> string -> Prop :=
| reached_here root : reachedFrom w root root
| reached_below root entries name dir :
    readdir root w = inr entries ->
    In (mkDirent name KDir) entries ->
    reachedFrom w (Path.join [root; name]) dir ->
    reachedFrom w root dir.

(** [p] is an entry of kind [k] of a directory reached from [root]. *)
Definition entryBelow {W} `{Host W} (w : W) (k : kind) (root p : string) : Prop :=
  exists dir entries name,
    reachedFrom w root dir /\ readdir dir w = inr entries /\
    In (mkDirent name k) entries /\ p = Path.join [dir; name].

(** The calls of a trace that succeeded. *)
Definition succeeded (tr : list event) : nat :=
  length (List.filter (fun e => match e with Did _ None => true | _ => false end) tr).

(** Whether [p] names a directory. *)
Definition isDirAt {W} `{Host W} (p : string) (s : state W) : bool :=
  match stat p (world s) with
  | inr info => isDirectory (st_kind info)
  | inl _ => false
  end.

(** ** Markup *)

(** The entity that stands for a character, or the character itself. *)
Definition entityOf (c : ascii) : list ascii :=
  if Ascii.eqb c Detect.amp then Js.chars "&amp;"
  else if Ascii.eqb c Detect.lt then Js.chars "&lt;"
  else if Ascii.eqb c Detect.gt then Js.chars "&gt;"
  else if Ascii.eqb c Detect.quot then Js.chars "&quot;"
  else [c].

(** ** Scenarios on the simulated host *)

Module Scenario.
Import Sim.

(** [data.zip] holds two good nested archives, a corrupt one, and the
    metadata a Mac leaves behind. *)
Definition archiveTable : list (nat * list member) :=
  [ (1%nat, [mkMember "a.zip" KFile 2; mkMember "b.zip" KFile 3;
             mkMember "bad.zip" KFile 9; mkMember "readme.txt" KFile 0;
             mkMember ".DS_Store" KFile 0]);
    (2%nat, [mkMember "x.txt" KFile 0]);
    (3%nat, [mkMember "y.txt" KFile 0; mkMember "__MACOSX" KDir 0;
             mkMember "__MACOSX/._y.txt" KFile 0]) ].

Definition uploadNodes : list node :=
  [ mkNode "/work" KDir 0 1; mkNode "/work/upload" KDir 0 1;
    mkNode "/work/upload/data.zip" KFile 1 100;
    mkNode "/work/upload/a.zip" KFile 2 10;
    mkNode "/work/upload/A.ZIP" KFile 2 20;
    mkNode "/work/notes.txt" KFile 0 5 ].

Definition uploads : state Sim.t :=
  start (mkSim uploadNodes archiveTable [] [] 1700000000000).

Definition uploadFiles : list string :=
  ["/work/upload/data.zip"; "/work/upload/a.zip"; "/work/upload/A.ZIP"].



(** [data.zip] unpacked into [/work/upload/data_extracted], as [main]
    leaves it before the nested loop. *)
Definition unpackedDir : string := "/work/upload/data_extracted".

Definition unpacked : state Sim.t :=
  final (unzipToDir "/work/upload/data.zip" unpackedDir uploads).

Definition nestedZips : list string :=
  [ "/work/upload/data_extracted/a.zip"; "/work/upload/data_extracted/b.zip";
    "/work/upload/data_extracted/bad.zip" ].

(** The [.DS_Store] that [data.zip] unpacks cannot be removed. *)
Definition stuck : state Sim.t :=
  start (mkSim uploadNodes archiveTable
               ["/work/upload/data_extracted/.DS_Store"] [] 1700000000000).

(** The working directory refuses new entries. *)
Definition sealed : state Sim.t :=
  start (mkSim uploadNodes archiveTable [] ["/work"] 1700000000000).

(** The output directory of an earlier run holds a file that cannot be
    removed. *)
Definition leftover : state Sim.t :=
  start (mkSim (uploadNodes ++ [ mkNode "/work/out" KDir 0 2;
                                 mkNode "/work/out/keep.txt" KFile 0 2 ])
               archiveTable ["/work/out/keep.txt"] [] 1700000000000).


End Scenario.

(** ** Further scenarios *)

Module Cases.
Import Sim.

(** A tree with a link beside a directory and a file; the directory
    [/t/a] cannot change its mode. *)
Definition linked : state Sim.t :=
  start (mkSim [ mkNode "/t" KDir 0 1; mkNode "/t/a" KDir 0 1;
                 mkNode "/t/a/f.txt" KFile 0 1; mkNode "/t/l" KOther 0 1;
                 mkNode "/t/g.zip" KFile 0 1 ]
               [] [] ["/t/a"] 1700000000000).

(** The tree of [Scenario.unpacked] after the nested loop. *)
Definition extracted : state Sim.t :=
  final (extractNestedZips 8 8 Scenario.unpackedDir Scenario.unpacked).

(** An upload folder whose two newest archives are of the same age. *)
Definition tied : state Sim.t :=
  start (mkSim [ mkNode "/work" KDir 0 1; mkNode "/work/upload" KDir 0 1;
                 mkNode "/work/upload/old.zip" KFile 2 5;
                 mkNode "/work/upload/b.zip" KFile 2 50;
                 mkNode "/work/upload/a.zip" KFile 2 50 ]
               Scenario.archiveTable [] [] 1700000000000).

End Cases.

(** * Properties *)

(** ** Sorting by a key, largest first *)

Section SortByKey.
Context {A : Type} (key : A -> Z).

Lemma insert_sorted_perm x l : Permutation (Js.insert_sorted (keyDesc key) x l) (x :: l).
Proof.
  induction l as [|y l IH]; simpl; [reflexivity|].
  destruct (0 <? keyDesc key x y); [|reflexivity].
  rewrite IH. apply perm_swap.
Qed.

Lemma sort_perm l : Permutation (Js.sort (keyDesc key) l) l.
Proof.
  induction l as [|x l IH]; simpl; [reflexivity|].
  rewrite insert_sorted_perm. now constructor.
Qed.

Lemma insert_sorted_descending x l :
  descending key l -> descending key (Js.insert_sorted (keyDesc key) x l).
Proof.
  unfold descending, keyDesc.
  induction l as [|y l IH]; intros Hl; simpl.
  - repeat constructor.
  - inversion Hl as [|? ? Hl' Hy]; subst.
    destruct (0 <? key y - key x) eqn:E.
    + apply Z.ltb_lt in E. constructor; [auto|].
      apply List.Forall_forall. intros z Hz.
      apply (Permutation_in _ (insert_sorted_perm x l)) in Hz.
      destruct Hz as [<-|Hz]; [lia|].
      rewrite List.Forall_forall in Hy. auto.
    + apply Z.ltb_ge in E. constructor; [assumption|].
      constructor; [lia|].
      rewrite List.Forall_forall in Hy |- *. intros z Hz. specialize (Hy z Hz). lia.
Qed.

Lemma sort_descending l : descending key (Js.sort (keyDesc key) l).
Proof.
  induction l; simpl; [constructor | now apply insert_sorted_descending].
Qed.

(** The first element of the sorted list has the largest key. *)
Lemma sort_head_max l x r :
  Js.sort (keyDesc key) l = x :: r -> forall y, In y l -> key y <= key x.
Proof.
  intros E y Hy.
  pose proof (sort_descending l) as Hs. rewrite E in Hs.
  apply (Permutation_in _ (Permutation_sym (sort_perm l))) in Hy.
  rewrite E in Hy. inversion Hs as [|? ? _ Hall]; subst.
  destruct Hy as [<-|Hy]; [lia|].
  rewrite List.Forall_forall in Hall. auto.
Qed.





End SortByKey.


(** ** Runs and their traces *)

Lemma since_app {W} (s s' : state W) d : trace s' = trace s ++ d -> since s s' = d.
Proof.
  intros E. unfold since. rewrite E.
  rewrite skipn_app, skipn_all, Nat.sub_diag. reflexivity.
Qed.

Lemma entered_app a b : entered (a ++ b) = entered a ++ entered b.
Proof. apply omap_app. Qed.

Lemma scans_app a b : scans (a ++ b) = scans a ++ scans b.
Proof. apply omap_app. Qed.

Lemma mutations_app a b : mutations (a ++ b) = mutations a ++ mutations b.
Proof. apply omap_app. Qed.

Lemma toolSuccesses_app a b : toolSuccesses (a ++ b) = (toolSuccesses a + toolSuccesses b)%nat.
Proof. unfold toolSuccesses. now rewrite List.filter_app, length_app. Qed.

Lemma omap_class {B} (P : event -> bool) (f : event -> option B) d :
  forallb P d = true -> (forall e, P e = true -> f e = None) -> omap f d = [].
Proof.
  intros Hd Hf. induction d as [|e d IH]; simpl in *; [reflexivity|].
  apply andb_true_iff in Hd as [He Hd]. rewrite (Hf e He). auto.
Qed.

Lemma quiet_entered d : forallb quiet d = true -> entered d = [].
Proof. intros Hd. apply (omap_class quiet); [assumption|]. now intros []. Qed.

Lemma quiet_scans d : forallb quiet d = true -> scans d = [].
Proof. intros Hd. apply (omap_class quiet); [assumption|]. now intros []. Qed.

Lemma harmless_mutations d : forallb harmless d = true -> mutations d = [].
Proof. intros Hd. apply (omap_class harmless); [assumption|]. now intros []. Qed.

Lemma forallb_weaken (P Q : event -> bool) d :
  (forall e, P e = true -> Q e = true) -> forallb P d = true -> forallb Q d = true.
Proof.
  intros HPQ. rewrite !forallb_forall. auto.
Qed.

Lemma class_no_success (P : event -> bool) d :
  forallb P d = true -> (forall e, P e = true -> isToolSuccess e = false) ->
  toolSuccesses d = O.
Proof.
  intros Hd Hf. unfold toolSuccesses.
  induction d as [|e d IH]; simpl in *; [reflexivity|].
  apply andb_true_iff in Hd as [He Hd]. specialize (Hf e He).
  unfold isToolSuccess in Hf.
  destruct e as [| |[] []| |]; simpl in *; try discriminate; auto.
Qed.

Section Runs.
Context {W : Type} `{Host W}.

Lemma bind_ok {A B} (m : M W A) (k : A -> M W B) s a s1 :
  m s = Ok a s1 -> bind m k s = k a s1.
Proof. intros E. unfold bind. now rewrite E. Qed.

Lemma bind_inv_ok {A B} (m : M W A) (k : A -> M W B) s b s2 :
  bind m k s = Ok b s2 -> exists a s1, m s = Ok a s1 /\ k a s1 = Ok b s2.
Proof. unfold bind. destruct (m s); try discriminate. eauto. Qed.

Lemma emits_weaken {A} (P Q : event -> bool) (m : M W A) :
  (forall e, P e = true -> Q e = true) -> emits P m -> emits Q m.
Proof.
  intros HPQ Hm s. destruct (Hm s) as (d & E & Hd).
  exists d. split; [assumption|]. eapply forallb_weaken; eauto.
Qed.

Lemma emits_ret {A} P (a : A) : emits P (ret (W:=W) a).
Proof. intros s. exists []. simpl. now rewrite app_nil_r. Qed.

Lemma emits_throw {A} P e : emits P (throw (W:=W) (A:=A) e).
Proof. intros s. exists []. simpl. now rewrite app_nil_r. Qed.

Lemma emits_exit {A} P c : emits P (exit (W:=W) (A:=A) c).
Proof. intros s. exists []. simpl. now rewrite app_nil_r. Qed.

Lemma emits_outOfFuel {A} P l : emits P (outOfFuel (W:=W) (A:=A) l).
Proof. intros s. exists []. simpl. now rewrite app_nil_r. Qed.

Lemma emits_emit P e : P e = true -> emits P (emit (W:=W) e).
Proof. intros He s. exists [e]. simpl. now rewrite He. Qed.

Lemma emits_bind {A B} P (m : M W A) (k : A -> M W B) :
  emits P m -> (forall a, emits P (k a)) -> emits P (bind m k).
Proof.
  intros Hm Hk s. unfold bind.
  destruct (Hm s) as (d & E & Hd).
  destruct (m s) as [a s1|e s1|c s1|l s1]; simpl in E; try (exists d; now split).
  destruct (Hk a s1) as (d' & E' & Hd').
  exists (d ++ d'). rewrite E', E, app_assoc. split; [reflexivity|].
  rewrite forallb_app. now rewrite Hd, Hd'.
Qed.

Lemma emits_tryCatch {A} P (m : M W A) (h : string -> M W A) :
  emits P m -> (forall e, emits P (h e)) -> emits P (tryCatch m h).
Proof.
  intros Hm Hh s. unfold tryCatch.
  destruct (Hm s) as (d & E & Hd).
  destruct (m s) as [a s1|e s1|c s1|l s1]; simpl in E; try (exists d; now split).
  destruct (Hh e s1) as (d' & E' & Hd').
  exists (d ++ d'). rewrite E', E, app_assoc. split; [reflexivity|].
  rewrite forallb_app. now rewrite Hd, Hd'.
Qed.

Lemma emits_readdirM P dir : emits P (readdirM dir).
Proof.
  intros s. exists []. unfold readdirM.
  destruct (readdir dir (world s)); simpl; now rewrite app_nil_r.
Qed.

Lemma emits_statM P p : emits P (statM p).
Proof.
  intros s. exists []. unfold statM.
  destruct (stat p (world s)); simpl; now rewrite app_nil_r.
Qed.

Lemma emits_dateNow P : emits P dateNow.
Proof. intros s. exists []. simpl. now rewrite app_nil_r. Qed.

Lemma emits_sys P c : (forall err, P (Did c err) = true) -> emits P (sys c).
Proof.
  intros Hc s. unfold sys.
  destruct (perform c (world s)) as [err w'] eqn:E.
  exists [Did c err]. destruct err; simpl; now rewrite Hc.
Qed.

Lemma reads_ret {A} (a : A) : reads (ret (W:=W) a).
Proof. now intros s. Qed.

Lemma reads_throw {A} e : reads (throw (W:=W) (A:=A) e).
Proof. now intros s. Qed.

Lemma reads_exit {A} c : reads (exit (W:=W) (A:=A) c).
Proof. now intros s. Qed.

Lemma reads_outOfFuel {A} l : reads (outOfFuel (W:=W) (A:=A) l).
Proof. now intros s. Qed.

Lemma reads_emit e : reads (emit (W:=W) e).
Proof. now intros s. Qed.

Lemma reads_bind {A B} (m : M W A) (k : A -> M W B) :
  reads m -> (forall a, reads (k a)) -> reads (bind m k).
Proof.
  intros Hm Hk s. unfold bind. specialize (Hm s).
  destruct (m s) as [a s1|e s1|c s1|l s1]; simpl in Hm; try assumption.
  now rewrite Hk.
Qed.

Lemma reads_tryCatch {A} (m : M W A) (h : string -> M W A) :
  reads m -> (forall e, reads (h e)) -> reads (tryCatch m h).
Proof.
  intros Hm Hh s. unfold tryCatch. specialize (Hm s).
  destruct (m s) as [a s1|e s1|c s1|l s1]; simpl in Hm; try assumption.
  now rewrite Hh.
Qed.

Lemma reads_readdirM dir : reads (readdirM dir).
Proof. intros s. unfold readdirM. now destruct (readdir dir (world s)). Qed.

Lemma reads_statM p : reads (statM p).
Proof. intros s. unfold statM. now destruct (stat p (world s)). Qed.

Lemma stays_ret {A} (a : A) : stays (ret (W:=W) a).
Proof. now intros s c s'. Qed.

Lemma stays_throw {A} e : stays (throw (W:=W) (A:=A) e).
Proof. now intros s c s'. Qed.

Lemma stays_outOfFuel {A} l : stays (outOfFuel (W:=W) (A:=A) l).
Proof. now intros s c s'. Qed.

Lemma stays_emit e : stays (emit (W:=W) e).
Proof. now intros s c s'. Qed.

Lemma stays_bind {A B} (m : M W A) (k : A -> M W B) :
  stays m -> (forall a, stays (k a)) -> stays (bind m k).
Proof.
  intros Hm Hk s c s'. unfold bind. specialize (Hm s).
  destruct (m s) as [a s1|e s1|c1 s1|l s1]; try discriminate.
  - apply Hk.
  - now specialize (Hm c1 s1).
Qed.

Lemma stays_tryCatch {A} (m : M W A) (h : string -> M W A) :
  stays m -> (forall e, stays (h e)) -> stays (tryCatch m h).
Proof.
  intros Hm Hh s c s'. unfold tryCatch. specialize (Hm s).
  destruct (m s) as [a s1|e s1|c1 s1|l s1]; try discriminate.
  - apply Hh.
  - now specialize (Hm c1 s1).
Qed.

Lemma stays_readdirM dir : stays (readdirM dir).
Proof. intros s c s'. unfold readdirM. now destruct (readdir dir (world s)). Qed.

Lemma stays_statM p : stays (statM p).
Proof. intros s c s'. unfold statM. now destruct (stat p (world s)). Qed.

Lemma stays_dateNow : stays dateNow.
Proof. now intros s c s'. Qed.

Lemma stays_sys c : stays (sys c).
Proof.
  intros s code s'. unfold sys.
  destruct (perform c (world s)) as [[e|] w']; discriminate.
Qed.

End Runs.

(** The three properties follow the structure of a computation. *)
Create HintDb effects.

Ltac split_branch :=
  match goal with
  | |- emits _ (if ?b then _ else _) => destruct b eqn:?
  | |- reads (if ?b then _ else _) => destruct b eqn:?
  | |- stays (if ?b then _ else _) => destruct b eqn:?
  | |- emits _ (match ?x with _ => _ end) => destruct x eqn:?
  | |- reads (match ?x with _ => _ end) => destruct x eqn:?
  | |- stays (match ?x with _ => _ end) => destruct x eqn:?
  end.

Ltac effects_step :=
  match goal with
  | |- emits _ (bind _ _) => apply emits_bind
  | |- emits _ (tryCatch _ _) => apply emits_tryCatch
  | |- emits _ (ret _) => apply emits_ret
  | |- emits _ (throw _) => apply emits_throw
  | |- emits _ (exit _) => apply emits_exit
  | |- emits _ (outOfFuel _) => apply emits_outOfFuel
  | |- emits _ (readdirM _) => apply emits_readdirM
  | |- emits _ (statM _) => apply emits_statM
  | |- emits _ dateNow => apply emits_dateNow
  | |- emits _ (emit _) => apply emits_emit; reflexivity
  | |- emits _ (sys _) => apply emits_sys; intros; reflexivity
  | |- reads (bind _ _) => apply reads_bind
  | |- reads (tryCatch _ _) => apply reads_tryCatch
  | |- reads (ret _) => apply reads_ret
  | |- reads (throw _) => apply reads_throw
  | |- reads (exit _) => apply reads_exit
  | |- reads (outOfFuel _) => apply reads_outOfFuel
  | |- reads (emit _) => apply reads_emit
  | |- reads (readdirM _) => apply reads_readdirM
  | |- reads (statM _) => apply reads_statM
  | |- stays (bind _ _) => apply stays_bind
  | |- stays (tryCatch _ _) => apply stays_tryCatch
  | |- stays (ret _) => apply stays_ret
  | |- stays (throw _) => apply stays_throw
  | |- stays (outOfFuel _) => apply stays_outOfFuel
  | |- stays (emit _) => apply stays_emit
  | |- stays (readdirM _) => apply stays_readdirM
  | |- stays (statM _) => apply stays_statM
  | |- stays dateNow => apply stays_dateNow
  | |- stays (sys _) => apply stays_sys
  end.

Ltac effects :=
  repeat (intros; first [ solve [auto 2 with effects nocore]
                        | effects_step | split_branch ]).

Section ScriptEffects.
Context {W : Type} `{Host W}.

Lemma emits_listFilesLoop P fuel stack out : emits P (listFilesLoop fuel stack out).
Proof. revert stack out. induction fuel; intros; cbn [listFilesLoop]; effects. Qed.
#[local] Hint Resolve emits_listFilesLoop : effects.

Lemma reads_listFilesLoop fuel stack out : reads (listFilesLoop fuel stack out).
Proof. revert stack out. induction fuel; intros; cbn [listFilesLoop]; effects. Qed.
#[local] Hint Resolve reads_listFilesLoop : effects.

Lemma stays_listFilesLoop fuel stack out : stays (listFilesLoop fuel stack out).
Proof. revert stack out. induction fuel; intros; cbn [listFilesLoop]; effects. Qed.
#[local] Hint Resolve stays_listFilesLoop : effects.

Lemma emits_listDirsLoop P fuel stack out : emits P (listDirsLoop fuel stack out).
Proof. revert stack out. induction fuel; intros; cbn [listDirsLoop]; effects. Qed.
#[local] Hint Resolve emits_listDirsLoop : effects.

Lemma reads_listDirsLoop fuel stack out : reads (listDirsLoop fuel stack out).
Proof. revert stack out. induction fuel; intros; cbn [listDirsLoop]; effects. Qed.
#[local] Hint Resolve reads_listDirsLoop : effects.

Lemma stays_listDirsLoop fuel stack out : stays (listDirsLoop fuel stack out).
Proof. revert stack out. induction fuel; intros; cbn [listDirsLoop]; effects. Qed.
#[local] Hint Resolve stays_listDirsLoop : effects.

Lemma emits_listFilesRecursive P walk dir :
  (forall files, P (Scan dir files) = true) -> emits P (listFilesRecursive walk dir).
Proof.
  intros HP. unfold listFilesRecursive. effects. apply emits_emit, HP.
Qed.

Lemma reads_listFilesRecursive walk dir : reads (listFilesRecursive walk dir).
Proof. unfold listFilesRecursive. effects. Qed.
#[local] Hint Resolve reads_listFilesRecursive : effects.

Lemma stays_listFilesRecursive walk dir : stays (listFilesRecursive walk dir).
Proof. unfold listFilesRecursive. effects. Qed.
#[local] Hint Resolve stays_listFilesRecursive : effects.

Lemma emits_withMtimeOf P paths : emits P (withMtimeOf paths).
Proof. induction paths; cbn [withMtimeOf]; effects. Qed.
#[local] Hint Resolve emits_withMtimeOf : effects.

Lemma reads_withMtimeOf paths : reads (withMtimeOf paths).
Proof. induction paths; cbn [withMtimeOf]; effects. Qed.
#[local] Hint Resolve reads_withMtimeOf : effects.

Lemma stays_withMtimeOf paths : stays (withMtimeOf paths).
Proof. induction paths; cbn [withMtimeOf]; effects. Qed.
#[local] Hint Resolve stays_withMtimeOf : effects.

(** Resolution looks and logs; it changes nothing. *)
Lemma emits_resolveZipFromArgs walk zipArg :
  emits harmless (resolveZipFromArgs walk zipArg).
Proof.
  unfold resolveZipFromArgs, statOrNull, firstZipPath, consoleLog.
  effects; apply emits_listFilesRecursive; reflexivity.
Qed.

Lemma reads_resolveZipFromArgs walk zipArg : reads (resolveZipFromArgs walk zipArg).
Proof. unfold resolveZipFromArgs, statOrNull, firstZipPath, consoleLog. effects. Qed.

Lemma stays_resolveZipFromArgs walk zipArg : stays (resolveZipFromArgs walk zipArg).
Proof. unfold resolveZipFromArgs, statOrNull, firstZipPath, consoleLog. effects. Qed.

Lemma stays_unzipToDir zipPath dir : stays (unzipToDir zipPath dir).
Proof.
  unfold unzipToDir, prepareEmptyDir, buildFallbackDirPath, consoleLog. effects.
Qed.
#[local] Hint Resolve stays_unzipToDir : effects.

Lemma emits_chmodEach dirs n : emits isChmod (chmodEach dirs n).
Proof. revert n. induction dirs; intros; cbn [chmodEach]; effects. Qed.
#[local] Hint Resolve emits_chmodEach : effects.

Lemma stays_chmodEach dirs n : stays (chmodEach dirs n).
Proof. revert n. induction dirs; intros; cbn [chmodEach]; effects. Qed.
#[local] Hint Resolve stays_chmodEach : effects.

Lemma emits_makeDirectoriesWritable walk root :
  emits isChmod (makeDirectoriesWritable walk root).
Proof. unfold makeDirectoriesWritable, listDirsRecursive. effects. Qed.

Lemma stays_makeDirectoriesWritable walk root :
  stays (makeDirectoriesWritable walk root).
Proof. unfold makeDirectoriesWritable, listDirsRecursive. effects. Qed.
#[local] Hint Resolve stays_makeDirectoriesWritable : effects.

Lemma stays_removeMetadataFiles files n : stays (removeMetadataFiles files n).
Proof. revert n. induction files; intros; cbn [removeMetadataFiles]; effects. Qed.
#[local] Hint Resolve stays_removeMetadataFiles : effects.

Lemma stays_removeMacosxDirs dirs n : stays (removeMacosxDirs dirs n).
Proof. revert n. induction dirs; intros; cbn [removeMacosxDirs]; effects. Qed.
#[local] Hint Resolve stays_removeMacosxDirs : effects.

Lemma stays_cleanupMacArtifacts walk root : stays (cleanupMacArtifacts walk root).
Proof. unfold cleanupMacArtifacts, listDirsRecursive. effects. Qed.
#[local] Hint Resolve stays_cleanupMacArtifacts : effects.

Lemma stays_extractPending pending st : stays (extractPending pending st).
Proof.
  revert st. induction pending; intros; cbn [extractPending]; unfold consoleLog; effects.
Qed.
#[local] Hint Resolve stays_extractPending : effects.

Lemma stays_nestedLoop walk fuel root st : stays (nestedLoop walk fuel root st).
Proof. revert st. induction fuel; intros; cbn [nestedLoop]; effects. Qed.
#[local] Hint Resolve stays_nestedLoop : effects.

Lemma stays_extractNestedZips walk fuel root : stays (extractNestedZips walk fuel root).
Proof. unfold extractNestedZips. effects. Qed.

End ScriptEffects.

#[global] Hint Resolve
  emits_listFilesLoop reads_listFilesLoop stays_listFilesLoop
  emits_listDirsLoop reads_listDirsLoop stays_listDirsLoop
  reads_listFilesRecursive stays_listFilesRecursive
  emits_withMtimeOf reads_withMtimeOf stays_withMtimeOf
  stays_unzipToDir emits_chmodEach stays_chmodEach
  stays_makeDirectoriesWritable stays_removeMetadataFiles stays_removeMacosxDirs
  stays_cleanupMacArtifacts stays_extractPending stays_nestedLoop
  stays_extractNestedZips : effects.

(** ** Resolving the archive *)

Section Resolution.
Context {W : Type} `{Host W}.

Lemma bind_inv_exit {A B} (m : M W A) (k : A -> M W B) s code s' :
  bind m k s = Exit code s' ->
  m s = Exit code s' \/ exists a s1, m s = Ok a s1 /\ k a s1 = Exit code s'.
Proof.
  unfold bind. destruct (m s) as [a s1|e s1|c s1|l s1]; try discriminate.
  - intros E. right. exists a, s1. split; [reflexivity | exact E].
  - intros [= -> ->]. now left.
Qed.

(** A directory walk leaves the state as it found it. *)
Lemma listFilesLoop_state fuel stack out s :
  final (listFilesLoop fuel stack out s) = s.
Proof.
  revert stack out. induction fuel as [|fuel IH]; intros stack out; [reflexivity|].
  cbn [listFilesLoop]. destruct (pop stack) as [[stack' current]|]; [|reflexivity].
  unfold bind, readdirM. destruct (readdir current (world s)); [reflexivity|].
  destruct (filesOfEntries current l stack' out). apply IH.
Qed.

Lemma listDirsLoop_state fuel stack out s :
  final (listDirsLoop fuel stack out s) = s.
Proof.
  revert stack out. induction fuel as [|fuel IH]; intros stack out; [reflexivity|].
  cbn [listDirsLoop]. destruct (pop stack) as [[stack' current]|]; [|reflexivity].
  unfold bind, readdirM. destruct (readdir current (world s)); [reflexivity|].
  destruct (dirsOfEntries current l stack' out). apply IH.
Qed.

Lemma listFilesLoop_fuel fuel stack out s l s' :
  listFilesLoop fuel stack out s = OutOfFuel l s' -> l = InListFiles.
Proof.
  revert stack out. induction fuel as [|fuel IH]; intros stack out; cbn [listFilesLoop].
  - unfold outOfFuel. congruence.
  - destruct (pop stack) as [[stack' current]|]; [|discriminate].
    unfold bind, readdirM. destruct (readdir current (world s)); [discriminate|].
    destruct (filesOfEntries current l0 stack' out). apply IH.
Qed.

Lemma listDirsLoop_fuel fuel stack out s l s' :
  listDirsLoop fuel stack out s = OutOfFuel l s' -> l = InListDirs.
Proof.
  revert stack out. induction fuel as [|fuel IH]; intros stack out; cbn [listDirsLoop].
  - unfold outOfFuel. congruence.
  - destruct (pop stack) as [[stack' current]|]; [|discriminate].
    unfold bind, readdirM. destruct (readdir current (world s)); [discriminate|].
    destruct (dirsOfEntries current l0 stack' out). apply IH.
Qed.

(** [listFilesRecursive] is the walk followed by the probe. *)
Lemma listFilesRecursive_eq walk dir s :
  listFilesRecursive walk dir s
  = match listFilesLoop walk [dir] [] s with
    | Ok files _ => Ok files (mkState (world s) (trace s ++ [Scan dir files]))
    | Throw e _ => Throw e s
    | Exit c _ => Exit c s
    | OutOfFuel l _ => OutOfFuel l s
    end.
Proof.
  unfold listFilesRecursive, bind.
  pose proof (listFilesLoop_state walk [dir] [] s) as Hs.
  destruct (listFilesLoop walk [dir] [] s); simpl in Hs; subst; reflexivity.
Qed.

(** What [listFilesRecursive] returns and leaves behind. *)
Lemma listFilesRecursive_run walk dir s :
  match listFilesRecursive walk dir s with
  | Ok files s' =>
      listFilesLoop walk [dir] [] s = Ok files s /\
      s' = mkState (world s) (trace s ++ [Scan dir files])
  | Throw e s' => listFilesLoop walk [dir] [] s = Throw e s /\ s' = s
  | OutOfFuel l s' => l = InListFiles /\ s' = s
  | Exit _ _ => False
  end.
Proof.
  unfold listFilesRecursive, bind.
  pose proof (listFilesLoop_state walk [dir] [] s) as Hs.
  pose proof (stays_listFilesLoop walk [dir] [] s) as Hx.
  destruct (listFilesLoop walk [dir] [] s) as [files s1|e s1|c s1|l s1] eqn:E;
    simpl in Hs; subst s1; simpl.
  - auto.
  - auto.
  - now specialize (Hx c s).
  - split; [|reflexivity]. eapply listFilesLoop_fuel; eauto.
Qed.

(** The modification times are read off the current world, in order. *)
Lemma withMtimeOf_ok paths s refs s' :
  withMtimeOf paths s = Ok refs s' ->
  s' = s /\
  Forall2 (fun p r => zipPath r = p /\
                      exists info, stat p (world s) = inr info /\
                                   zipMtimeMs r = mtimeMs info) paths refs.
Proof.
  revert refs. induction paths as [|p paths IH]; intros refs; cbn [withMtimeOf].
  - unfold ret. intros [= <- <-]. split; [reflexivity | constructor].
  - unfold bind at 1. unfold statM at 1.
    destruct (stat p (world s)) as [e|info] eqn:Es; [discriminate|].
    unfold bind at 1.
    destruct (withMtimeOf paths s) as [others s1| | |] eqn:Eo; try discriminate.
    unfold ret. intros [= <- <-].
    destruct (IH others eq_refl) as [-> HF].
    split; [reflexivity|]. constructor; [|assumption].
    simpl. split; [reflexivity|]. eauto.
Qed.

Lemma newest_first paths s refs p s1 :
  withMtimeOf paths s = Ok refs s ->
  firstZipPath (Js.sort byMtimeDesc refs) s = Ok (W:=W) p s1 ->
  s1 = s /\ newestAmong s paths p.
Proof.
  intros Hw Hf. apply withMtimeOf_ok in Hw as [_ HF].
  change byMtimeDesc with (keyDesc zipMtimeMs) in Hf.
  destruct (Js.sort (keyDesc zipMtimeMs) refs) as [|first rest] eqn:Es;
    [discriminate|].
  simpl in Hf. unfold ret in Hf. injection Hf as <- <-.
  split; [reflexivity|].
  assert (Hin : In first refs).
  { eapply Permutation_in; [apply (sort_perm zipMtimeMs)|]. rewrite Es. now left. }
  assert (Hpaths : forall r, In r refs ->
            In (zipPath r) paths /\
            exists info, stat (zipPath r) (world s) = inr info /\
                         zipMtimeMs r = mtimeMs info).
  { clear -HF. induction HF as [|p r ps rs (Hp & info & Hs & Hm) _ IH]; intros r' [].
    - subst. split; [now left | eauto].
    - destruct (IH r' H0) as [? ?]. split; [now right | assumption]. }
  assert (Hrefs : forall z, In z paths ->
            exists r, In r refs /\ zipPath r = z).
  { clear -HF. induction HF as [|p r ps rs (Hp & _) _ IH]; intros z [].
    - subst. exists r. split; [now left | reflexivity].
    - destruct (IH z H0) as (r' & ? & ?). exists r'. split; [now right | assumption]. }
  destruct (Hpaths first Hin) as (Hfirst & best & Hbest & Hkey).
  split; [assumption|]. exists best. split; [assumption|].
  intros z Hz. destruct (Hrefs z Hz) as (r & Hr & <-).
  destruct (Hpaths r Hr) as (_ & info & Hinfo & Hm).
  exists info. split; [assumption|].
  rewrite <- Hm, <- Hkey. eapply sort_head_max; eauto.
Qed.

(** With no argument the newest real zip of the upload folder is picked. *)
Lemma resolve_none_ok walk s p s' :
  resolveZipFromArgs walk None s = Ok p s' ->
  exists files,
    listFilesLoop walk [UPLOAD_DIR] [] s = Ok files s /\
    s' = mkState (world s) (trace s ++ [Scan UPLOAD_DIR files]) /\
    newestAmong s (List.filter isRealZipPath files) p.
Proof.
  unfold resolveZipFromArgs. cbn [from_option String.length Nat.eqb negb].
  unfold bind at 1.
  destruct (statOrNull UPLOAD_DIR s) as [info s0| | |] eqn:Est; try discriminate.
  assert (s0 = s) as ->.
  { revert Est. unfold statOrNull, tryCatch, bind, statM, ret.
    destruct (stat UPLOAD_DIR (world s)); now intros [= _ <-]. }
  destruct (negb _); [discriminate|].
  unfold bind at 1.
  pose proof (listFilesRecursive_run walk UPLOAD_DIR s) as Hrun.
  destruct (listFilesRecursive walk UPLOAD_DIR s) as [files s1| | |]; try discriminate.
  destruct Hrun as [Hloop ->].
  destruct (length (List.filter isRealZipPath files) =? 0)%nat; [discriminate|].
  unfold bind at 1.
  set (s1 := mkState (world s) (trace s ++ [Scan UPLOAD_DIR files])).
  destruct (withMtimeOf (List.filter isRealZipPath files) s1) as [refs s2| | |] eqn:Ew;
    try discriminate.
  destruct (withMtimeOf_ok _ _ _ _ Ew) as [-> _].
  intros Hf. destruct (newest_first _ _ _ _ _ Ew Hf) as [-> Hn].
  exists files. repeat split; auto; apply Hn.
Qed.

End Resolution.

Section ResolutionClaims.
Context {W : Type} `{Host W}.

Lemma drop_white_blank l : forallb Js.is_white l = true -> Js.drop_white l = [].
Proof.
  induction l as [|c l IH]; simpl; [reflexivity|].
  intros Hl. apply andb_true_iff in Hl as [-> Hl]. auto.
Qed.

Lemma trim_blank arg : forallb Js.is_white (Js.chars arg) = true -> Js.trim arg = "".
Proof. intros Hl. unfold Js.trim. now rewrite (drop_white_blank _ Hl). Qed.

(** C9: an argument made of white space only (or empty) is trimmed to
    the empty string and resolved exactly as no argument is: the newest
    real zip of the upload folder is picked. *)
Theorem blank_argument_is_no_argument (walk : nat) (arg : string) (s : state W) :
  forallb Js.is_white (Js.chars arg) = true ->
  resolveZipFromArgs walk (Some arg) s = resolveZipFromArgs walk None s /\
  forall p s', resolveZipFromArgs walk (Some arg) s = Ok p s' ->
    exists files,
      listFilesLoop walk [UPLOAD_DIR] [] s = Ok files s /\
      newestAmong s (List.filter isRealZipPath files) p.
Proof.
  intros Hblank.
  assert (E : resolveZipFromArgs walk (Some arg) s = resolveZipFromArgs walk None s).
  { unfold resolveZipFromArgs. cbn [from_option]. now rewrite trim_blank. }
  split; [exact E|].
  intros p s' Hp. rewrite E in Hp.
  destruct (resolve_none_ok _ _ _ _ Hp) as (files & ? & _ & ?). eauto.
Qed.

(** C10: with no zip argument every resolved path has the extension
    [.zip], whatever its case, so [main] never takes its usage-error
    exit. *)
Theorem no_argument_resolves_to_zip (walk fuel : nat) (argv : list string) (s : state W) :
  nth_error argv 2 = None ->
  (forall p s', resolveZipFromArgs walk None s = Ok p s' -> isZipExt p = true) /\
  (forall code s', main walk fuel argv s <> Exit code s').
Proof.
  intros Hargv.
  assert (Hzip : forall p s', resolveZipFromArgs walk None s = Ok p s' ->
                              isZipExt p = true).
  { intros p s' Hp.
    destruct (resolve_none_ok _ _ _ _ Hp) as (files & _ & _ & Hin & _).
    apply filter_In in Hin as [_ Hreal]. unfold isRealZipPath in Hreal.
    destruct (isZipExt p); [reflexivity | discriminate]. }
  split; [exact Hzip|].
  intros code s' E. unfold main in E. rewrite Hargv in E.
  apply bind_inv_exit in E as [E|(p & s1 & Hp & E)].
  - now apply stays_resolveZipFromArgs in E.
  - rewrite (Hzip _ _ Hp) in E. cbn [negb] in E.
    revert E. unfold consoleLog, extractNestedZips, listDirsRecursive.
    match goal with |- ?m s1 = _ -> _ => assert (Hst : stays m) by effects end.
    apply Hst.
Qed.

(** C8: when the argument resolves to a path whose extension is not
    [.zip], the process prints the usage error and exits with code 1;
    up to then nothing was removed, created or run, and the world is as
    it was. *)
Theorem non_zip_argument_exits_before_any_change
    (walk fuel : nat) (argv : list string) (s : state W) (p : string) (s1 : state W) :
  resolveZipFromArgs walk (nth_error argv 2) s = Ok p s1 ->
  isZipExt p = false ->
  exists s2,
    program walk fuel argv s = Exit 1 s2 /\
    exitCode (program walk fuel argv s) = Some 1 /\
    world s2 = world s /\
    mutations (since s s2) = [] /\
    entered (since s s2) = [].
Proof.
  intros Hp Hext.
  set (line := "[zip:extract] input is not a .zip file: " +:+ p).
  exists (mkState (world s1) (trace s1 ++ [LogError line None])).
  assert (E : program walk fuel argv s
              = Exit 1 (mkState (world s1) (trace s1 ++ [LogError line None]))).
  { unfold program, tryCatch, main. rewrite (bind_ok _ _ _ _ _ Hp), Hext.
    reflexivity. }
  rewrite E. split; [reflexivity|]. split; [reflexivity|].
  pose proof (reads_resolveZipFromArgs walk (nth_error argv 2) s) as Hw.
  destruct (emits_resolveZipFromArgs walk (nth_error argv 2) s) as (d & Hd & Hclass).
  rewrite Hp in Hw, Hd. simpl in Hw, Hd.
  split; [exact Hw|].
  assert (Hsince : since s (mkState (world s1) (trace s1 ++ [LogError line None]))
                   = d ++ [LogError line None]).
  { apply since_app. simpl. now rewrite Hd, app_assoc. }
  rewrite Hsince, mutations_app, entered_app.
  rewrite (harmless_mutations d Hclass).
  assert (entered d = []) as ->.
  { apply (omap_class harmless); [assumption|]. now intros []. }
  split; reflexivity.
Qed.

End ResolutionClaims.

Lemma blank_argument_witness :
  forallb Js.is_white (Js.chars "  ") = true /\
  resolveZipFromArgs 4 (Some "  ") Scenario.uploads
    = resolveZipFromArgs 4 None Scenario.uploads /\
  exists s', resolveZipFromArgs 4 None Scenario.uploads = Ok "/work/upload/data.zip" s'.
Proof.
  split; [reflexivity|]. split.
  - exact (proj1 (blank_argument_is_no_argument 4 "  " Scenario.uploads eq_refl)).
  - eexists. vm_compute. reflexivity.
Defined.

Lemma no_argument_witness :
  nth_error ["node"; "extract-zip-and-count.mjs"] 2 = None /\
  (forall p s', resolveZipFromArgs 4 None Scenario.uploads = Ok p s' -> isZipExt p = true) /\
  exitCode (program 8 8 ["node"; "extract-zip-and-count.mjs"] Scenario.uploads) = Some 0.
Proof.
  split; [reflexivity|]. split.
  - exact (proj1 (no_argument_resolves_to_zip 4 8
                    ["node"; "extract-zip-and-count.mjs"] Scenario.uploads eq_refl)).
  - vm_compute. reflexivity.
Defined.

Lemma non_zip_argument_witness :
  resolveZipFromArgs 4 (Some "notes.txt") Scenario.uploads
    = Ok "/work/notes.txt" Scenario.uploads /\
  isZipExt "/work/notes.txt" = false /\
  exists s2,
    program 4 4 ["node"; "extract-zip-and-count.mjs"; "notes.txt"] Scenario.uploads
      = Exit 1 s2 /\
    exitCode (program 4 4 ["node"; "extract-zip-and-count.mjs"; "notes.txt"]
                Scenario.uploads) = Some 1 /\
    world s2 = world Scenario.uploads /\
    mutations (since Scenario.uploads s2) = [] /\
    entered (since Scenario.uploads s2) = [].
Proof.
  split; [vm_compute; reflexivity|]. split; [reflexivity|].
  apply (non_zip_argument_exits_before_any_change 4 4
           ["node"; "extract-zip-and-count.mjs"; "notes.txt"] Scenario.uploads
           "/work/notes.txt" Scenario.uploads).
  - vm_compute. reflexivity.
  - reflexivity.
Defined.

(** ** Matching the argument against the upload folder *)

Section Matching.
Context {W : Type} `{Host W}.

Lemma statOrNull_run p (s : state W) :
  statOrNull p s = Ok (match stat p (world s) with
                       | inr info => Some info
                       | inl _ => None
                       end) s.
Proof. unfold statOrNull, tryCatch, bind, statM, ret. now destruct (stat p (world s)). Qed.



Lemma join_empty sep l :
  (forall x, In x l -> x <> "") -> String.length (Js.join sep l) = 0%nat -> l = [].
Proof.
  destruct l as [|x l]; [reflexivity|]. intros Hne Hlen. exfalso.
  assert (Hx : x <> "") by (apply Hne; now left).
  destruct x as [|c x]; [congruence|].
  destruct l; cbn [Js.join] in Hlen; [discriminate|].
  unfold String.append in Hlen. discriminate.
Qed.

End Matching.

Section MatchingClaim.
Context {W : Type} `{Host W}.



End MatchingClaim.



(** ** The order in which metadata directories are deleted *)

Lemma length_append a b :
  String.length (a +:+ b) = (String.length a + String.length b)%nat.
Proof.
  induction a as [|c a IH]; [reflexivity|].
  change (String c a +:+ b) with (String c (a +:+ b)). simpl. now rewrite IH.
Qed.


Section DeletionOrder.
Context {W : Type} `{Host W}.

(** The second loop of the cleanup removes the [__MACOSX] directories
    of its list, in the order of the list. *)
Lemma removeMacosxDirs_ok dirs n (s : state W) n' s' :
  removeMacosxDirs dirs n s = Ok n' s' ->
  trace s' = trace s ++ List.map (fun d => Did (Rm d true true) None)
                          (List.filter isMacosxDir dirs) /\
  n' = (n + length (List.filter isMacosxDir dirs))%nat.
Proof.
  revert n s. induction dirs as [|d dirs IH]; intros n s; cbn [removeMacosxDirs].
  - unfold ret. intros [= <- <-]. simpl. rewrite app_nil_r. split; [reflexivity | lia].
  - cbn [List.filter]. destruct (isMacosxDir d); cbn [negb].
    + unfold bind at 1. unfold sys at 1.
      destruct (perform (Rm d true true) (world s)) as [[e|] w']; [discriminate|].
      intros E. apply IH in E as [-> ->]. simpl.
      rewrite <- app_assoc. split; [reflexivity | lia].
    + apply IH.
Qed.

Lemma removedTrees_removals dirs :
  removedTrees (List.map (fun d => Did (Rm d true true) None) dirs) = dirs.
Proof. induction dirs; simpl; [reflexivity | now f_equal]. Qed.


End DeletionOrder.



(** ** Preparing the output directory *)

Section Preparation.
Context {W : Type} `{Host W}.

Lemma sys_ok c w tr w' :
  perform c w = (None, w') ->
  sys c (mkState w tr) = Ok tt (mkState w' (tr ++ [Did c None])).
Proof. intros E. unfold sys. cbn [world trace]. now rewrite E. Qed.

Lemma sys_fail c w tr e w' :
  perform c w = (Some e, w') ->
  sys c (mkState w tr) = Throw e (mkState w' (tr ++ [Did c (Some e)])).
Proof. intros E. unfold sys. cbn [world trace]. now rewrite E. Qed.

Lemma prepare_fallback preferredDir (s : state W) err w1 evs w2 :
  prepFailure preferredDir (world s) err w1 evs ->
  perform (Mkdir (fallbackOf preferredDir (now w1)) true) w1 = (None, w2) ->
  prepareEmptyDir preferredDir s
  = Ok (fallbackOf preferredDir (now w1))
       (mkState w2 (trace s ++ evs
                    ++ fallbackEvents preferredDir (fallbackOf preferredDir (now w1)) err)).
Proof.
  destruct s as [w tr]. cbn [world trace].
  intros Hfail Hmk. unfold prepareEmptyDir, tryCatch, buildFallbackDirPath.
  unfold fallbackOf in Hmk.
  destruct Hfail as [err w1 Hrm | w0 err w1 Hrm Hmkdir].
  - unfold bind at 1. rewrite (sys_fail _ _ _ _ _ Hrm).
    unfold bind at 1. unfold bind at 1. unfold dateNow at 1. cbn [world trace].
    unfold ret at 1. unfold bind at 1. rewrite (sys_ok _ _ _ _ Hmk).
    unfold bind, consoleLog, emit, ret. cbn [world trace].
    unfold fallbackEvents, fallbackOf. now rewrite <- !app_assoc.
  - unfold bind at 1. rewrite (sys_ok _ _ _ _ Hrm).
    unfold bind at 1. rewrite (sys_fail _ _ _ _ _ Hmkdir).
    unfold bind at 1. unfold bind at 1. unfold dateNow at 1. cbn [world trace].
    unfold ret at 1. unfold bind at 1. rewrite (sys_ok _ _ _ _ Hmk).
    unfold bind, consoleLog, emit, ret. cbn [world trace].
    unfold fallbackEvents, fallbackOf. now rewrite <- !app_assoc.
Qed.

Lemma prepare_fallback_fails preferredDir (s : state W) err w1 evs mkdirErr w2 :
  prepFailure preferredDir (world s) err w1 evs ->
  perform (Mkdir (fallbackOf preferredDir (now w1)) true) w1 = (Some mkdirErr, w2) ->
  prepareEmptyDir preferredDir s
  = Throw mkdirErr
      (mkState w2 (trace s ++ evs
                   ++ [Did (Mkdir (fallbackOf preferredDir (now w1)) true) (Some mkdirErr)])).
Proof.
  destruct s as [w tr]. cbn [world trace].
  intros Hfail Hmk. unfold prepareEmptyDir, tryCatch, buildFallbackDirPath.
  unfold fallbackOf in Hmk.
  destruct Hfail as [err w1 Hrm | w0 err w1 Hrm Hmkdir].
  - unfold bind at 1. rewrite (sys_fail _ _ _ _ _ Hrm).
    unfold bind at 1. unfold bind at 1. unfold dateNow at 1. cbn [world trace].
    unfold ret at 1. unfold bind at 1. rewrite (sys_fail _ _ _ _ _ Hmk).
    unfold fallbackOf. now rewrite <- !app_assoc.
  - unfold bind at 1. rewrite (sys_ok _ _ _ _ Hrm).
    unfold bind at 1. rewrite (sys_fail _ _ _ _ _ Hmkdir).
    unfold bind at 1. unfold bind at 1. unfold dateNow at 1. cbn [world trace].
    unfold ret at 1. unfold bind at 1. rewrite (sys_fail _ _ _ _ _ Hmk).
    unfold fallbackOf. now rewrite <- !app_assoc.
Qed.

(** C3 (as amended): when clearing and recreating the preferred
    directory fails, the sibling [<preferredBase>_<timestamp>] is
    created instead.  When that succeeds, the fallback path and the
    reason are logged and the extraction runs on that directory: it
    returns the fallback directory, and it fails only when both tools
    have failed on it.  When the sibling cannot be created either,
    preparing the directory and the extraction call fail with the error
    of that [mkdir]: nothing is logged and no tool is run. *)
Theorem prepare_failure_falls_back
    (zipPath preferredDir : string) (s : state W) (err : string) (w1 : W)
    (evs : list event) :
  prepFailure preferredDir (world s) err w1 evs ->
  let fallbackDir := fallbackOf preferredDir (now w1) in
  match perform (Mkdir fallbackDir true) w1 with
  | (None, w2) =>
      prepareEmptyDir preferredDir s
        = Ok fallbackDir
             (mkState w2 (trace s ++ evs ++ fallbackEvents preferredDir fallbackDir err)) /\
      exists tools,
        since s (final (unzipToDir zipPath preferredDir s))
          = Enter zipPath preferredDir :: evs
            ++ fallbackEvents preferredDir fallbackDir err ++ tools /\
        match unzipToDir zipPath preferredDir s with
        | Ok outputDir _ =>
            outputDir = fallbackDir /\
            exists ran, In ran tools /\ isToolSuccess ran = true
        | Throw e _ =>
            exists unzipMsg dittoMsg,
              e = bothFailed unzipMsg dittoMsg /\
              In (Did (ExecFile "unzip" ["-o"; zipPath; "-d"; fallbackDir] cLocale)
                      (Some unzipMsg)) tools /\
              In (Did (ExecFile "ditto" ["-x"; "-k"; zipPath; fallbackDir] [])
                      (Some dittoMsg)) tools
        | _ => False
        end
  | (Some mkdirErr, w2) =>
      let failed := evs ++ [Did (Mkdir fallbackDir true) (Some mkdirErr)] in
      prepareEmptyDir preferredDir s = Throw mkdirErr (mkState w2 (trace s ++ failed)) /\
      unzipToDir zipPath preferredDir s
        = Throw mkdirErr (mkState w2 (trace s ++ Enter zipPath preferredDir :: failed))
  end.
Proof.
  intros Hfail fallbackDir.
  destruct (perform (Mkdir fallbackDir true) w1) as [[mkdirErr|] w2] eqn:Hmk.
  { cbv zeta. split; [exact (prepare_fallback_fails _ _ _ _ _ _ _ Hfail Hmk)|].
    pose proof (prepare_fallback_fails preferredDir
                  (mkState (world s) (trace s ++ [Enter zipPath preferredDir]))
                  err w1 evs mkdirErr w2 Hfail Hmk) as Hprep.
    fold fallbackDir in Hprep. cbn [world trace] in Hprep.
    cbv [unzipToDir bind emit]. rewrite Hprep. now rewrite <- app_assoc. }
  split; [now apply prepare_fallback|].
  pose proof (prepare_fallback preferredDir
                (mkState (world s) (trace s ++ [Enter zipPath preferredDir]))
                err w1 evs w2 Hfail Hmk) as Hprep.
  fold fallbackDir in Hprep. cbn [world trace] in Hprep.
  remember (unzipToDir zipPath preferredDir s) as r eqn:Er.
  cbv [unzipToDir bind emit] in Er. rewrite Hprep in Er.
  cbv [tryCatch sys bind consoleLog emit ret throw errorText] in Er.
  cbn [world trace] in Er.
  destruct (perform (ExecFile "unzip" ["-o"; zipPath; "-d"; fallbackDir] cLocale) w2)
    as [[unzipMsg|] w3]; cbn [world trace] in Er.
  - destruct (perform (ExecFile "ditto" ["-x"; "-k"; zipPath; fallbackDir] []) w3)
      as [[dittoMsg|] w4]; cbn [world trace] in Er; subst r; cbn [final trace].
    + eexists. split.
      * apply since_app. cbn [trace]. rewrite <- !app_assoc. reflexivity.
      * exists unzipMsg, dittoMsg. split; [reflexivity|].
        split; [now left | now right; right; right; left].
    + eexists. split.
      * apply since_app. cbn [trace]. rewrite <- !app_assoc. reflexivity.
      * split; [reflexivity|]. eexists. split; [right; right; right; now left|].
        reflexivity.
  - subst r. cbn [final trace]. eexists. split.
    + apply since_app. cbn [trace]. rewrite <- !app_assoc. reflexivity.
    + split; [reflexivity|]. eexists. split; [now left | reflexivity].
Qed.

End Preparation.

Lemma prepare_failure_witness :
  (exists err w2 tools,
    prepFailure "/work/out" (world Scenario.leftover) err (world Scenario.leftover)
      [Did (Rm "/work/out" true true) (Some err)] /\
    perform (Mkdir "/work/out_1700000000000" true) (world Scenario.leftover) = (None, w2) /\
    prepareEmptyDir "/work/out" Scenario.leftover
      = Ok "/work/out_1700000000000"
           (mkState w2
              ([Did (Rm "/work/out" true true) (Some err)]
               ++ fallbackEvents "/work/out" "/work/out_1700000000000" err)) /\
    since Scenario.leftover
          (final (unzipToDir "/work/upload/data.zip" "/work/out" Scenario.leftover))
      = Enter "/work/upload/data.zip" "/work/out"
        :: [Did (Rm "/work/out" true true) (Some err)]
        ++ fallbackEvents "/work/out" "/work/out_1700000000000" err ++ tools /\
    tools = [Did (ExecFile "unzip" ["-o"; "/work/upload/data.zip"; "-d";
                                    "/work/out_1700000000000"] cLocale) None]) /\
  (exists err mkdirErr,
    prepFailure "/work/out" (world Scenario.sealed) err (world Scenario.sealed)
      [Did (Rm "/work/out" true true) None; Did (Mkdir "/work/out" true) (Some err)] /\
    perform (Mkdir "/work/out_1700000000000" true) (world Scenario.sealed)
      = (Some mkdirErr, world Scenario.sealed) /\
    prepareEmptyDir "/work/out" Scenario.sealed
      = Throw mkdirErr
          (mkState (world Scenario.sealed)
             [Did (Rm "/work/out" true true) None;
              Did (Mkdir "/work/out" true) (Some err);
              Did (Mkdir "/work/out_1700000000000" true) (Some mkdirErr)])).
Proof.
  split.
  - assert (Hfail : prepFailure "/work/out" (world Scenario.leftover)
                      "EPERM: operation not permitted, rm '/work/out'"
                      (world Scenario.leftover)
                      [Did (Rm "/work/out" true true)
                           (Some "EPERM: operation not permitted, rm '/work/out'")]).
    { constructor. reflexivity. }
    assert (Hmk : perform (Mkdir (fallbackOf "/work/out" (now (world Scenario.leftover)))
                             true) (world Scenario.leftover)
                  = (None, snd (perform (Mkdir "/work/out_1700000000000" true)
                                  (world Scenario.leftover))))
      by (vm_compute; reflexivity).
    pose proof (prepare_failure_falls_back "/work/upload/data.zip" "/work/out"
                  Scenario.leftover _ _ _ Hfail) as T.
    cbv zeta in T. rewrite Hmk in T. destruct T as (Hprep & tools & Hsince & _).
    eexists _, _, tools. split; [exact Hfail|]. split; [reflexivity|].
    split; [exact Hprep|]. split; [exact Hsince|].
    revert Hsince. vm_compute. intros [= <-]. reflexivity.
  - assert (Hfail : prepFailure "/work/out" (world Scenario.sealed)
                      "EACCES: permission denied, mkdir '/work/out'"
                      (world Scenario.sealed)
                      [Did (Rm "/work/out" true true) None;
                       Did (Mkdir "/work/out" true)
                           (Some "EACCES: permission denied, mkdir '/work/out'")]).
    { eapply mkdirFails with (w0 := world Scenario.sealed); vm_compute; reflexivity. }
    assert (Hmk : perform (Mkdir (fallbackOf "/work/out" (now (world Scenario.sealed)))
                             true) (world Scenario.sealed)
                  = (Some "EACCES: permission denied, mkdir '/work/out_1700000000000'",
                     world Scenario.sealed))
      by (vm_compute; reflexivity).
    pose proof (prepare_failure_falls_back "/work/upload/data.zip" "/work/out"
                  Scenario.sealed _ _ _ Hfail) as T.
    cbv zeta in T. rewrite Hmk in T. destruct T as (Hprep & _).
    eexists _, _. split; [exact Hfail|]. split; [vm_compute; reflexivity|].
    exact Hprep.
Defined.

(** C3, as stated, fails: when the parent directory takes no new
    entries the fallback cannot be created either, the extraction call
    fails with that error before any tool is run, and the process exits
    with code 1. *)
Lemma fallback_failure_is_fatal :
  unzipToDir "/work/upload/data.zip" "/work/out" Scenario.sealed
    = Throw "EACCES: permission denied, mkdir '/work/out_1700000000000'"
        (mkState (world Scenario.sealed)
           [Enter "/work/upload/data.zip" "/work/out";
            Did (Rm "/work/out" true true) None;
            Did (Mkdir "/work/out" true)
                (Some "EACCES: permission denied, mkdir '/work/out'");
            Did (Mkdir "/work/out_1700000000000" true)
                (Some "EACCES: permission denied, mkdir '/work/out_1700000000000'")]) /\
  exitCode (program 8 8 ["node"; "extract-zip-and-count.mjs"; "data.zip"; "/work/out"]
              Scenario.sealed) = Some 1.
Proof. split; vm_compute; reflexivity. Qed.

(** ** The nested-extraction loop *)

Section Loop.
Context {W : Type} `{Host W}.

(** One extraction: the probe, then calls and console lines; it ends
    normally exactly when one tool has succeeded. *)
Lemma unzipToDir_run zipPath dir (s : state W) :
  exists ev,
    trace (final (unzipToDir zipPath dir s)) = trace s ++ Enter zipPath dir :: ev /\
    forallb quiet ev = true /\
    match unzipToDir zipPath dir s with
    | Ok _ _ => toolSuccesses ev = 1%nat
    | Throw _ _ => toolSuccesses ev = O
    | _ => False
    end.
Proof.
  destruct s as [w tr].
  remember (unzipToDir zipPath dir (mkState w tr)) as r eqn:Er.
  cbv [unzipToDir prepareEmptyDir buildFallbackDirPath bind tryCatch sys emit
       consoleLog ret throw dateNow errorText] in Er.
  cbn [world trace] in Er.
  repeat match type of Er with
         | context [perform ?c ?w0] =>
             destruct (perform c w0) as [[?|] ?]; cbn [world trace] in Er
         end;
    subst r; cbn [final trace]; eexists;
    (split; [rewrite <- !app_assoc; reflexivity | split; reflexivity]).
Qed.

Lemma chmodEach_run dirs n (s : state W) :
  exists n' s' ev,
    chmodEach dirs n s = Ok n' s' /\ trace s' = trace s ++ ev /\
    forallb isChmod ev = true.
Proof.
  revert n s. induction dirs as [|d dirs IH]; intros n s; cbn [chmodEach].
  - exists n, s, []. rewrite app_nil_r. repeat split.
  - unfold bind at 1. unfold tryCatch, bind at 1. unfold sys.
    destruct (perform (Chmod d 493) (world s)) as [[e|] w'].
    + destruct (IH n (mkState w' (trace s ++ [Did (Chmod d 493) (Some e)])))
        as (n' & s' & ev & E & Ht & Hc).
      exists n', s', (Did (Chmod d 493) (Some e) :: ev).
      unfold ret. rewrite E. cbn [trace] in Ht.
      rewrite Ht, <- app_assoc. repeat split. simpl. exact Hc.
    + destruct (IH (n + 1)%nat (mkState w' (trace s ++ [Did (Chmod d 493) None])))
        as (n' & s' & ev & E & Ht & Hc).
      exists n', s', (Did (Chmod d 493) None :: ev).
      unfold ret. cbn [world trace]. rewrite E. cbn [trace] in Ht.
      rewrite Ht, <- app_assoc. repeat split. simpl. exact Hc.
Qed.

Lemma listDirsLoop_throw fuel stack out (s : state W) e s' :
  listDirsLoop fuel stack out s = Throw e s' ->
  s' = s /\ exists dir, readdir dir (world s) = inl e.
Proof.
  revert stack out. induction fuel as [|fuel IH]; intros stack out; cbn [listDirsLoop].
  - discriminate.
  - destruct (pop stack) as [[stack' current]|]; [|discriminate].
    unfold bind, readdirM.
    destruct (readdir current (world s)) as [e'|entries] eqn:Er.
    + intros [= <- <-]. eauto.
    + destruct (dirsOfEntries current entries stack' out). apply IH.
Qed.

Lemma listFilesLoop_throw fuel stack out (s : state W) e s' :
  listFilesLoop fuel stack out s = Throw e s' ->
  s' = s /\ exists dir, readdir dir (world s) = inl e.
Proof.
  revert stack out. induction fuel as [|fuel IH]; intros stack out; cbn [listFilesLoop].
  - discriminate.
  - destruct (pop stack) as [[stack' current]|]; [|discriminate].
    unfold bind, readdirM.
    destruct (readdir current (world s)) as [e'|entries] eqn:Er.
    + intros [= <- <-]. eauto.
    + destruct (filesOfEntries current entries stack' out). apply IH.
Qed.

(** Making the directories writable never fails on a [chmod]; it ends
    early only when the walk does. *)
Lemma makeDirectoriesWritable_run walk root (s : state W) :
  exists ev,
    trace (final (makeDirectoriesWritable walk root s)) = trace s ++ ev /\
    forallb isChmod ev = true /\
    match makeDirectoriesWritable walk root s with
    | Ok _ _ => True
    | Throw e s' => exists dir, readdir dir (world s') = inl e
    | Exit _ _ => False
    | OutOfFuel l _ => l = InListDirs
    end.
Proof.
  unfold makeDirectoriesWritable, listDirsRecursive, bind.
  pose proof (listDirsLoop_state walk [root] [] s) as Hs.
  destruct (listDirsLoop walk [root] [] s) as [sub s1|e s1|c s1|l s1] eqn:E;
    simpl in Hs; subst s1.
  - destruct (chmodEach_run (root :: sub) 0 s) as (n' & s' & ev & -> & Ht & Hc).
    exists ev. auto.
  - exists []. simpl. rewrite app_nil_r. repeat split.
    now apply listDirsLoop_throw in E as [_ ?].
  - now apply stays_listDirsLoop in E.
  - exists []. simpl. rewrite app_nil_r. repeat split.
    now apply listDirsLoop_fuel in E.
Qed.

(** One pass over the pending zips: each is handed to [unzipToDir], in
    order, and counted on one side or the other; the pass always ends
    normally. *)
Lemma extractPending_run pending st (s : state W) :
  exists st' s' ev,
    extractPending pending st s = Ok st' s' /\
    trace s' = trace s ++ ev /\
    entered ev = pending /\ scans ev = [] /\
    processed st' = list_to_set pending ∪ processed st /\
    nestedZipCount st' = (nestedZipCount st + toolSuccesses ev)%nat /\
    (nestedZipCount st' + nestedZipFailures st'
     = nestedZipCount st + nestedZipFailures st + length pending)%nat.
Proof.
  revert st s. induction pending as [|z pending IH]; intros st s; cbn [extractPending].
  - exists st, s, []. rewrite app_nil_r. unfold toolSuccesses. simpl.
    repeat split; try lia. symmetry. apply (left_id_L ∅ (∪)).
  - set (dir := Path.join [Path.dirname z; Path.basename_ext z ".zip" +:+ "_extracted"]).
    destruct (unzipToDir_run z dir s) as (ev & Ht & Hq & Hr).
    unfold bind at 1. unfold tryCatch at 1. unfold bind at 1.
    destruct (unzipToDir z dir s) as [out s1|e s1| |] eqn:Eu; try contradiction;
      cbn [final] in Ht.
    + unfold bind, consoleLog, emit, ret. cbn [world trace].
      match goal with
      | |- context [extractPending pending ?st1 ?s2] =>
          destruct (IH st1 s2) as (st' & s' & ev' & -> & Ht' & He & Hs & Hp & Hc & Hl)
      end.
      cbn [processed nestedZipCount nestedZipFailures trace] in *.
      exists st', s', (Enter z dir :: ev ++ [Log ("[zip:extract] nested zip extracted: "
                                                  +:+ z +:+ " -> " +:+ out)] ++ ev').
      split; [reflexivity|]. split.
      { rewrite Ht', Ht, <- !app_assoc. reflexivity. }
      split.
      { change (entered (Enter z dir :: ?l)) with (z :: entered l).
        rewrite !entered_app, (quiet_entered ev Hq), He. reflexivity. }
      split.
      { change (scans (Enter z dir :: ?l)) with (scans l).
        rewrite !scans_app, (quiet_scans ev Hq), Hs. reflexivity. }
      split; [rewrite Hp; set_solver|].
      change (toolSuccesses (Enter z dir :: ?l)) with (toolSuccesses l).
      rewrite !toolSuccesses_app.
      change (toolSuccesses [Log _]) with O.
      cbn [length]. lia.
    + unfold bind, consoleLog, emit, ret. cbn [world trace].
      match goal with
      | |- context [extractPending pending ?st1 ?s2] =>
          destruct (IH st1 s2) as (st' & s' & ev' & -> & Ht' & He & Hs & Hp & Hc & Hl)
      end.
      cbn [processed nestedZipCount nestedZipFailures trace] in *.
      exists st', s',
        (Enter z dir :: ev
         ++ [Log ("[zip:extract] nested zip skipped (failed to extract): " +:+ z);
             Log ("[zip:extract] reason: " +:+ e)] ++ ev').
      split; [reflexivity|]. split.
      { rewrite Ht', Ht, <- !app_assoc. reflexivity. }
      split.
      { change (entered (Enter z dir :: ?l)) with (z :: entered l).
        rewrite !entered_app, (quiet_entered ev Hq), He. reflexivity. }
      split.
      { change (scans (Enter z dir :: ?l)) with (scans l).
        rewrite !scans_app, (quiet_scans ev Hq), Hs. reflexivity. }
      split; [rewrite Hp; set_solver|].
      change (toolSuccesses (Enter z dir :: ?l)) with (toolSuccesses l).
      rewrite !toolSuccesses_app.
      change (toolSuccesses [Log _; Log _]) with O.
      cbn [length]. lia.
Qed.

End Loop.

Section LoopRuns.
Context {W : Type} `{Host W}.

Lemma pendingOf_fresh (seen : gset string) files z :
  In z (pendingOf seen files) -> (z ∉ seen) /\ In z files.
Proof.
  unfold pendingOf. intros Hz.
  apply filter_In in Hz as [Hz Hn]. apply filter_In in Hz as [Hz _].
  split; [|assumption].
  apply negb_true_iff, bool_decide_eq_false in Hn. exact Hn.
Qed.

(** Every run of the loop is a sequence of passes. *)
Lemma nestedLoop_passes walk fuel root st (s : state W) r :
  r = nestedLoop walk fuel root st s ->
  exists ev, loopRun root fuel st r ev /\ trace (final r) = trace s ++ ev.
Proof.
  revert st s r. induction fuel as [|fuel IH]; intros st s r Er; cbn [nestedLoop] in Er.
  - subst r. exists []. split; [constructor | simpl; now rewrite app_nil_r].
  - destruct (makeDirectoriesWritable_run walk root s) as (evw & Hw & Hcw & Hrw).
    assert (Hnw : entered evw = [] /\ toolSuccesses evw = O).
    { split.
      - apply (omap_class isChmod); [assumption|]. now intros [| |[]| |].
      - apply (class_no_success isChmod); [assumption|]. now intros [| |[]| |]. }
    unfold bind at 1 in Er.
    destruct (makeDirectoriesWritable walk root s) as [n s1|e s1|c s1|l s1];
      cbn [final] in Hw; try contradiction.
    2:{ subst r. exists evw. split; [|exact Hw].
        apply run_stop; try apply Hnw. exact Hrw. }
    2:{ subst r. exists evw. split; [|exact Hw].
        apply run_stop; try apply Hnw. simpl. now subst l. }
    unfold bind at 1 in Er. rewrite listFilesRecursive_eq in Er.
    destruct (listFilesLoop walk [root] [] s1) as [files s2|e s2|c s2|l s2] eqn:El.
    + destruct (pendingOf (processed st) files) as [|p pending] eqn:Ep.
      * cbn [length Nat.eqb] in Er. subst r.
        exists (evw ++ [Scan root files]). split.
        -- apply run_stop; [| |reflexivity].
           ++ rewrite entered_app. now rewrite (proj1 Hnw).
           ++ rewrite toolSuccesses_app. now rewrite (proj2 Hnw).
        -- unfold ret. cbn [final trace]. now rewrite Hw, app_assoc.
      * cbn [length Nat.eqb] in Er. rewrite <- Ep in Er. unfold bind at 1 in Er.
        destruct (extractPending_run (pendingOf (processed st) files) st
                    (mkState (world s1) (trace s1 ++ [Scan root files])))
          as (st' & s4 & evp & Hx & Ht & He & Hs & Hp & Hc & Hl).
        rewrite Hx in Er.
        destruct (IH st' s4 r Er) as (evr & Hrun & Htr).
        exists (evw ++ [Scan root files] ++ evp ++ evr). split.
        -- eapply run_pass; eauto. rewrite Ep. discriminate.
        -- rewrite Htr, Ht. cbn [trace]. rewrite Hw, <- !app_assoc. reflexivity.
    + subst r. exists evw. split.
      * apply run_stop; try apply Hnw. simpl.
        apply listFilesLoop_throw in El as [_ ?]. assumption.
      * exact Hw.
    + now apply stays_listFilesLoop in El.
    + subst r. exists evw. split.
      * apply run_stop; try apply Hnw. simpl.
        apply listFilesLoop_fuel in El. now subst l.
      * exact Hw.
Qed.

(** Nothing is handed to the extractor twice, nor anything that was
    processed before, as long as no scan lists a path twice. *)
Lemma loopRun_once root fuel st (r : outcome W nested) ev :
  loopRun root fuel st r ev ->
  Forall (fun files => NoDup files) (scans ev) ->
  NoDup (entered ev) /\ forall z, In z (entered ev) -> z ∉ processed st.
Proof.
  induction 1 as [st s|fuel st r ev He _ _
                  |fuel st files evw evp st' r evr Hcw Hne He Hs Hp _ _ Hrun IH];
    intros Hscans.
  - split; [constructor | intros z []].
  - rewrite He. split; [constructor | intros z []].
  - assert (Hew : entered evw = [] /\ scans evw = []).
    { split; (apply (omap_class isChmod); [assumption|]); now intros [| |[]| |]. }
    rewrite !scans_app, (proj2 Hew), Hs in Hscans. cbn in Hscans.
    apply Forall_cons in Hscans as [Hfiles Hscans].
    destruct (IH Hscans) as [Hnd Hfresh].
    rewrite !entered_app, (proj1 Hew), He.
    change (entered [Scan root files]) with ([] : list string). cbn [app].
    split.
    + apply NoDup_app. split; [|split; [|assumption]].
      * unfold pendingOf. apply NoDup_ListNoDup.
        do 2 apply List.NoDup_filter. now apply NoDup_ListNoDup.
      * intros z Hz Hz'. apply list_elem_of_In in Hz, Hz'.
        apply (Hfresh z Hz'). rewrite Hp. apply elem_of_union_l.
        apply elem_of_list_to_set, list_elem_of_In. exact Hz.
    + intros z Hz. apply in_app_or in Hz as [Hz|Hz].
      * now apply pendingOf_fresh in Hz.
      * intros Hin. apply (Hfresh z Hz). rewrite Hp. now apply elem_of_union_r.
Qed.

(** A run that is out of passes has handed a new zip path to the
    extractor in every one of them. *)
Lemma loopRun_progress root fuel st s' ev :
  loopRun root fuel st (OutOfFuel (W:=W) InNestedZips s') ev ->
  exists zs, NoDup zs /\ length zs = fuel /\
             forall z, In z zs -> In z (entered ev) /\ (z ∉ processed st).
Proof.
  remember (OutOfFuel InNestedZips s') as r eqn:Er.
  induction 1 as [st s|fuel st r ev _ _ Hstop
                  |fuel st files evw evp st' r evr _ Hne He _ Hp _ _ Hrun IH].
  - exists []. split; [constructor|]. split; [reflexivity | intros z []].
  - subst r. simpl in Hstop. congruence.
  - destruct (IH Er) as (zs & Hnd & Hlen & Hzs).
    destruct (pendingOf (processed st) files) as [|p pending] eqn:Ep; [congruence|].
    assert (Hp_fresh : p ∉ processed st).
    { apply (pendingOf_fresh (processed st) files). rewrite Ep. now left. }
    exists (p :: zs). split; [|split].
    + constructor; [|assumption]. intros Hin. apply list_elem_of_In in Hin.
      apply (proj2 (Hzs p Hin)). rewrite Hp. apply elem_of_union_l.
      apply elem_of_list_to_set. now left.
    + simpl. now rewrite Hlen.
    + intros z [<-|Hz].
      * split; [|assumption]. rewrite !entered_app, He.
        apply in_or_app. right. apply in_or_app. right.
        apply in_or_app. left. now left.
      * destruct (Hzs z Hz) as [Hin Hfresh]. split.
        -- rewrite !entered_app. apply in_or_app. right. apply in_or_app. right.
           now apply in_or_app; right.
        -- intros Hin'. apply Hfresh. rewrite Hp. now apply elem_of_union_r.
Qed.

(** A run that ends normally has counted every extraction, the
    successful ones on one side and the failed ones on the other. *)
Lemma loopRun_counts root fuel st st' (s' : state W) ev :
  loopRun root fuel st (Ok st' s') ev ->
  nestedZipCount st' = (nestedZipCount st + toolSuccesses ev)%nat /\
  (nestedZipCount st' + nestedZipFailures st'
   = nestedZipCount st + nestedZipFailures st + length (entered ev))%nat.
Proof.
  remember (Ok st' s') as r eqn:Er.
  induction 1 as [st s|fuel st r ev He Ht Hstop
                  |fuel st files evw evp st1 r evr Hcw _ He _ _ Hc Hl Hrun IH].
  - discriminate.
  - subst r. simpl in Hstop. subst st'. rewrite He, Ht. simpl. lia.
  - destruct (IH Er) as [IHc IHl].
    assert (Hew : entered evw = [] /\ toolSuccesses evw = O).
    { split.
      - apply (omap_class isChmod); [assumption|]. now intros [| |[]| |].
      - apply (class_no_success isChmod); [assumption|]. now intros [| |[]| |]. }
    rewrite !entered_app, !toolSuccesses_app, (proj1 Hew), (proj2 Hew), He.
    change (toolSuccesses [Scan root files]) with O.
    change (entered [Scan root files]) with ([] : list string).
    cbn [app]. rewrite length_app. lia.
Qed.

(** The loop itself fails only on a directory listing. *)
Lemma loopRun_throw root fuel st e (s' : state W) ev :
  loopRun root fuel st (Throw e s') ev -> exists dir, readdir dir (world s') = inl e.
Proof.
  remember (Throw e s') as r eqn:Er.
  induction 1 as [st s|fuel st r ev _ _ Hstop|]; subst; auto; discriminate.
Qed.

(** Every pass hands over all that is pending, whatever became of the
    extractions before; what it scans is what a walk from the root
    returned. *)
Lemma nestedLoop_entered walk fuel root st (s : state W) :
  exists ev,
    trace (final (nestedLoop walk fuel root st s)) = trace s ++ ev /\
    entered ev = handedOver (processed st) (scans ev) /\
    List.Forall (fun files => exists s1 s2, listFilesLoop walk [root] [] s1 = Ok files s2)
                (scans ev).
Proof.
  revert st s. induction fuel as [|fuel IH]; intros st s; cbn [nestedLoop].
  - exists []. cbn. rewrite app_nil_r. auto.
  - destruct (makeDirectoriesWritable_run walk root s) as (evw & Hw & Hcw & _).
    assert (Hnw : entered evw = [] /\ scans evw = []).
    { split; (apply (omap_class isChmod); [assumption|]); now intros [| |[]| |]. }
    destruct Hnw as [Hew Hsw].
    unfold bind at 1.
    destruct (makeDirectoriesWritable walk root s) as [n s1|e s1|c s1|l s1];
      cbn [final] in Hw.
    2-4: exists evw; split; [exact Hw|]; rewrite Hew, Hsw; split; [reflexivity|constructor].
    unfold bind at 1. rewrite listFilesRecursive_eq.
    destruct (listFilesLoop walk [root] [] s1) as [files s2|e s2|c s2|l s2] eqn:El.
    2-4: exists evw; split; [exact Hw|]; rewrite Hew, Hsw; split; [reflexivity|constructor].
    destruct (pendingOf (processed st) files) as [|p pending] eqn:Ep.
    + cbn [length Nat.eqb]. exists (evw ++ [Scan root files]). split.
      * unfold ret. cbn [final trace]. now rewrite Hw, app_assoc.
      * rewrite entered_app, scans_app, Hew, Hsw. cbn. rewrite Ep.
        split; [reflexivity|]. constructor; [eauto | constructor].
    + cbn [length Nat.eqb]. rewrite <- Ep. unfold bind at 1.
      destruct (extractPending_run (pendingOf (processed st) files) st
                  (mkState (world s1) (trace s1 ++ [Scan root files])))
        as (st' & s4 & evp & Hx & Ht & He & Hs & Hp & _).
      rewrite Hx. destruct (IH st' s4) as (evr & Htr & Her & Hwalks).
      exists (evw ++ [Scan root files] ++ evp ++ evr). split.
      * rewrite Htr, Ht. cbn [trace]. rewrite Hw, <- !app_assoc. reflexivity.
      * rewrite !entered_app, !scans_app, Hew, Hsw, He, Hs, Her, Hp.
        split; [reflexivity|]. cbn. constructor; [eauto | assumption].
Qed.

End LoopRuns.

Section LoopClaims.
Context {W : Type} `{Host W}.

Lemma extractNestedZips_final walk fuel root (s : state W) :
  final (extractNestedZips walk fuel root s)
  = final (nestedLoop walk fuel root (mkNested ∅ 0 0) s).
Proof.
  unfold extractNestedZips, bind.
  now destruct (nestedLoop walk fuel root (mkNested ∅ 0 0) s).
Qed.

(** C1: in a run of the nested-extraction loop no zip path is handed to
    the extractor twice, however often later scans list it again and
    whether its extraction succeeded or failed, provided no single scan
    lists a path twice. *)
Theorem extracts_each_path_at_most_once (walk fuel : nat) (root : string) (s : state W) :
  Forall (fun files => NoDup files)
         (scans (since s (final (extractNestedZips walk fuel root s)))) ->
  NoDup (entered (since s (final (extractNestedZips walk fuel root s)))).
Proof.
  rewrite extractNestedZips_final.
  destruct (nestedLoop_passes walk fuel root (mkNested ∅ 0 0) s _ eq_refl)
    as (ev & Hrun & Ht).
  rewrite (since_app _ _ _ Ht). intros Hscans.
  exact (proj1 (loopRun_once _ _ _ _ _ Hrun Hscans)).
Qed.

(** What a run of [extractNestedZips] can end in. *)
Lemma extractNestedZips_outcome (walk fuel : nat) (root : string) (s : state W) :
  match extractNestedZips walk fuel root s with
  | Ok counts s' =>
      fst counts = toolSuccesses (since s s') /\
      (fst counts + snd counts)%nat = length (entered (since s s'))
  | Throw e s' => exists dir, readdir dir (world s') = inl e
  | Exit _ _ => False
  | OutOfFuel _ _ => True
  end.
Proof.
  destruct (nestedLoop_passes walk fuel root (mkNested ∅ 0 0) s _ eq_refl)
    as (ev & Hrun & Ht).
  unfold extractNestedZips, bind.
  destruct (nestedLoop walk fuel root (mkNested ∅ 0 0) s) as [st' s'|e s'|c s'|l s'] eqn:E;
    cbn [final] in Ht.
  - unfold ret. cbn [fst snd]. rewrite (since_app _ _ _ Ht).
    destruct (loopRun_counts _ _ _ _ _ _ Hrun) as [Hc Hl].
    cbn [nestedZipCount nestedZipFailures] in *. split; lia.
  - eapply loopRun_throw; eauto.
  - now apply stays_nestedLoop in E.
  - exact I.
Qed.

End LoopClaims.

Lemma at_most_once_witness :
  Forall (fun files => NoDup files)
    (scans (since Scenario.unpacked
              (final (extractNestedZips 8 8 Scenario.unpackedDir Scenario.unpacked)))) /\
  length (scans (since Scenario.unpacked
              (final (extractNestedZips 8 8 Scenario.unpackedDir Scenario.unpacked))))
    = 2%nat /\
  entered (since Scenario.unpacked
             (final (extractNestedZips 8 8 Scenario.unpackedDir Scenario.unpacked)))
    = Scenario.nestedZips /\
  NoDup (entered (since Scenario.unpacked
             (final (extractNestedZips 8 8 Scenario.unpackedDir Scenario.unpacked)))).
Proof.
  assert (Hscans : Forall (fun files => NoDup files)
    (scans (since Scenario.unpacked
              (final (extractNestedZips 8 8 Scenario.unpackedDir Scenario.unpacked))))).
  { refine (bool_decide_unpack _ _). vm_compute. exact I. }
  split; [exact Hscans|]. split; [vm_compute; reflexivity|].
  split; [vm_compute; reflexivity|].
  exact (extracts_each_path_at_most_once 8 8 Scenario.unpackedDir Scenario.unpacked Hscans).
Defined.

(** ** Cleanup and the end of the run *)

Section Cleanup.
Context {W : Type} `{Host W}.

Lemma failsOnlyOnFiles_bind {A B} (m : M W A) (k : A -> M W B) :
  failsOnlyOnFiles m -> (forall a, failsOnlyOnFiles (k a)) ->
  failsOnlyOnFiles (bind m k).
Proof.
  intros Hm Hk s. unfold bind. specialize (Hm s).
  destruct (m s) as [a s1| | |]; auto. apply Hk.
Qed.

Lemma failsOnlyOnFiles_ret {A} (a : A) : failsOnlyOnFiles (ret (W:=W) a).
Proof. now intros s. Qed.

Lemma failsOnlyOnFiles_emit e : failsOnlyOnFiles (emit (W:=W) e).
Proof. now intros s. Qed.

Lemma failsOnlyOnFiles_listFilesRecursive walk dir :
  failsOnlyOnFiles (listFilesRecursive walk dir).
Proof.
  intros s. rewrite listFilesRecursive_eq.
  destruct (listFilesLoop walk [dir] [] s) as [files s1|e s1|c s1|l s1] eqn:E; auto.
  - left. now apply listFilesLoop_throw in E as [_ ?].
  - now apply stays_listFilesLoop in E.
Qed.

Lemma failsOnlyOnFiles_listDirsRecursive walk dir :
  failsOnlyOnFiles (listDirsRecursive walk dir).
Proof.
  intros s. unfold listDirsRecursive.
  destruct (listDirsLoop walk [dir] [] s) as [dirs s1|e s1|c s1|l s1] eqn:E; auto.
  - left. apply listDirsLoop_throw in E as [-> ?]. assumption.
  - now apply stays_listDirsLoop in E.
Qed.

Lemma failsOnlyOnFiles_makeDirectoriesWritable walk root :
  failsOnlyOnFiles (makeDirectoriesWritable walk root).
Proof.
  intros s. destruct (makeDirectoriesWritable_run walk root s) as (ev & _ & _ & Hr).
  destruct (makeDirectoriesWritable walk root s); auto. now left.
Qed.

Lemma failsOnlyOnFiles_extractNestedZips walk fuel root :
  failsOnlyOnFiles (extractNestedZips walk fuel root).
Proof.
  intros s. pose proof (extractNestedZips_outcome walk fuel root s) as Hr.
  destruct (extractNestedZips walk fuel root s); auto. now left.
Qed.

(** The first loop of the cleanup stops at the first removal that fails. *)
Lemma failsOnlyOnFiles_removeMetadataFiles files n :
  failsOnlyOnFiles (removeMetadataFiles files n).
Proof.
  revert n. induction files as [|f files IH]; intros n s; cbn [removeMetadataFiles].
  - exact I.
  - destruct (negb (isMacMetadataFile f)); [apply IH|].
    unfold bind, sys.
    destruct (perform (Rm f false true) (world s)) as [[e|] w'].
    + right. exists f, false, (trace s). reflexivity.
    + apply IH.
Qed.

Lemma failsOnlyOnFiles_removeMacosxDirs dirs n :
  failsOnlyOnFiles (removeMacosxDirs dirs n).
Proof.
  revert n. induction dirs as [|d dirs IH]; intros n s; cbn [removeMacosxDirs].
  - exact I.
  - destruct (negb (isMacosxDir d)); [apply IH|].
    unfold bind, sys.
    destruct (perform (Rm d true true) (world s)) as [[e|] w'].
    + right. exists d, true, (trace s). reflexivity.
    + apply IH.
Qed.

Lemma failsOnlyOnFiles_cleanupMacArtifacts walk root :
  failsOnlyOnFiles (cleanupMacArtifacts walk root).
Proof.
  unfold cleanupMacArtifacts.
  apply failsOnlyOnFiles_bind; [apply failsOnlyOnFiles_listFilesRecursive | intros files].
  apply failsOnlyOnFiles_bind; [apply failsOnlyOnFiles_removeMetadataFiles | intros n].
  apply failsOnlyOnFiles_bind; [apply failsOnlyOnFiles_listDirsRecursive | intros dirs].
  apply failsOnlyOnFiles_bind; [apply failsOnlyOnFiles_removeMacosxDirs | intros m].
  apply failsOnlyOnFiles_ret.
Qed.

Lemma stopsAtFailure_emits {A} (m : M W A) :
  emits (fun e => negb (isFailure e)) m -> stopsAtFailure m.
Proof.
  intros Hm s. destruct (Hm s) as (d & Ht & Hd). exists d. split; [assumption|]. left.
  clear Ht. induction d as [|e d IH]; [reflexivity|]. cbn [forallb existsb] in *.
  apply andb_true_iff in Hd as [He Hd]. apply negb_true_iff in He.
  now rewrite He, IH.
Qed.

Lemma stopsAtFailure_ret {A} (a : A) : stopsAtFailure (ret (W:=W) a).
Proof. intros s. exists []. cbn. rewrite app_nil_r. auto. Qed.

Lemma stopsAtFailure_sys c : stopsAtFailure (sys (W:=W) c).
Proof.
  intros s. unfold sys. destruct (perform c (world s)) as [[e|] w'].
  - exists [Did c (Some e)]. split; [reflexivity|]. right.
    exists [], c, e. eexists. repeat split.
  - exists [Did c None]. split; [reflexivity|]. now left.
Qed.

Lemma stopsAtFailure_bind {A B} (m : M W A) (k : A -> M W B) :
  stopsAtFailure m -> (forall a, stopsAtFailure (k a)) -> stopsAtFailure (bind m k).
Proof.
  intros Hm Hk s. unfold bind. destruct (Hm s) as (d1 & Ht1 & H1).
  destruct (m s) as [a s1|e s1|c s1|l s1] eqn:E; cbn [final] in *.
  - destruct H1 as [H1|(d0 & c & e & s' & _ & _ & [=])].
    destruct (Hk a s1) as (d2 & Ht2 & H2). exists (d1 ++ d2).
    split; [now rewrite Ht2, Ht1, app_assoc|].
    destruct H2 as [H2|(d0 & c & e & s' & -> & H0 & E2)].
    + left. now rewrite existsb_app, H1, H2.
    + right. exists (d1 ++ d0), c, e, s'.
      split; [apply app_assoc|]. split; [now rewrite existsb_app, H1, H0 | exact E2].
  - exists d1. split; [assumption|].
    destruct H1 as [H1|(d0 & c & e' & s' & -> & H0 & E')]; [now left|].
    injection E' as <- <-. right. exists d0, c, e, s1. auto.
  - exists d1. split; [assumption|].
    destruct H1 as [H1|(d0 & c0 & e' & s' & _ & _ & [=])]. now left.
  - exists d1. split; [assumption|].
    destruct H1 as [H1|(d0 & c0 & e' & s' & _ & _ & [=])]. now left.
Qed.

Lemma stopsAtFailure_removeMetadataFiles files n :
  stopsAtFailure (removeMetadataFiles (W:=W) files n).
Proof.
  revert n. induction files as [|f files IH]; intros n; cbn [removeMetadataFiles].
  - apply stopsAtFailure_ret.
  - destruct (negb (isMacMetadataFile f)); [apply IH|].
    apply stopsAtFailure_bind; [apply stopsAtFailure_sys | intros _; apply IH].
Qed.

Lemma stopsAtFailure_removeMacosxDirs dirs n :
  stopsAtFailure (removeMacosxDirs (W:=W) dirs n).
Proof.
  revert n. induction dirs as [|d dirs IH]; intros n; cbn [removeMacosxDirs].
  - apply stopsAtFailure_ret.
  - destruct (negb (isMacosxDir d)); [apply IH|].
    apply stopsAtFailure_bind; [apply stopsAtFailure_sys | intros _; apply IH].
Qed.

(** The cleanup has no handler of its own: the first removal that fails
    ends it. *)
Lemma stopsAtFailure_cleanupMacArtifacts walk root :
  stopsAtFailure (cleanupMacArtifacts walk root).
Proof.
  unfold cleanupMacArtifacts.
  apply stopsAtFailure_bind.
  { apply stopsAtFailure_emits, emits_listFilesRecursive. reflexivity. }
  intros files.
  apply stopsAtFailure_bind; [apply stopsAtFailure_removeMetadataFiles | intros n].
  apply stopsAtFailure_bind.
  { apply stopsAtFailure_emits. unfold listDirsRecursive. apply emits_listDirsLoop. }
  intros dirs.
  apply stopsAtFailure_bind; [apply stopsAtFailure_removeMacosxDirs | intros m].
  apply stopsAtFailure_ret.
Qed.

End Cleanup.

Ltac files_only :=
  repeat (intros;
          match goal with
          | |- failsOnlyOnFiles (bind _ _) => apply failsOnlyOnFiles_bind
          | |- failsOnlyOnFiles (consoleLog _) => apply failsOnlyOnFiles_emit
          | |- failsOnlyOnFiles (ret _) => apply failsOnlyOnFiles_ret
          | |- failsOnlyOnFiles (makeDirectoriesWritable _ _) =>
              apply failsOnlyOnFiles_makeDirectoriesWritable
          | |- failsOnlyOnFiles (extractNestedZips _ _ _) =>
              apply failsOnlyOnFiles_extractNestedZips
          | |- failsOnlyOnFiles (cleanupMacArtifacts _ _) =>
              apply failsOnlyOnFiles_cleanupMacArtifacts
          | |- failsOnlyOnFiles (listFilesRecursive _ _) =>
              apply failsOnlyOnFiles_listFilesRecursive
          | |- failsOnlyOnFiles (listDirsRecursive _ _) =>
              apply failsOnlyOnFiles_listDirsRecursive
          end).

Section EndOfRun.
Context {W : Type} `{Host W}.

Lemma consoleLog_inv line (s : state W) u s' :
  consoleLog line s = Ok u s' -> s' = mkState (world s) (trace s ++ [Log line]).
Proof. unfold consoleLog, emit. now intros [= _ <-]. Qed.

(** Once the root archive is extracted the process ends with the
    summary, or on the error of a listing or of a removal. *)
Lemma after_root_extraction
    (walk fuel : nat) (argv : list string) (s : state W)
    (zipPath : string) (s1 : state W) (outputDir : string) (s2 : state W) :
  resolveZipFromArgs walk (nth_error argv 2) s = Ok zipPath s1 ->
  isZipExt zipPath = true ->
  let requested :=
    Path.resolve cwd
      [from_option id
         (Path.join [Path.dirname zipPath;
                     Path.basename_ext zipPath ".zip" +:+ "_extracted"])
         (nth_error argv 3)] in
  unzipToDir zipPath requested
    (mkState (world s1)
       (trace s1 ++ [Log ("[zip:extract] source zip: " +:+ zipPath);
                     Log ("[zip:extract] requested output dir: " +:+ requested)]))
    = Ok outputDir s2 ->
  match program walk fuel argv s with
  | Ok _ s' =>
      exists tr counts removed dirs files nonZip zips,
        trace s' = tr ++ summaryLines counts removed dirs files nonZip zips
  | Exit code s'' =>
      code = 1 /\
      exists e s', listingOrRemovalFailed e s' /\
        s'' = mkState (world s') (trace s' ++ [LogError "[zip:extract] failed:" (Some e)])
  | Throw _ _ => False
  | OutOfFuel _ _ => True
  end.
Proof.
  intros Hres Hzip requested Hroot.
  unfold program, tryCatch, main. rewrite (bind_ok _ _ _ _ _ Hres), Hzip.
  cbn [negb]. fold requested.
  unfold bind at 1, consoleLog at 1, emit at 1.
  unfold bind at 1, consoleLog at 1, emit at 1. cbn [world trace].
  rewrite <- app_assoc. cbn [app].
  unfold bind at 1. rewrite Hroot.
  match goal with
  | |- match match ?k s2 with _ => _ end with _ => _ end =>
      assert (Hk : failsOnlyOnFiles k) by files_only;
      specialize (Hk s2); destruct (k s2) as [u s'|e s'|c s'|l s'] eqn:Ek
  end.
  - repeat (apply bind_inv_ok in Ek as (? & ? & ? & Ek)).
    repeat match goal with
           | E : consoleLog _ _ = Ok _ _ |- _ => apply consoleLog_inv in E; subst
           end.
    cbn [trace]. rewrite <- !app_assoc. cbn [app].
    eexists _, _, _, _, _, _, _. unfold summaryLines. reflexivity.
  - cbn. split; [reflexivity|]. eauto.
  - contradiction.
  - exact I.
Qed.

(** A cleanup that raises an error ends the process with it. *)
Lemma cleanup_error_exits
    (walk fuel : nat) (argv : list string) (s : state W)
    (zipPath : string) (s1 : state W) (outputDir : string) (s2 : state W)
    (updated : nat) (s3 : state W) (counts : nat * nat) (s4 : state W)
    (e : string) (s5 : state W) :
  resolveZipFromArgs walk (nth_error argv 2) s = Ok zipPath s1 ->
  isZipExt zipPath = true ->
  let requested :=
    Path.resolve cwd
      [from_option id
         (Path.join [Path.dirname zipPath;
                     Path.basename_ext zipPath ".zip" +:+ "_extracted"])
         (nth_error argv 3)] in
  unzipToDir zipPath requested
    (mkState (world s1)
       (trace s1 ++ [Log ("[zip:extract] source zip: " +:+ zipPath);
                     Log ("[zip:extract] requested output dir: " +:+ requested)]))
    = Ok outputDir s2 ->
  makeDirectoriesWritable walk outputDir
    (mkState (world s2)
       (trace s2 ++ [Log ("[zip:extract] output dir: " +:+ outputDir);
                     Log "[zip:extract] root zip extracted."]))
    = Ok updated s3 ->
  extractNestedZips walk fuel outputDir
    (mkState (world s3)
       (trace s3 ++ [Log ("[zip:extract] writable directory normalization: "
                          +:+ Js.ofNat updated +:+ " dirs updated")]))
    = Ok counts s4 ->
  cleanupMacArtifacts walk outputDir s4 = Throw e s5 ->
  program walk fuel argv s
  = Exit 1 (mkState (world s5) (trace s5 ++ [LogError "[zip:extract] failed:" (Some e)])).
Proof.
  intros Hres Hzip requested Hroot Hwritable Hnested Hcleanup.
  unfold program, tryCatch, main. rewrite (bind_ok _ _ _ _ _ Hres), Hzip.
  cbn [negb]. fold requested.
  unfold bind at 1, consoleLog at 1, emit at 1.
  unfold bind at 1, consoleLog at 1, emit at 1. cbn [world trace].
  rewrite <- app_assoc. cbn [app].
  unfold bind at 1. rewrite Hroot.
  unfold bind at 1, consoleLog at 1, emit at 1.
  unfold bind at 1, consoleLog at 1, emit at 1. cbn [world trace].
  rewrite <- app_assoc. cbn [app].
  unfold bind at 1. rewrite Hwritable.
  unfold bind at 1, consoleLog at 1, emit at 1. cbn [world trace].
  unfold bind at 1. rewrite Hnested.
  unfold bind at 1. rewrite Hcleanup. reflexivity.
Qed.

(** C4 (as amended): the cleanup is not best-effort.  A removal that
    fails is the last thing the cleanup does: its error is raised and
    the entries that follow are not attempted; the cleanup raises
    nothing but the error of a directory listing or of a removal.
    [main] has no handler around it: once the root archive is extracted,
    the process ends either with the summary as its last output, or by
    [process.exit(1)] after [console.error] of the error of a directory
    listing or of a removal that failed; and a cleanup that raises an
    error always ends it in the second way, with that error. *)
Theorem run_ends_with_summary_or_file_error
    (walk fuel : nat) (argv : list string) (s : state W)
    (zipPath : string) (s1 : state W) (outputDir : string) (s2 : state W) :
  resolveZipFromArgs walk (nth_error argv 2) s = Ok zipPath s1 ->
  isZipExt zipPath = true ->
  let requested :=
    Path.resolve cwd
      [from_option id
         (Path.join [Path.dirname zipPath;
                     Path.basename_ext zipPath ".zip" +:+ "_extracted"])
         (nth_error argv 3)] in
  unzipToDir zipPath requested
    (mkState (world s1)
       (trace s1 ++ [Log ("[zip:extract] source zip: " +:+ zipPath);
                     Log ("[zip:extract] requested output dir: " +:+ requested)]))
    = Ok outputDir s2 ->
  (forall root,
     stopsAtFailure (cleanupMacArtifacts (W:=W) walk root) /\
     failsOnlyOnFiles (cleanupMacArtifacts (W:=W) walk root)) /\
  match program walk fuel argv s with
  | Ok _ s' =>
      exists tr counts removed dirs files nonZip zips,
        trace s' = tr ++ summaryLines counts removed dirs files nonZip zips
  | Exit code s'' =>
      code = 1 /\
      exists e s', listingOrRemovalFailed e s' /\
        s'' = mkState (world s') (trace s' ++ [LogError "[zip:extract] failed:" (Some e)])
  | Throw _ _ => False
  | OutOfFuel _ _ => True
  end /\
  (forall updated s3 counts s4 e s5,
     makeDirectoriesWritable walk outputDir
       (mkState (world s2)
          (trace s2 ++ [Log ("[zip:extract] output dir: " +:+ outputDir);
                        Log "[zip:extract] root zip extracted."]))
       = Ok updated s3 ->
     extractNestedZips walk fuel outputDir
       (mkState (world s3)
          (trace s3 ++ [Log ("[zip:extract] writable directory normalization: "
                             +:+ Js.ofNat updated +:+ " dirs updated")]))
       = Ok counts s4 ->
     cleanupMacArtifacts walk outputDir s4 = Throw e s5 ->
     program walk fuel argv s
     = Exit 1 (mkState (world s5)
                 (trace s5 ++ [LogError "[zip:extract] failed:" (Some e)]))).
Proof.
  intros Hres Hzip requested Hroot. split; [|split].
  - intros root. split;
      [apply stopsAtFailure_cleanupMacArtifacts | apply failsOnlyOnFiles_cleanupMacArtifacts].
  - exact (after_root_extraction walk fuel argv s zipPath s1 outputDir s2 Hres Hzip Hroot).
  - intros updated s3 counts s4 e s5.
    exact (cleanup_error_exits walk fuel argv s zipPath s1 outputDir s2
             updated s3 counts s4 e s5 Hres Hzip Hroot).
Qed.

End EndOfRun.

Lemma run_ends_witness :
  (exists s',
    program 8 8 ["node"; "extract-zip-and-count.mjs"; "data.zip"] Scenario.uploads
      = Ok tt s' /\
    exitCode (program 8 8 ["node"; "extract-zip-and-count.mjs"; "data.zip"]
                Scenario.uploads) = Some 0 /\
    exists tr counts removed dirs files nonZip zips,
      trace s' = tr ++ summaryLines counts removed dirs files nonZip zips) /\
  (exists s4 s5,
    cleanupMacArtifacts 8 Scenario.unpackedDir s4
      = Throw ("EPERM: operation not permitted, "
               +:+ "rm '/work/upload/data_extracted/.DS_Store'") s5 /\
    last (trace s5)
      = Some (Did (Rm "/work/upload/data_extracted/.DS_Store" false true)
                  (Some ("EPERM: operation not permitted, "
                         +:+ "rm '/work/upload/data_extracted/.DS_Store'"))) /\
    program 8 8 ["node"; "extract-zip-and-count.mjs"; "data.zip"] Scenario.stuck
      = Exit 1 (mkState (world s5)
                  (trace s5 ++ [LogError "[zip:extract] failed:"
                                  (Some ("EPERM: operation not permitted, "
                                         +:+ "rm '/work/upload/data_extracted/.DS_Store'"))]))).
Proof.
  split.
  - pose proof (run_ends_with_summary_or_file_error 8 8
                  ["node"; "extract-zip-and-count.mjs"; "data.zip"] Scenario.uploads
                  "/work/upload/data.zip" Scenario.uploads Scenario.unpackedDir
                  (final (unzipToDir "/work/upload/data.zip" Scenario.unpackedDir
                     (mkState (world Scenario.uploads)
                        [Log "[zip:extract] source zip: /work/upload/data.zip";
                         Log "[zip:extract] requested output dir: /work/upload/data_extracted"]))))
      as T.
    destruct T as (_ & T & _).
    + vm_compute. reflexivity.
    + reflexivity.
    + vm_compute. reflexivity.
    + destruct (program 8 8 ["node"; "extract-zip-and-count.mjs"; "data.zip"]
                  Scenario.uploads) as [[] s'| | |] eqn:E.
      * exists s'. split; [reflexivity|]. split; [reflexivity | exact T].
      * contradiction.
      * exfalso. revert E. vm_compute. discriminate.
      * exfalso. revert E. vm_compute. discriminate.
  - set (s2 := final (unzipToDir "/work/upload/data.zip" Scenario.unpackedDir
                 (mkState (world Scenario.stuck)
                    [Log "[zip:extract] source zip: /work/upload/data.zip";
                     Log "[zip:extract] requested output dir: /work/upload/data_extracted"]))).
    set (s3 := final (makeDirectoriesWritable 8 Scenario.unpackedDir
                 (mkState (world s2)
                    (trace s2 ++ [Log "[zip:extract] output dir: /work/upload/data_extracted";
                                  Log "[zip:extract] root zip extracted."])))).
    set (s4 := final (extractNestedZips 8 8 Scenario.unpackedDir
                 (mkState (world s3)
                    (trace s3 ++ [Log ("[zip:extract] writable directory normalization: "
                                       +:+ "1 dirs updated")])))).
    set (s5 := final (cleanupMacArtifacts 8 Scenario.unpackedDir s4)).
    pose proof (run_ends_with_summary_or_file_error 8 8
                  ["node"; "extract-zip-and-count.mjs"; "data.zip"] Scenario.stuck
                  "/work/upload/data.zip" Scenario.stuck Scenario.unpackedDir s2)
      as T.
    destruct T as (_ & _ & T).
    + vm_compute. reflexivity.
    + reflexivity.
    + vm_compute. reflexivity.
    + exists s4, s5.
      assert (Hclean : cleanupMacArtifacts 8 Scenario.unpackedDir s4
                       = Throw ("EPERM: operation not permitted, "
                                +:+ "rm '/work/upload/data_extracted/.DS_Store'") s5)
        by (vm_compute; reflexivity).
      split; [exact Hclean|]. split; [vm_compute; reflexivity|].
      apply (T 1%nat s3 (2%nat, 1%nat) s4); [vm_compute; reflexivity .. | exact Hclean].
Defined.

(** C4, as stated, fails: when the [.DS_Store] of the unpacked tree
    cannot be removed, the cleanup stops at it, the metadata that
    follows is never attempted and stays in the tree, no summary is
    printed and the process exits with code 1, although the root archive
    had been extracted. *)
Lemma cleanup_failure_is_fatal :
  let r := program 8 8 ["node"; "extract-zip-and-count.mjs"; "data.zip"] Scenario.stuck in
  existsb (String.eqb "[zip:extract] root zip extracted.") (logged (trace (final r))) = true /\
  exitCode r = Some 1 /\
  existsb (String.eqb "[zip:extract] summary:") (logged (trace (final r))) = false /\
  last (trace (final r))
    = Some (LogError "[zip:extract] failed:"
              (Some ("EPERM: operation not permitted, "
                     +:+ "rm '/work/upload/data_extracted/.DS_Store'"))) /\
  existsb (fun c => match c with
                    | Rm p _ _ =>
                        String.eqb p "/work/upload/data_extracted/b_extracted/__MACOSX/._y.txt"
                        || String.eqb p "/work/upload/data_extracted/b_extracted/__MACOSX"
                    | _ => false
                    end) (mutations (trace (final r))) = false /\
  Sim.missing (Sim.nodes (world (final r)))
    "/work/upload/data_extracted/b_extracted/__MACOSX/._y.txt" = false.
Proof. vm_compute. repeat split. Qed.

Section NestedFailures.
Context {W : Type} `{Host W}.

(** After the nested loop the process ends with the summary of its
    counts, or on the error of a listing or of a removal. *)
Lemma after_nested_loop
    (walk fuel : nat) (argv : list string) (s : state W)
    (zipPath : string) (s1 : state W) (outputDir : string) (s2 : state W)
    (updated : nat) (s3 : state W) (counts : nat * nat) (s4 : state W) :
  resolveZipFromArgs walk (nth_error argv 2) s = Ok zipPath s1 ->
  isZipExt zipPath = true ->
  let requested :=
    Path.resolve cwd
      [from_option id
         (Path.join [Path.dirname zipPath;
                     Path.basename_ext zipPath ".zip" +:+ "_extracted"])
         (nth_error argv 3)] in
  unzipToDir zipPath requested
    (mkState (world s1)
       (trace s1 ++ [Log ("[zip:extract] source zip: " +:+ zipPath);
                     Log ("[zip:extract] requested output dir: " +:+ requested)]))
    = Ok outputDir s2 ->
  makeDirectoriesWritable walk outputDir
    (mkState (world s2)
       (trace s2 ++ [Log ("[zip:extract] output dir: " +:+ outputDir);
                     Log "[zip:extract] root zip extracted."]))
    = Ok updated s3 ->
  extractNestedZips walk fuel outputDir
    (mkState (world s3)
       (trace s3 ++ [Log ("[zip:extract] writable directory normalization: "
                          +:+ Js.ofNat updated +:+ " dirs updated")]))
    = Ok counts s4 ->
  match program walk fuel argv s with
  | Ok _ s' =>
      exists tr removed dirs files nonZip zips,
        trace s' = tr ++ summaryLines counts removed dirs files nonZip zips
  | Exit code s'' =>
      code = 1 /\
      exists e s', listingOrRemovalFailed e s' /\
        s'' = mkState (world s') (trace s' ++ [LogError "[zip:extract] failed:" (Some e)])
  | Throw _ _ => False
  | OutOfFuel _ _ => True
  end.
Proof.
  intros Hres Hzip requested Hroot Hwritable Hnested.
  unfold program, tryCatch, main. rewrite (bind_ok _ _ _ _ _ Hres), Hzip.
  cbn [negb]. fold requested.
  unfold bind at 1, consoleLog at 1, emit at 1.
  unfold bind at 1, consoleLog at 1, emit at 1. cbn [world trace].
  rewrite <- app_assoc. cbn [app].
  unfold bind at 1. rewrite Hroot.
  unfold bind at 1, consoleLog at 1, emit at 1.
  unfold bind at 1, consoleLog at 1, emit at 1. cbn [world trace].
  rewrite <- app_assoc. cbn [app].
  unfold bind at 1. rewrite Hwritable.
  unfold bind at 1, consoleLog at 1, emit at 1. cbn [world trace].
  unfold bind at 1. rewrite Hnested.
  match goal with
  | |- match match ?k s4 with _ => _ end with _ => _ end =>
      assert (Hk : failsOnlyOnFiles k) by files_only;
      specialize (Hk s4); destruct (k s4) as [u s'|e s'|c s'|l s'] eqn:Ek
  end.
  - repeat (apply bind_inv_ok in Ek as (? & ? & ? & Ek)).
    repeat match goal with
           | E : consoleLog _ _ = Ok _ _ |- _ => apply consoleLog_inv in E; subst
           end.
    cbn [trace]. rewrite <- !app_assoc. cbn [app].
    eexists _, _, _, _, _, _. unfold summaryLines. reflexivity.
  - cbn. split; [reflexivity|]. eauto.
  - contradiction.
  - exact I.
Qed.

(** C7 (as amended): every pass of the loop hands every pending zip of
    its scan to the extractor, whatever became of the extractions
    before it, and a run of the loop that ends has counted each of
    them, the successful extractions in [nestedZipCount] and the failed
    ones in [nestedZipFailures]; the loop itself fails only on a
    directory listing.  When [main] has reached the loop and the loop
    returns its counts, whatever the number of failures, the process
    ends with the summary of these counts as its last output, unless a
    directory listing or a removal fails afterwards: then it exits with
    code 1 on that error. *)
Theorem nested_failures_are_counted (walk fuel : nat) (root : string) (s : state W) :
  let r := extractNestedZips walk fuel root s in
  entered (since s (final r)) = handedOver ∅ (scans (since s (final r))) /\
  match r with
  | Ok counts s' =>
      fst counts = toolSuccesses (since s s') /\
      (fst counts + snd counts)%nat = length (entered (since s s'))
  | Throw e s' => exists dir, readdir dir (world s') = inl e
  | Exit _ _ => False
  | OutOfFuel _ _ => True
  end /\
  (forall argv s0 zipPath s1 s2 updated s3 counts s4,
     resolveZipFromArgs walk (nth_error argv 2) s0 = Ok zipPath s1 ->
     isZipExt zipPath = true ->
     let requested :=
       Path.resolve cwd
         [from_option id
            (Path.join [Path.dirname zipPath;
                        Path.basename_ext zipPath ".zip" +:+ "_extracted"])
            (nth_error argv 3)] in
     unzipToDir zipPath requested
       (mkState (world s1)
          (trace s1 ++ [Log ("[zip:extract] source zip: " +:+ zipPath);
                        Log ("[zip:extract] requested output dir: " +:+ requested)]))
       = Ok root s2 ->
     makeDirectoriesWritable walk root
       (mkState (world s2)
          (trace s2 ++ [Log ("[zip:extract] output dir: " +:+ root);
                        Log "[zip:extract] root zip extracted."]))
       = Ok updated s3 ->
     s = mkState (world s3)
           (trace s3 ++ [Log ("[zip:extract] writable directory normalization: "
                              +:+ Js.ofNat updated +:+ " dirs updated")]) ->
     r = Ok counts s4 ->
     match program walk fuel argv s0 with
     | Ok _ s' =>
         exists tr removed dirs files nonZip zips,
           trace s' = tr ++ summaryLines counts removed dirs files nonZip zips
     | Exit code s'' =>
         code = 1 /\
         exists e s', listingOrRemovalFailed e s' /\
           s'' = mkState (world s')
                   (trace s' ++ [LogError "[zip:extract] failed:" (Some e)])
     | Throw _ _ => False
     | OutOfFuel _ _ => True
     end).
Proof.
  cbv zeta. split; [|split].
  - rewrite extractNestedZips_final.
    destruct (nestedLoop_entered walk fuel root (mkNested ∅ 0 0) s) as (ev & Ht & He & _).
    now rewrite (since_app _ _ _ Ht).
  - apply extractNestedZips_outcome.
  - intros argv s0 zipPath s1 s2 updated s3 counts s4 Hres Hzip Hroot Hwritable -> Hnested.
    exact (after_nested_loop walk fuel argv s0 zipPath s1 root s2 updated s3 counts s4
             Hres Hzip Hroot Hwritable Hnested).
Qed.

End NestedFailures.

Lemma nested_failures_witness :
  (exists s', extractNestedZips 8 8 Scenario.unpackedDir Scenario.unpacked
              = Ok (2%nat, 1%nat) s' /\
              toolSuccesses (since Scenario.unpacked s') = 2%nat /\
              length (entered (since Scenario.unpacked s')) = 3%nat /\
              entered (since Scenario.unpacked s')
              = handedOver ∅ (scans (since Scenario.unpacked s')) /\
              entered (since Scenario.unpacked s') = Scenario.nestedZips) /\
  (exists s',
     program 8 8 ["node"; "extract-zip-and-count.mjs"; "data.zip"] Scenario.uploads
       = Ok tt s' /\
     exists tr removed dirs files nonZip zips,
       trace s' = tr ++ summaryLines (2%nat, 1%nat) removed dirs files nonZip zips).
Proof.
  split.
  - pose proof (nested_failures_are_counted 8 8 Scenario.unpackedDir Scenario.unpacked) as T.
    cbv zeta in T. destruct T as (Hall & T & _).
    destruct (extractNestedZips 8 8 Scenario.unpackedDir Scenario.unpacked)
      as [counts s'| | |] eqn:E.
    + exists s'. destruct T as [Hc Hl]. cbn [final] in Hall.
      assert (counts = (2%nat, 1%nat)) as ->.
      { revert E. vm_compute. now intros [= <- _]. }
      cbn [fst snd] in Hc, Hl. split; [reflexivity|]. split; [now rewrite <- Hc|].
      split; [now rewrite <- Hl|]. split; [exact Hall|].
      revert E. vm_compute. now intros [= <-].
    + exfalso. revert E. vm_compute. discriminate.
    + exfalso. revert E. vm_compute. discriminate.
    + exfalso. revert E. vm_compute. discriminate.
  - set (s2 := final (unzipToDir "/work/upload/data.zip" Scenario.unpackedDir
                 (mkState (world Scenario.uploads)
                    [Log "[zip:extract] source zip: /work/upload/data.zip";
                     Log "[zip:extract] requested output dir: /work/upload/data_extracted"]))).
    set (s3 := final (makeDirectoriesWritable 8 Scenario.unpackedDir
                 (mkState (world s2)
                    (trace s2 ++ [Log "[zip:extract] output dir: /work/upload/data_extracted";
                                  Log "[zip:extract] root zip extracted."])))).
    set (s := mkState (world s3)
                (trace s3 ++ [Log ("[zip:extract] writable directory normalization: "
                                   +:+ "1 dirs updated")])).
    set (s4 := final (extractNestedZips 8 8 Scenario.unpackedDir s)).
    pose proof (nested_failures_are_counted 8 8 Scenario.unpackedDir s) as T.
    cbv zeta in T. destruct T as (_ & _ & T).
    specialize (T ["node"; "extract-zip-and-count.mjs"; "data.zip"] Scenario.uploads
                  "/work/upload/data.zip" Scenario.uploads s2 1%nat s3 (2%nat, 1%nat) s4).
    destruct (program 8 8 ["node"; "extract-zip-and-count.mjs"; "data.zip"]
                Scenario.uploads) as [[] s'| | |] eqn:E.
    + exists s'. split; [reflexivity|].
      apply T; [vm_compute; reflexivity | reflexivity | vm_compute; reflexivity ..].
    + exfalso. revert E. vm_compute. discriminate.
    + exfalso. revert E. vm_compute. discriminate.
    + exfalso. revert E. vm_compute. discriminate.
Defined.

(** C7, as stated, fails: the same archive, with its one corrupt and
    two valid nested zips, is counted as the claim says, two extracted
    and one failed, and still the process exits with code 1 and without
    a summary when the [.DS_Store] it unpacks cannot be removed. *)
Lemma nested_failure_before_fatal_cleanup :
  let r := program 8 8 ["node"; "extract-zip-and-count.mjs"; "data.zip"] Scenario.stuck in
  entered (trace (final r))
    = "/work/upload/data.zip" :: Scenario.nestedZips /\
  List.filter (fun line => Js.startsWith line "[zip:extract] nested zip") (logged (trace (final r)))
    = [ "[zip:extract] nested zip extracted: /work/upload/data_extracted/a.zip"
        +:+ " -> /work/upload/data_extracted/a_extracted";
        "[zip:extract] nested zip extracted: /work/upload/data_extracted/b.zip"
        +:+ " -> /work/upload/data_extracted/b_extracted";
        "[zip:extract] nested zip skipped (failed to extract): "
        +:+ "/work/upload/data_extracted/bad.zip" ] /\
  existsb (String.eqb "[zip:extract] summary:") (logged (trace (final r))) = false /\
  exitCode r = Some 1.
Proof. vm_compute. repeat split. Qed.

(** ** Node's [path] and string functions on samples *)

Example basename_samples :
  List.map Path.basename ["/a/b.zip"; "/a/b/"; "x"; "/"; ""; "/a//b.ZIP//"]
  = ["b.zip"; "b"; "x"; ""; ""; "b.ZIP"].
Proof. reflexivity. Qed.

Example basename_ext_samples :
  List.map (fun p => Path.basename_ext p ".zip")
    ["/a/b.zip"; "/a/.zip"; ".zip"; "/a/b.ZIP"; "/a/b.zip.zip"; "/a/ip/"; "a.zip/"]
  = ["b"; ".zip"; ""; "b.ZIP"; "b.zip"; "ip/"; "a"].
Proof. reflexivity. Qed.

Example dirname_samples :
  List.map Path.dirname ["/a/b.zip"; "/a"; "a"; "/a/b/"; "/a//b"; "//a"; ""; "a/b"]
  = ["/a"; "/"; "."; "/a"; "/a/"; "//"; "."; "a"].
Proof. reflexivity. Qed.

Example extname_samples :
  List.map Path.extname
    ["/a/b.zip"; "/a/.zip"; "/a/._b.zip"; "b"; ".."; "a.zip/"; "..zip"; "a."; "/x.y/b"; "..."]
  = [".zip"; ""; ".zip"; ""; ""; ".zip"; ".zip"; "."; ""; "."].
Proof. reflexivity. Qed.

Example join_samples :
  List.map Path.join
    [["/a"; "b"]; ["/"; "b"]; ["/a/b"; "../c"]; ["."; "x_1"]; ["/a/"; "b"]; ["a"; ".."]]
  = ["/a/b"; "/b"; "/a/c"; "x_1"; "/a/b"; "."].
Proof. reflexivity. Qed.

Example resolve_samples :
  List.map (Path.resolve "/home/u")
    [["upload"]; ["/x/../y.zip"]; ["/home/u/upload"; "a.zip"]; ["/home/u/upload"; "/etc/a"]; ["../b"]; [""]]
  = ["/home/u/upload"; "/y.zip"; "/home/u/upload/a.zip"; "/etc/a"; "/home/b"; "/home/u"].
Proof. reflexivity. Qed.

Example string_samples :
  (Js.trim "  a b	", Js.toLowerCase "A.Zip", Js.ofZ 1700000000123, Js.ofNat 0,
   Js.join ", " ["a"; "b"; "c"], Js.uniq [] ["a"; "b"; "a"],
   Js.includes "/x/__MACOSX/y" "/__MACOSX/")
  = ("a b", "a.zip", "1700000000123", "0", "a, b, c", ["a"; "b"], true).
Proof. reflexivity. Qed.

(** ** Paths made of plain components *)

Section PlainPaths.

Lemma chars_app a b : Js.chars (a +:+ b) = Js.chars a ++ Js.chars b.
Proof.
  induction a as [|c a IH]; [reflexivity|].
  change (String c a +:+ b) with (String c (a +:+ b)).
  unfold Js.chars in *. simpl. now rewrite IH.
Qed.

Lemma str_chars s : Js.str (Js.chars s) = s.
Proof. apply string_of_list_ascii_of_string. Qed.

Lemma chars_str l : Js.chars (Js.str l) = l.
Proof. apply list_ascii_of_string_of_list_ascii. Qed.

Lemma append_assoc a b c : (a +:+ b) +:+ c = a +:+ (b +:+ c).
Proof.
  induction a as [|x a IH]; [reflexivity|].
  change (String x a +:+ b) with (String x (a +:+ b)).
  change (String x (a +:+ b) +:+ c) with (String x ((a +:+ b) +:+ c)).
  change (String x a +:+ (b +:+ c)) with (String x (a +:+ (b +:+ c))).
  now rewrite IH.
Qed.

Lemma plain_inv name :
  plain name = true ->
  (exists c r, Js.chars name = c :: r) /\
  existsb Path.is_slash (Js.chars name) = false /\
  String.eqb name "" = false /\ String.eqb name "." = false /\
  String.eqb name ".." = false.
Proof.
  unfold plain. rewrite !andb_true_iff, !negb_true_iff.
  intros [[[Hlen Hslash] Hdot] Hdots].
  repeat split; try assumption.
  - destruct name as [|c name]; [discriminate|]. now exists c, (Js.chars name).
  - destruct name; [discriminate | reflexivity].
Qed.

Lemma split_slash_run n cur rest :
  existsb Path.is_slash n = false ->
  Path.split_slash cur (n ++ rest) = Path.split_slash (rev n ++ cur) rest.
Proof.
  revert cur. induction n as [|c n IH]; intros cur Hn; [reflexivity|].
  simpl in Hn. apply orb_false_iff in Hn as [Hc Hn].
  simpl. rewrite Hc, (IH _ Hn), <- app_assoc. reflexivity.
Qed.

Lemma span_segment_run n rest :
  existsb Path.is_slash n = false ->
  Path.span_segment (n ++ Path.slash :: rest) = (n, Path.slash :: rest).
Proof.
  induction n as [|c n IH]; intros Hn; [reflexivity|].
  simpl in Hn. apply orb_false_iff in Hn as [Hc Hn].
  simpl. now rewrite Hc, (IH Hn).
Qed.

Lemma existsb_rev {A} (f : A -> bool) l : existsb f (rev l) = existsb f l.
Proof.
  induction l as [|a l IH]; [reflexivity|].
  simpl. rewrite existsb_app, IH. simpl. rewrite orb_false_r. apply orb_comm.
Qed.

Lemma join_cons sep x y l :
  Js.join sep (x :: y :: l) = x +:+ sep +:+ Js.join sep (y :: l).
Proof. reflexivity. Qed.

Lemma join_snoc sep l x :
  l <> [] -> Js.join sep (l ++ [x]) = Js.join sep l +:+ sep +:+ x.
Proof.
  induction l as [|a l IH]; [congruence|]. intros _.
  destruct l as [|b l]; [reflexivity|].
  change ((a :: b :: l) ++ [x]) with (a :: (b :: l) ++ [x]).
  change ((b :: l) ++ [x]) with (b :: l ++ [x]) at 1.
  rewrite !join_cons. change (b :: l ++ [x]) with ((b :: l) ++ [x]).
  rewrite IH by discriminate. now rewrite !append_assoc.
Qed.

Lemma segments_join segs :
  Forall (fun seg => plain seg = true) segs -> segs <> [] ->
  Path.split_slash [] (Js.chars (Js.join "/" segs)) = segs.
Proof.
  induction segs as [|x l IH]; [congruence|]. intros Hp _.
  apply Forall_cons in Hp as [Hx Hl].
  destruct (plain_inv x Hx) as (_ & Hslash & _).
  destruct l as [|y l].
  - cbn [Js.join]. rewrite <- (app_nil_r (Js.chars x)), split_slash_run by assumption.
    cbn [Path.split_slash]. now rewrite app_nil_r, rev_involutive, str_chars.
  - rewrite join_cons, !chars_app, split_slash_run by assumption.
    change (Js.chars "/" ++ ?l) with (Path.slash :: l).
    cbn [Path.split_slash]. change (Path.is_slash Path.slash) with true. cbn iota.
    rewrite app_nil_r, rev_involutive, str_chars. f_equal.
    apply IH; [assumption | discriminate].
Qed.

Lemma normalize_rev_plain above acc segs :
  Forall (fun seg => plain seg = true) segs ->
  Path.normalize_rev above acc segs = rev segs ++ acc.
Proof.
  revert acc. induction segs as [|x l IH]; intros acc Hp; [reflexivity|].
  apply Forall_cons in Hp as [Hx Hl].
  destruct (plain_inv x Hx) as (_ & _ & He & Hd & Hdd).
  cbn [Path.normalize_rev]. rewrite He, Hd, Hdd. cbn [orb].
  rewrite (IH _ Hl). cbn [rev]. now rewrite <- app_assoc.
Qed.

Lemma join_nonempty sep x l c r :
  Js.chars x = c :: r -> exists r', Js.chars (Js.join sep (x :: l)) = c :: r'.
Proof.
  intros Hx. destruct l as [|y l].
  - cbn [Js.join]. eauto.
  - rewrite join_cons, chars_app, Hx. simpl. eauto.
Qed.

Lemma ends_plain pre x : plain x = true -> Js.endsWith (pre +:+ x) "/" = false.
Proof.
  intros Hx. destruct (plain_inv x Hx) as (_ & Hslash & _).
  unfold Js.endsWith. rewrite chars_app, rev_app_distr.
  rewrite <- existsb_rev in Hslash.
  destruct (plain_inv x Hx) as ((c & r & Hc) & _).
  assert (Hne : rev (Js.chars x) <> []).
  { rewrite Hc. simpl. now destruct (rev r). }
  destruct (rev (Js.chars x)) as [|d t]; [congruence|].
  simpl in Hslash. apply orb_false_iff in Hslash as [Hd _].
  unfold Path.is_slash, Path.slash in Hd. rewrite Ascii.eqb_sym in Hd.
  change (rev (Js.chars "/")) with ["/"%char].
  cbn [app Js.is_prefix]. now rewrite Hd.
Qed.

Lemma render_snoc segs name :
  segs <> [] -> render (segs ++ [name]) = render segs +:+ "/" +:+ name.
Proof.
  intros Hne. unfold render. rewrite (join_snoc _ _ _ Hne).
  now rewrite !append_assoc.
Qed.

Lemma render_ends segs :
  Forall (fun seg => plain seg = true) segs -> segs <> [] ->
  Js.endsWith (render segs) "/" = false.
Proof.
  intros Hp Hne. destruct (exists_last Hne) as (l & x & ->).
  apply Forall_app in Hp as [_ Hx]. apply Forall_cons in Hx as [Hx _].
  destruct l as [|y l].
  - unfold render. cbn [app Js.join]. now apply ends_plain.
  - rewrite render_snoc by discriminate.
    rewrite <- append_assoc. now apply ends_plain.
Qed.

(** A rendered path is normalized already. *)
Lemma normalize_render segs :
  Forall (fun seg => plain seg = true) segs -> segs <> [] ->
  Path.normalize (render segs) = render segs.
Proof.
  intros Hp Hne. unfold Path.normalize.
  change (String.length (render segs) =? 0)%nat with false. cbv iota.
  change (Path.isAbsolute (render segs)) with true.
  rewrite (render_ends _ Hp Hne). cbn [negb].
  assert (Hbody : Path.normalizeString (render segs) false = Js.join "/" segs).
  { unfold Path.normalizeString, Path.segments.
    change (Js.chars (render segs)) with (Path.slash :: Js.chars (Js.join "/" segs)).
    cbn [Path.split_slash]. change (Path.is_slash Path.slash) with true. cbv iota.
    rewrite (segments_join _ Hp Hne).
    cbn [Path.normalize_rev rev Js.str string_of_list_ascii String.eqb orb].
    rewrite (normalize_rev_plain _ _ _ Hp), app_nil_r, rev_involutive. reflexivity. }
  rewrite Hbody.
  destruct segs as [|x l]; [congruence|].
  apply Forall_cons in Hp as [Hx _].
  destruct (plain_inv x Hx) as ((c & r & Hc) & _).
  destruct (join_nonempty "/" x l c r Hc) as (r' & Hj).
  assert (Hlen : (String.length (Js.join "/" (x :: l)) =? 0)%nat = false).
  { rewrite <- (str_chars (Js.join "/" (x :: l))), Hj. reflexivity. }
  rewrite Hlen. reflexivity.
Qed.

(** [path.join] of a rendered path and a plain name appends the name. *)
Lemma join_render segs name :
  Forall (fun seg => plain seg = true) segs -> segs <> [] -> plain name = true ->
  Path.join [render segs; name] = render (segs ++ [name]).
Proof.
  intros Hp Hne Hn. unfold Path.join.
  destruct (plain_inv name Hn) as ((c & r & Hc) & _).
  assert (Hlen : (String.length name =? 0)%nat = false).
  { rewrite <- (str_chars name), Hc. reflexivity. }
  cbn [List.filter]. change (String.length (render segs) =? 0)%nat with false.
  rewrite Hlen. cbn [negb Js.join].
  rewrite <- (render_snoc _ _ Hne). apply normalize_render.
  - apply Forall_app. split; [assumption | now constructor].
  - now destruct segs.
Qed.

Lemma rev_chars_head x :
  plain x = true ->
  exists d t, rev (Js.chars x) = d :: t /\ Path.is_slash d = false /\
              existsb Path.is_slash (rev (Js.chars x)) = false.
Proof.
  intros Hx. destruct (plain_inv x Hx) as ((c & r & Hc) & Hslash & _).
  rewrite <- existsb_rev in Hslash.
  assert (Hne : rev (Js.chars x) <> []).
  { rewrite Hc. simpl. now destruct (rev r). }
  destruct (rev (Js.chars x)) as [|d t] eqn:E; [congruence|].
  exists d, t. split; [reflexivity|]. split; [|assumption].
  simpl in Hslash. now apply orb_false_iff in Hslash as [Hd _].
Qed.

(** The last component of [pre/name] is [name]. *)
Lemma rev_base_child pre name :
  plain name = true -> Path.rev_base (pre +:+ "/" +:+ name) = rev (Js.chars name).
Proof.
  intros Hn. destruct (rev_chars_head name Hn) as (d & t & E & Hd & Hall).
  unfold Path.rev_base. rewrite !chars_app, !rev_app_distr.
  change (rev (Js.chars "/")) with [Path.slash]. rewrite <- app_assoc.
  cbn [app].
  assert (Hdrop : forall X, Path.drop_slashes (rev (Js.chars name) ++ X)
                            = rev (Js.chars name) ++ X).
  { intros X. rewrite E. simpl. now rewrite Hd. }
  rewrite Hdrop, span_segment_run by assumption. reflexivity.
Qed.

(** The directory of [dir/name], for a rendered [dir], is [dir]. *)
Lemma dirname_child segs name :
  Forall (fun seg => plain seg = true) segs -> segs <> [] -> plain name = true ->
  Path.dirname (render segs +:+ "/" +:+ name) = render segs.
Proof.
  intros Hp Hne Hn. destruct (rev_chars_head name Hn) as (d & t & E & Hd & Hall).
  unfold Path.dirname. rewrite !chars_app.
  change (Js.chars (render segs)) with (Path.slash :: Js.chars (Js.join "/" segs)).
  cbn [app]. change (Path.is_slash Path.slash) with true.
  rewrite !rev_app_distr. change (rev (Js.chars "/")) with [Path.slash].
  rewrite <- app_assoc. cbn [app].
  assert (Hdrop : forall X, Path.drop_slashes (rev (Js.chars name) ++ X)
                            = rev (Js.chars name) ++ X).
  { intros X. rewrite E. simpl. now rewrite Hd. }
  rewrite Hdrop, span_segment_run by assumption. cbn [snd andb].
  destruct segs as [|x l]; [congruence|].
  apply Forall_cons in Hp as [Hx _].
  destruct (plain_inv x Hx) as ((c & r & Hc) & _).
  destruct (join_nonempty "/" x l c r Hc) as (r' & Hj).
  assert (Hlen : (length (rev (Js.chars (Js.join "/" (x :: l)))) =? 0)%nat = false).
  { rewrite length_rev, Hj. reflexivity. }
  rewrite Hlen, rev_involutive.
  change (Path.slash :: Js.chars (Js.join "/" (x :: l)))
    with (Js.chars (render (x :: l))).
  apply str_chars.
Qed.

End PlainPaths.

(** ** The self-containing archive: its paths *)

Section QuinePaths.
Import Quine.

Lemma segsAt_plain j : Forall (fun seg => plain seg = true) (segsAt j).
Proof.
  constructor; [reflexivity|].
  apply List.Forall_forall. intros x Hx. apply repeat_spec in Hx. now subst x.
Qed.

Lemma segsAt_S j : segsAt (S j) = segsAt j ++ ["r_extracted"].
Proof.
  unfold segsAt. cbn [repeat]. rewrite repeat_cons. reflexivity.
Qed.

Lemma dirAt_S j : dirAt (S j) = dirAt j +:+ "/r_extracted".
Proof.
  unfold dirAt. fold (segsAt (S j)). fold (segsAt j).
  rewrite segsAt_S. now rewrite render_snoc.
Qed.

Lemma join_dir j : Path.join [dirAt j; "r_extracted"] = dirAt (S j).
Proof.
  unfold dirAt. fold (segsAt (S j)). fold (segsAt j). rewrite segsAt_S.
  apply join_render; [apply segsAt_plain | discriminate | reflexivity].
Qed.

Lemma join_zip j : Path.join [dirAt j; "r.zip"] = zipAt j.
Proof.
  unfold zipAt, dirAt. fold (segsAt j).
  rewrite join_render; [| apply segsAt_plain | discriminate | reflexivity].
  now rewrite render_snoc.
Qed.

Lemma length_dirAt j : String.length (dirAt j) = (4 + 12 * j)%nat.
Proof.
  induction j as [|j IH]; [reflexivity|].
  rewrite dirAt_S, length_append, IH.
  change (String.length "/r_extracted") with 12%nat. lia.
Qed.

Lemma length_zipAt j : String.length (zipAt j) = (10 + 12 * j)%nat.
Proof.
  unfold zipAt. rewrite length_append, length_dirAt.
  change (String.length "/r.zip") with 6%nat. lia.
Qed.

End QuinePaths.

(** * Further properties of the extraction script *)

(** ** What the directory walks return *)

Section Walks.
Context {W : Type} `{Host W}.

Lemma pop_some {A} (stack stack' : list A) x :
  pop stack = Some (stack', x) -> stack = stack' ++ [x].
Proof.
  unfold pop. destruct (rev stack) as [|y r] eqn:E; [discriminate|].
  intros [= <- <-]. rewrite <- (rev_involutive stack), E. reflexivity.
Qed.

Lemma pop_none {A} (stack : list A) : pop stack = None -> stack = [].
Proof.
  unfold pop. destruct (rev stack) as [|y r] eqn:E; [|discriminate].
  intros _. rewrite <- (rev_involutive stack), E. reflexivity.
Qed.

(** The [for] loop of [listFilesRecursive] pushes the directories and
    appends the regular files, in the order of the listing. *)
Lemma filesOfEntries_spec current entries : forall stack out,
  filesOfEntries current entries stack out
  = (stack ++ List.map (fun e => Path.join [current; d_name e])
                (List.filter (fun e => isDirectory (d_kind e)) entries),
     out ++ List.map (fun e => Path.join [current; d_name e])
              (List.filter (fun e => isFile (d_kind e)) entries)).
Proof.
  induction entries as [|e entries IH]; intros stack out.
  - cbn. now rewrite !app_nil_r.
  - cbn [filesOfEntries List.filter]. destruct (d_kind e); cbn [isDirectory isFile];
      rewrite IH; cbn [List.map]; now rewrite <- ?app_assoc.
Qed.

Lemma dirsOfEntries_spec current entries : forall stack out,
  dirsOfEntries current entries stack out
  = (stack ++ List.map (fun e => Path.join [current; d_name e])
                (List.filter (fun e => isDirectory (d_kind e)) entries),
     out ++ List.map (fun e => Path.join [current; d_name e])
              (List.filter (fun e => isDirectory (d_kind e)) entries)).
Proof.
  induction entries as [|e entries IH]; intros stack out.
  - cbn. now rewrite !app_nil_r.
  - cbn [dirsOfEntries List.filter]. destruct (d_kind e); cbn [isDirectory negb];
      rewrite IH; cbn [List.map]; now rewrite <- ?app_assoc.
Qed.

Lemma in_joined (k : kind) (test : kind -> bool) current entries p :
  (forall k', test k' = true <-> k' = k) ->
  In p (List.map (fun e => Path.join [current; d_name e])
          (List.filter (fun e => test (d_kind e)) entries)) <->
  exists name, In (mkDirent name k) entries /\ p = Path.join [current; name].
Proof.
  intros Htest. rewrite in_map_iff. split.
  - intros ([name k'] & <- & Hin). apply filter_In in Hin as [Hin Hk].
    cbn [d_kind] in Hk. apply Htest in Hk. subst k'. eauto.
  - intros (name & Hin & ->). exists (mkDirent name k). split; [reflexivity|].
    apply filter_In. split; [assumption|]. now apply Htest.
Qed.

Lemma isFile_iff k : isFile k = true <-> k = KFile.
Proof. destruct k; cbn; split; congruence. Qed.

Lemma isDirectory_iff k : isDirectory k = true <-> k = KDir.
Proof. destruct k; cbn; split; congruence. Qed.

Lemma reachedFrom_trans (w : W) a b c :
  reachedFrom w a b -> reachedFrom w b c -> reachedFrom w a c.
Proof.
  induction 1 as [|root entries name dir Hr Hin _ IH]; [auto|].
  intros Hc. eapply reached_below; eauto.
Qed.

Lemma reachedFrom_step (w : W) root dir entries name :
  reachedFrom w root dir -> readdir dir w = inr entries ->
  In (mkDirent name KDir) entries ->
  reachedFrom w root (Path.join [dir; name]).
Proof.
  intros Hr He Hin. apply (reachedFrom_trans w root dir); [assumption|].
  eapply reached_below; eauto. constructor.
Qed.

Lemma entryBelow_from (w : W) k root dir p :
  reachedFrom w root dir -> entryBelow w k dir p -> entryBelow w k root p.
Proof.
  intros Hr (d & es & name & Hd & He & Hin & ->).
  exists d, es, name. split; [|auto]. now apply (reachedFrom_trans w root dir).
Qed.

Lemma listFilesLoop_sound (root : string) fuel : forall stack out res (s s' : state W),
  listFilesLoop fuel stack out s = Ok res s' ->
  (forall d, In d stack -> reachedFrom (world s) root d) ->
  (forall f, In f out -> entryBelow (world s) KFile root f) ->
  forall f, In f res -> entryBelow (world s) KFile root f.
Proof.
  induction fuel as [|fuel IH]; intros stack out res s s' E Hstack Hout; [discriminate|].
  cbn [listFilesLoop] in E. destruct (pop stack) as [[stack' current]|] eqn:Epop.
  - apply pop_some in Epop. subst stack.
    unfold bind, readdirM in E.
    destruct (readdir current (world s)) as [e|entries] eqn:Er; [discriminate|].
    rewrite filesOfEntries_spec in E.
    assert (Hcur : reachedFrom (world s) root current)
      by (apply Hstack, in_or_app; right; now left).
    apply (IH _ _ _ _ _ E).
    + intros d Hd. apply in_app_or in Hd as [Hd|Hd].
      * apply Hstack, in_or_app. now left.
      * apply (in_joined KDir isDirectory) in Hd as (name & Hin & ->);
          [|apply isDirectory_iff].
        eapply reachedFrom_step; eauto.
    + intros f Hf. apply in_app_or in Hf as [Hf|Hf]; [now apply Hout|].
      apply (in_joined KFile isFile) in Hf as (name & Hin & ->); [|apply isFile_iff].
      exists current, entries, name. auto.
  - injection E as <- _. exact Hout.
Qed.

Lemma listFilesLoop_complete fuel : forall stack out res (s s' : state W),
  listFilesLoop fuel stack out s = Ok res s' ->
  (forall f, In f out -> In f res) /\
  forall d f, In d stack -> entryBelow (world s) KFile d f -> In f res.
Proof.
  induction fuel as [|fuel IH]; intros stack out res s s' E; [discriminate|].
  cbn [listFilesLoop] in E. destruct (pop stack) as [[stack' current]|] eqn:Epop.
  - apply pop_some in Epop. subst stack.
    unfold bind, readdirM in E.
    destruct (readdir current (world s)) as [e|entries] eqn:Er; [discriminate|].
    rewrite filesOfEntries_spec in E.
    destruct (IH _ _ _ _ _ E) as [Hout Hstack].
    split; [intros f Hf; apply Hout, in_or_app; now left|].
    intros d f Hd Hf. apply in_app_or in Hd as [Hd|[<-|[]]].
    + apply (Hstack d); [apply in_or_app; now left | assumption].
    + destruct Hf as (dir & es & name & Hr & He & Hin & ->).
      inversion Hr as [|? entries' name' ? Hr' Hin' Hrest]; subst.
      * rewrite Er in He. injection He as <-.
        apply Hout, in_or_app. right.
        apply (in_joined KFile isFile); [apply isFile_iff | eauto].
      * rewrite Er in Hr'. injection Hr' as <-.
        apply (Hstack (Path.join [current; name'])).
        -- apply in_or_app. right.
           apply (in_joined KDir isDirectory); [apply isDirectory_iff | eauto].
        -- exists dir, es, name. auto.
  - apply pop_none in Epop. subst stack. injection E as <- _.
    split; [auto|]. intros d f [].
Qed.

Lemma listDirsLoop_sound (root : string) fuel : forall stack out res (s s' : state W),
  listDirsLoop fuel stack out s = Ok res s' ->
  (forall d, In d stack -> reachedFrom (world s) root d) ->
  (forall f, In f out -> entryBelow (world s) KDir root f) ->
  forall f, In f res -> entryBelow (world s) KDir root f.
Proof.
  induction fuel as [|fuel IH]; intros stack out res s s' E Hstack Hout; [discriminate|].
  cbn [listDirsLoop] in E. destruct (pop stack) as [[stack' current]|] eqn:Epop.
  - apply pop_some in Epop. subst stack.
    unfold bind, readdirM in E.
    destruct (readdir current (world s)) as [e|entries] eqn:Er; [discriminate|].
    rewrite dirsOfEntries_spec in E.
    assert (Hcur : reachedFrom (world s) root current)
      by (apply Hstack, in_or_app; right; now left).
    apply (IH _ _ _ _ _ E).
    + intros d Hd. apply in_app_or in Hd as [Hd|Hd].
      * apply Hstack, in_or_app. now left.
      * apply (in_joined KDir isDirectory) in Hd as (name & Hin & ->);
          [|apply isDirectory_iff].
        eapply reachedFrom_step; eauto.
    + intros f Hf. apply in_app_or in Hf as [Hf|Hf]; [now apply Hout|].
      apply (in_joined KDir isDirectory) in Hf as (name & Hin & ->);
        [|apply isDirectory_iff].
      exists current, entries, name. auto.
  - injection E as <- _. exact Hout.
Qed.

Lemma listDirsLoop_complete fuel : forall stack out res (s s' : state W),
  listDirsLoop fuel stack out s = Ok res s' ->
  (forall f, In f out -> In f res) /\
  forall d f, In d stack -> entryBelow (world s) KDir d f -> In f res.
Proof.
  induction fuel as [|fuel IH]; intros stack out res s s' E; [discriminate|].
  cbn [listDirsLoop] in E. destruct (pop stack) as [[stack' current]|] eqn:Epop.
  - apply pop_some in Epop. subst stack.
    unfold bind, readdirM in E.
    destruct (readdir current (world s)) as [e|entries] eqn:Er; [discriminate|].
    rewrite dirsOfEntries_spec in E.
    destruct (IH _ _ _ _ _ E) as [Hout Hstack].
    split; [intros f Hf; apply Hout, in_or_app; now left|].
    intros d f Hd Hf. apply in_app_or in Hd as [Hd|[<-|[]]].
    + apply (Hstack d); [apply in_or_app; now left | assumption].
    + destruct Hf as (dir & es & name & Hr & He & Hin & ->).
      inversion Hr as [|? entries' name' ? Hr' Hin' Hrest]; subst.
      * rewrite Er in He. injection He as <-.
        apply Hout, in_or_app. right.
        apply (in_joined KDir isDirectory); [apply isDirectory_iff | eauto].
      * rewrite Er in Hr'. injection Hr' as <-.
        apply (Hstack (Path.join [current; name'])).
        -- apply in_or_app. right.
           apply (in_joined KDir isDirectory); [apply isDirectory_iff | eauto].
        -- exists dir, es, name. auto.
  - apply pop_none in Epop. subst stack. injection E as <- _.
    split; [auto|]. intros d f [].
Qed.

(** X1: when [listFilesRecursive] returns, it returns exactly the
    regular files of [dirPath] and of the directories below it: a path
    is listed if and only if it is [path.join(dir, name)] for an entry
    [name] that is a file in a directory [dir] reached from [dirPath]
    through entries that are directories.  Entries that are neither
    (links, sockets) are not listed and not entered. *)
Theorem listFilesRecursive_lists_the_files
    (walk : nat) (dirPath : string) (s : state W) (files : list string) (s' : state W) :
  listFilesRecursive walk dirPath s = Ok files s' ->
  forall p, In p files <-> entryBelow (world s) KFile dirPath p.
Proof.
  intros E p. rewrite listFilesRecursive_eq in E.
  destruct (listFilesLoop walk [dirPath] [] s) as [res s1| | |] eqn:El; try discriminate.
  injection E as <- _. split.
  - apply (listFilesLoop_sound dirPath _ _ _ _ _ _ El).
    + intros d [<-|[]]. constructor.
    + intros f [].
  - intros Hp. apply (proj2 (listFilesLoop_complete _ _ _ _ _ _ El) dirPath);
      [now left | assumption].
Qed.

(** X2: when [listDirsRecursive] returns, it returns exactly the
    directories below [dirPath], [dirPath] itself left out: a path is
    listed if and only if it is [path.join(dir, name)] for an entry
    [name] that is a directory in [dirPath] or in a directory reached
    from it. *)
Theorem listDirsRecursive_lists_the_directories
    (walk : nat) (dirPath : string) (s : state W) (dirs : list string) (s' : state W) :
  listDirsRecursive walk dirPath s = Ok dirs s' ->
  forall p, In p dirs <-> entryBelow (world s) KDir dirPath p.
Proof.
  intros E p. unfold listDirsRecursive in E. split.
  - apply (listDirsLoop_sound dirPath _ _ _ _ _ _ E).
    + intros d [<-|[]]. constructor.
    + intros f [].
  - intros Hp. apply (proj2 (listDirsLoop_complete _ _ _ _ _ _ E) dirPath);
      [now left | assumption].
Qed.

End Walks.

(** ** The nested-extraction loop ends *)

Section Numbering.

Lemma numberOf_inj a b : numberOf a = numberOf b -> a = b.
Proof.
  revert b. induction a as [|c a IH]; intros [|d b]; cbn [numberOf];
    [reflexivity | lia | lia |].
  intros E.
  pose proof (nat_ascii_bounded c) as Hc. pose proof (nat_ascii_bounded d) as Hd.
  assert (nat_of_ascii c = nat_of_ascii d /\ numberOf a = numberOf b) as [Hcd Hab] by lia.
  f_equal; [|now apply IH].
  rewrite <- (ascii_nat_embedding c), <- (ascii_nat_embedding d). now rewrite Hcd.
Qed.

Lemma numberOf_bound limit : forall p,
  (String.length p <= limit)%nat -> (numberOf p < 257 ^ limit)%nat.
Proof.
  induction limit as [|limit IH]; intros [|c p] Hp; cbn [String.length numberOf] in *.
  - cbn. lia.
  - lia.
  - pose proof (Nat.pow_nonzero 257 (S limit)). lia.
  - pose proof (nat_ascii_bounded c) as Hc.
    assert (Hn : (numberOf p < 257 ^ limit)%nat) by (apply IH; lia).
    rewrite Nat.pow_succ_r'. lia.
Qed.

(** There are at most [257 ^ limit] distinct strings of at most [limit]
    code units. *)
Lemma bounded_strings (limit : nat) (zs : list string) :
  List.NoDup zs -> (forall z, In z zs -> (String.length z <= limit)%nat) ->
  (length zs <= 257 ^ limit)%nat.
Proof.
  intros Hnd Hlen.
  pose proof (List.NoDup_incl_length (l := List.map numberOf zs)
                (l' := seq 0 (257 ^ limit))) as Hcount.
  rewrite length_map, length_seq in Hcount. apply Hcount.
  - apply Finite.Injective_map_NoDup; [|assumption].
    intros a b. apply numberOf_inj.
  - intros n Hn. apply in_map_iff in Hn as (z & <- & Hz).
    apply in_seq. pose proof (numberOf_bound limit z (Hlen z Hz)). lia.
Qed.

End Numbering.

Section WalksEnd.
Context {W : Type} `{Host W}.

Lemma pop_snoc {A} (l : list A) x : pop (l ++ [x]) = Some (l, x).
Proof. unfold pop. rewrite rev_app_distr. cbn. now rewrite rev_involutive. Qed.

Lemma child_of_plainPath d name :
  plainPath d -> plain name = true ->
  plainPath (Path.join [d; name]) /\
  (String.length d < String.length (Path.join [d; name]))%nat.
Proof.
  intros (segs & Hne & Hp & ->) Hname. rewrite join_render by assumption. split.
  - exists (segs ++ [name]). split; [now destruct segs|]. split; [|reflexivity].
    apply List.Forall_app. split; [assumption|]. now constructor.
  - rewrite render_snoc by assumption. rewrite !length_append. cbn. lia.
Qed.

(** The directories below a plain path on a host with a path limit:
    every child is deeper than its parent and within the limit. *)
Lemma children_below limit (w : W) d entries n :
  listingsWithin limit -> plainListings ->
  plainPath d -> (limit + 1 - String.length d < S n)%nat ->
  readdir d w = inr entries ->
  List.Forall (fun c => plainPath c /\ (limit + 1 - String.length c < n)%nat)
    (List.map (fun e => Path.join [d; d_name e])
       (List.filter (fun e => isDirectory (d_kind e)) entries)).
Proof.
  intros Hwithin Hplain Hd Hbudget Hread. apply List.Forall_forall. intros c Hc.
  apply (in_joined KDir isDirectory) in Hc as (name & Hin & ->); [|apply isDirectory_iff].
  destruct (child_of_plainPath d name Hd (Hplain _ _ _ _ _ Hread Hin)) as [Hchild Hlonger].
  split; [assumption|].
  pose proof (Hwithin _ _ _ _ _ Hread Hin). lia.
Qed.

(** A walk of the files ends: the directories [ds] on top of the stack
    are dealt with, their subtrees included, within [N] steps. *)
Lemma listFilesLoop_ends limit (w : W) :
  listingsWithin limit -> plainListings ->
  forall n ds,
    List.Forall (fun d => plainPath d /\ (limit + 1 - String.length d < n)%nat) ds ->
    exists N, forall stack out (s : state W), world s = w ->
      (exists out', forall fuel,
          listFilesLoop (N + fuel) (stack ++ ds) out s = listFilesLoop fuel stack out' s) \/
      (exists e, forall fuel, listFilesLoop (N + fuel) (stack ++ ds) out s = Throw e s).
Proof.
  intros Hwithin Hplain. induction n as [|n IHn]; intros ds Hds.
  - destruct ds as [|d ds].
    + exists O. intros stack out s _. left. exists out. intros fuel.
      now rewrite app_nil_r.
    + apply List.Forall_cons_iff in Hds as [[_ Hd] _]. lia.
  - induction ds as [|d ds IHds] using rev_ind.
    + exists O. intros stack out s _. left. exists out. intros fuel.
      now rewrite app_nil_r.
    + apply List.Forall_app in Hds as [Hds Hd].
      apply List.Forall_cons_iff in Hd as [[Hd Hbudget] _].
      destruct (IHds Hds) as [Nd HNd].
      destruct (readdir d w) as [e|entries] eqn:Hread.
      * exists 1%nat. intros stack out s Hw. right. exists e. intros fuel.
        cbn [Nat.add listFilesLoop]. rewrite app_assoc, pop_snoc.
        unfold bind, readdirM. now rewrite Hw, Hread.
      * destruct (IHn _ (children_below limit w d entries n Hwithin Hplain Hd Hbudget Hread))
          as [Nc HNc].
        exists (S (Nc + Nd)). intros stack out s Hw.
        assert (Hstep : forall fuel,
                  listFilesLoop (S (Nc + Nd) + fuel) (stack ++ ds ++ [d]) out s
                  = listFilesLoop (Nc + (Nd + fuel))
                      ((stack ++ ds)
                       ++ List.map (fun e => Path.join [d; d_name e])
                            (List.filter (fun e => isDirectory (d_kind e)) entries))
                      (out ++ List.map (fun e => Path.join [d; d_name e])
                                (List.filter (fun e => isFile (d_kind e)) entries)) s).
        { intros fuel. cbn [Nat.add listFilesLoop]. rewrite app_assoc, pop_snoc.
          unfold bind, readdirM. rewrite Hw, Hread, filesOfEntries_spec.
          now rewrite Nat.add_assoc. }
        destruct (HNc (stack ++ ds) (out ++ List.map (fun e => Path.join [d; d_name e])
                                           (List.filter (fun e => isFile (d_kind e)) entries))
                      s Hw) as [(out1 & Hc)|(e & Hc)].
        -- destruct (HNd stack out1 s Hw) as [(out2 & Hrest)|(e & Hrest)].
           ++ left. exists out2. intros fuel. now rewrite Hstep, Hc, Hrest.
           ++ right. exists e. intros fuel. now rewrite Hstep, Hc, Hrest.
        -- right. exists e. intros fuel. now rewrite Hstep, Hc.
Qed.

Lemma listDirsLoop_ends limit (w : W) :
  listingsWithin limit -> plainListings ->
  forall n ds,
    List.Forall (fun d => plainPath d /\ (limit + 1 - String.length d < n)%nat) ds ->
    exists N, forall stack out (s : state W), world s = w ->
      (exists out', forall fuel,
          listDirsLoop (N + fuel) (stack ++ ds) out s = listDirsLoop fuel stack out' s) \/
      (exists e, forall fuel, listDirsLoop (N + fuel) (stack ++ ds) out s = Throw e s).
Proof.
  intros Hwithin Hplain. induction n as [|n IHn]; intros ds Hds.
  - destruct ds as [|d ds].
    + exists O. intros stack out s _. left. exists out. intros fuel.
      now rewrite app_nil_r.
    + apply List.Forall_cons_iff in Hds as [[_ Hd] _]. lia.
  - induction ds as [|d ds IHds] using rev_ind.
    + exists O. intros stack out s _. left. exists out. intros fuel.
      now rewrite app_nil_r.
    + apply List.Forall_app in Hds as [Hds Hd].
      apply List.Forall_cons_iff in Hd as [[Hd Hbudget] _].
      destruct (IHds Hds) as [Nd HNd].
      destruct (readdir d w) as [e|entries] eqn:Hread.
      * exists 1%nat. intros stack out s Hw. right. exists e. intros fuel.
        cbn [Nat.add listDirsLoop]. rewrite app_assoc, pop_snoc.
        unfold bind, readdirM. now rewrite Hw, Hread.
      * destruct (IHn _ (children_below limit w d entries n Hwithin Hplain Hd Hbudget Hread))
          as [Nc HNc].
        exists (S (Nc + Nd)). intros stack out s Hw.
        assert (Hstep : forall fuel,
                  listDirsLoop (S (Nc + Nd) + fuel) (stack ++ ds ++ [d]) out s
                  = listDirsLoop (Nc + (Nd + fuel))
                      ((stack ++ ds)
                       ++ List.map (fun e => Path.join [d; d_name e])
                            (List.filter (fun e => isDirectory (d_kind e)) entries))
                      (out ++ List.map (fun e => Path.join [d; d_name e])
                                (List.filter (fun e => isDirectory (d_kind e)) entries)) s).
        { intros fuel. cbn [Nat.add listDirsLoop]. rewrite app_assoc, pop_snoc.
          unfold bind, readdirM. rewrite Hw, Hread, dirsOfEntries_spec.
          now rewrite Nat.add_assoc. }
        destruct (HNc (stack ++ ds) (out ++ List.map (fun e => Path.join [d; d_name e])
                                           (List.filter (fun e => isDirectory (d_kind e)) entries))
                      s Hw) as [(out1 & Hc)|(e & Hc)].
        -- destruct (HNd stack out1 s Hw) as [(out2 & Hrest)|(e & Hrest)].
           ++ left. exists out2. intros fuel. now rewrite Hstep, Hc, Hrest.
           ++ right. exists e. intros fuel. now rewrite Hstep, Hc, Hrest.
        -- right. exists e. intros fuel. now rewrite Hstep, Hc.
Qed.

(** From a plain root, every walk that is long enough gives the same
    result, a list or the error of a listing. *)
Lemma listFilesLoop_settles limit root (s : state W) :
  listingsWithin limit -> plainListings -> plainPath root ->
  exists N,
    (forall l s', listFilesLoop N [root] [] s <> OutOfFuel l s') /\
    forall walk, (N <= walk)%nat ->
      listFilesLoop walk [root] [] s = listFilesLoop N [root] [] s.
Proof.
  intros Hwithin Hplain Hroot.
  destruct (listFilesLoop_ends limit (world s) Hwithin Hplain
              (S (limit + 1 - String.length root)) [root]) as [N HN].
  { constructor; [|constructor]. split; [assumption | lia]. }
  exists (N + 1)%nat.
  destruct (HN [] [] s eq_refl) as [(out & Hrun)|(e & Hrun)]; cbn [app] in Hrun.
  - split; [intros l s'; now rewrite Hrun|].
    intros walk Hwalk. replace walk with (N + S (walk - N - 1))%nat by lia.
    now rewrite !Hrun.
  - split; [intros l s'; now rewrite Hrun|].
    intros walk Hwalk. replace walk with (N + (walk - N))%nat by lia.
    now rewrite !Hrun.
Qed.

Lemma listDirsLoop_settles limit root (s : state W) :
  listingsWithin limit -> plainListings -> plainPath root ->
  exists N,
    (forall l s', listDirsLoop N [root] [] s <> OutOfFuel l s') /\
    forall walk, (N <= walk)%nat ->
      listDirsLoop walk [root] [] s = listDirsLoop N [root] [] s.
Proof.
  intros Hwithin Hplain Hroot.
  destruct (listDirsLoop_ends limit (world s) Hwithin Hplain
              (S (limit + 1 - String.length root)) [root]) as [N HN].
  { constructor; [|constructor]. split; [assumption | lia]. }
  exists (N + 1)%nat.
  destruct (HN [] [] s eq_refl) as [(out & Hrun)|(e & Hrun)]; cbn [app] in Hrun.
  - split; [intros l s'; now rewrite Hrun|].
    intros walk Hwalk. replace walk with (N + S (walk - N - 1))%nat by lia.
    now rewrite !Hrun.
  - split; [intros l s'; now rewrite Hrun|].
    intros walk Hwalk. replace walk with (N + (walk - N))%nat by lia.
    now rewrite !Hrun.
Qed.

Lemma bind_throw {A B} (m : M W A) (k : A -> M W B) s e s1 :
  m s = Throw e s1 -> bind m k s = Throw e s1.
Proof. intros E. unfold bind. now rewrite E. Qed.

(** With walks long enough a run of the loop is cut short by nothing
    but its own bound on the passes, and does not depend on the bound of
    the walks. *)
Lemma nestedLoop_settles limit root fuel :
  listingsWithin limit -> plainListings -> plainPath root ->
  forall st (s : state W),
  exists N,
    (forall l s', nestedLoop N fuel root st s = OutOfFuel l s' -> l = InNestedZips) /\
    forall walk, (N <= walk)%nat ->
      nestedLoop walk fuel root st s = nestedLoop N fuel root st s.
Proof.
  intros Hwithin Hplain Hroot. induction fuel as [|fuel IH]; intros st s.
  { exists O. split; [|reflexivity]. cbn. now intros l s' [= <- _]. }
  destruct (listDirsLoop_settles limit root s Hwithin Hplain Hroot) as (N1 & Hno1 & Heq1).
  destruct (listDirsLoop N1 [root] [] s) as [dirs s1|e s1|c s1|l s1] eqn:E1.
  - destruct (chmodEach_run (root :: dirs) 0 s1) as (updated & s2 & _ & Ec & _ & _).
    assert (Hwritable : forall walk, (N1 <= walk)%nat ->
              makeDirectoriesWritable walk root s = Ok updated s2).
    { intros walk Hwalk. unfold makeDirectoriesWritable, listDirsRecursive.
      rewrite (bind_ok _ _ _ _ _ (Heq1 walk Hwalk)). exact Ec. }
    destruct (listFilesLoop_settles limit root s2 Hwithin Hplain Hroot) as (N2 & Hno2 & Heq2).
    destruct (listFilesLoop N2 [root] [] s2) as [files s3|e s3|c s3|l s3] eqn:E2.
    + assert (Hscan : forall walk, (N2 <= walk)%nat ->
                listFilesRecursive walk root s2
                = Ok files (mkState (world s2) (trace s2 ++ [Scan root files]))).
      { intros walk Hwalk. now rewrite listFilesRecursive_eq, (Heq2 walk Hwalk). }
      destruct (pendingOf (processed st) files) as [|p pending] eqn:Ep.
      * assert (Hcanon : forall walk, (Nat.max N1 N2 <= walk)%nat ->
                  nestedLoop walk (S fuel) root st s
                  = Ok st (mkState (world s2) (trace s2 ++ [Scan root files]))).
        { intros walk Hwalk. cbn [nestedLoop].
          rewrite (bind_ok _ _ _ _ _ (Hwritable walk ltac:(lia))).
          rewrite (bind_ok _ _ _ _ _ (Hscan walk ltac:(lia))).
          cbv zeta. now rewrite Ep. }
        exists (Nat.max N1 N2). split.
        -- intros l s'. now rewrite Hcanon.
        -- intros walk Hwalk. now rewrite !Hcanon by lia.
      * destruct (extractPending_run (p :: pending) st
                    (mkState (world s2) (trace s2 ++ [Scan root files])))
          as (st' & s4 & _ & Hx & _).
        destruct (IH st' s4) as (N3 & Hno3 & Heq3).
        assert (Hcanon : forall walk, (Nat.max N1 (Nat.max N2 N3) <= walk)%nat ->
                  nestedLoop walk (S fuel) root st s = nestedLoop N3 fuel root st' s4).
        { intros walk Hwalk. cbn [nestedLoop].
          rewrite (bind_ok _ _ _ _ _ (Hwritable walk ltac:(lia))).
          rewrite (bind_ok _ _ _ _ _ (Hscan walk ltac:(lia))).
          cbv zeta. rewrite Ep. cbn [length Nat.eqb].
          rewrite (bind_ok _ _ _ _ _ Hx). apply Heq3. lia. }
        exists (Nat.max N1 (Nat.max N2 N3)). split.
        -- intros l s'. rewrite Hcanon by lia. apply Hno3.
        -- intros walk Hwalk. now rewrite !Hcanon by lia.
    + assert (Hcanon : forall walk, (Nat.max N1 N2 <= walk)%nat ->
                nestedLoop walk (S fuel) root st s = Throw e s2).
      { intros walk Hwalk. cbn [nestedLoop].
        rewrite (bind_ok _ _ _ _ _ (Hwritable walk ltac:(lia))).
        apply bind_throw. now rewrite listFilesRecursive_eq, (Heq2 walk ltac:(lia)). }
      exists (Nat.max N1 N2). split.
      -- intros l s'. now rewrite Hcanon.
      -- intros walk Hwalk. now rewrite !Hcanon by lia.
    + now apply stays_listFilesLoop in E2.
    + now destruct (Hno2 l s3).
  - assert (Hcanon : forall walk, (N1 <= walk)%nat ->
              nestedLoop walk (S fuel) root st s = Throw e s1).
    { intros walk Hwalk. cbn [nestedLoop]. apply bind_throw.
      unfold makeDirectoriesWritable, listDirsRecursive. apply bind_throw.
      now rewrite (Heq1 walk Hwalk). }
    exists N1. split.
    + intros l s'. now rewrite Hcanon.
    + intros walk Hwalk. now rewrite !Hcanon by lia.
  - now apply stays_listDirsLoop in E1.
  - now destruct (Hno1 l s1).
Qed.

End WalksEnd.

Section Termination.
Context {W : Type} `{Host W}.

Lemma handedOver_scanned scans : forall seen z,
  In z (handedOver seen scans) -> exists files, In files scans /\ In z files.
Proof.
  induction scans as [|files scans IH]; intros seen z; cbn [handedOver]; [intros []|].
  intros [Hz|Hz]%in_app_or.
  - exists files. split; [now left|]. now apply pendingOf_fresh in Hz.
  - destruct (IH _ _ Hz) as (fs & Hfs & Hin). exists fs. split; [now right | assumption].
Qed.

(** On a host with a path limit the loop meets no longer path. *)
Lemma entered_within limit walk fuel root (s : state W) :
  listingsWithin limit ->
  forall z, In z (entered (since s (final (extractNestedZips walk fuel root s)))) ->
            (String.length z <= limit)%nat.
Proof.
  intros Hlimit z. rewrite extractNestedZips_final.
  destruct (nestedLoop_entered walk fuel root (mkNested ∅ 0 0) s) as (ev & Ht & He & Hwalks).
  rewrite (since_app _ _ _ Ht), He. intros Hz.
  apply handedOver_scanned in Hz as (files & Hfiles & Hz).
  apply (proj1 (List.Forall_forall _ _) Hwalks) in Hfiles as (s1 & s2 & Hwalk).
  assert (Hbelow : entryBelow (world s1) KFile root z).
  { apply (listFilesLoop_sound root _ _ _ _ _ _ Hwalk); [| now intros f [] | assumption].
    intros d [<-|[]]. constructor. }
  destruct Hbelow as (dir & entries & name & _ & Hdir & Hname & ->).
  exact (Hlimit _ _ _ _ _ Hdir Hname).
Qed.

(** A run that is not out of passes. *)
Lemma loopEnds_unless_out_of_passes walk fuel root (s : state W) :
  (forall s', extractNestedZips walk fuel root s <> OutOfFuel InNestedZips s') ->
  loopEnds (extractNestedZips walk fuel root s).
Proof.
  intros Hout. pose proof (extractNestedZips_outcome walk fuel root s) as Hr.
  destruct (extractNestedZips walk fuel root s) as [counts s'|e s'|c s'|l s'];
    cbn [loopEnds]; auto.
  intros ->. now apply (Hout s').
Qed.

(** A run that is out of passes has handed a new zip path to the
    extractor in every one of them. *)
Lemma out_of_passes walk fuel root (s s' : state W) :
  extractNestedZips walk fuel root s = OutOfFuel InNestedZips s' ->
  exists zs, NoDup zs /\ length zs = fuel /\
             forall z, In z zs -> In z (entered (since s s')).
Proof.
  intros E.
  destruct (nestedLoop_passes walk fuel root (mkNested ∅ 0 0) s _ eq_refl)
    as (ev & Hrun & Ht).
  unfold extractNestedZips, bind in E.
  destruct (nestedLoop walk fuel root (mkNested ∅ 0 0) s) as [| | |l s1];
    try discriminate.
  injection E as -> ->. cbn [final] in Ht.
  destruct (loopRun_progress _ _ _ _ _ Hrun) as (zs & Hnd & Hlen & Hzs).
  exists zs. rewrite (since_app _ _ _ Ht).
  split; [assumption|]. split; [assumption|]. intros z Hz. now apply Hzs.
Qed.

(** On a host with a path limit the loop is out of passes only when it
    was given too few. *)
Lemma loopEnds_within_limit limit walk fuel root (s : state W) :
  listingsWithin limit -> (257 ^ limit < fuel)%nat ->
  loopEnds (extractNestedZips walk fuel root s).
Proof.
  intros Hlimit Hfuel. apply loopEnds_unless_out_of_passes. intros s' E.
  destruct (out_of_passes _ _ _ _ _ E) as (zs & Hnd & Hlen & Hzs).
  pose proof (entered_within limit walk fuel root s Hlimit) as Hwithin.
  rewrite E in Hwithin. cbn [final] in Hwithin.
  assert (Hcount : (length zs <= 257 ^ limit)%nat).
  { apply bounded_strings; [now apply NoDup_ListNoDup | auto]. }
  lia.
Qed.

(** C2: the passes of a run of the loop are as the claim describes
    them: a pass either finds nothing pending and the loop stops, or it
    hands the extractor every pending zip, at least one, none of them
    processed before, and adds them to the processed set.  A run that
    is out of passes has therefore extracted as many distinct zip paths
    as it had passes, and the loop ends whenever these paths are
    finitely many: within [size U + 1] passes when they stay in a
    finite set [U], and, on every host that lists no path longer than
    [limit], within [257 ^ limit + 1] passes whatever the tree holds
    and whatever the archives unpack.  On such a host, when the names
    it lists are plain and the root is a normalized absolute path, the
    directory walks end as well: given that many passes and walks long
    enough, the loop returns, with its counts or with the error of a
    directory listing. *)
Theorem loop_ends_within_finite_paths (walk fuel : nat) (root : string) (s : state W) :
  let r := extractNestedZips walk fuel root s in
  (exists ev,
     loopRun root fuel (mkNested ∅ 0 0) (nestedLoop walk fuel root (mkNested ∅ 0 0) s) ev /\
     since s (final r) = ev) /\
  (forall s', r = OutOfFuel InNestedZips s' ->
     exists zs, NoDup zs /\ length zs = fuel /\
                forall z, In z zs -> In z (entered (since s s'))) /\
  (forall U : gset string,
     (forall z, In z (entered (since s (final r))) -> z ∈ U) ->
     (size U < fuel)%nat ->
     loopEnds r) /\
  (forall limit : nat,
     listingsWithin (W:=W) limit ->
     (257 ^ limit < fuel)%nat ->
     loopEnds r /\
     (plainListings (W:=W) -> plainPath root ->
      exists enough, forall walk', (enough <= walk')%nat ->
        loopReturns (extractNestedZips walk' fuel root s))).
Proof.
  cbv zeta. split; [|split; [apply out_of_passes | split]].
  - destruct (nestedLoop_passes walk fuel root (mkNested ∅ 0 0) s _ eq_refl)
      as (ev & Hrun & Ht).
    exists ev. split; [exact Hrun|]. rewrite extractNestedZips_final.
    now apply since_app.
  - intros U HU Hsize. apply loopEnds_unless_out_of_passes. intros s' E.
    destruct (out_of_passes _ _ _ _ _ E) as (zs & Hnd & Hlen & Hzs).
    rewrite E in HU. cbn [final] in HU.
    assert (Hsub : list_to_set zs ⊆ U).
    { intros z Hz. apply elem_of_list_to_set, list_elem_of_In in Hz. auto. }
    apply subseteq_size in Hsub. rewrite size_list_to_set in Hsub by assumption.
    lia.
  - intros limit Hlimit Hfuel. split; [now apply (loopEnds_within_limit limit)|].
    intros Hplain Hroot.
    destruct (nestedLoop_settles limit root fuel Hlimit Hplain Hroot (mkNested ∅ 0 0) s)
      as (enough & Hpasses & Hsame).
    exists enough. intros walk' Hwalk.
    pose proof (loopEnds_within_limit limit walk' fuel root s Hlimit Hfuel) as Hends.
    unfold extractNestedZips, bind in *. rewrite (Hsame walk' Hwalk) in *.
    destruct (nestedLoop enough fuel root (mkNested ∅ 0 0) s) as [st' s'|e s'|c s'|l s']
      eqn:E; cbn [loopEnds loopReturns] in *; auto.
    apply Hends. now apply (Hpasses l s').
Qed.

End Termination.

(** The host of the self-containing archive lists no path of more than
    [pathMax] code units and a name. *)
Lemma quine_listings_within : listingsWithin (W:=Quine.t) 72.
Proof.
  intros w dir entries name k Hread Hin.
  change (readdir dir w) with (Quine.q_readdir dir w) in Hread.
  unfold Quine.q_readdir, Quine.tooLong, Quine.pathMax in Hread.
  destruct (60 <? String.length dir)%nat eqn:Hlong; [discriminate|].
  apply Nat.ltb_ge in Hlong.
  destruct (Quine.depthOf dir) as [i|] eqn:Hd; [|discriminate].
  apply find_some in Hd as [_ Heq]. apply String.eqb_eq in Heq. subst dir.
  rewrite length_dirAt in Hlong.
  destruct (i <=? Quine.depth w)%nat.
  - injection Hread as <-. destruct Hin as [[= <- <-]|Hin].
    + rewrite join_zip, length_zipAt. lia.
    + destruct ((i <? Quine.depth w)%nat || Quine.fresh w && (i =? Quine.depth w)%nat);
        [|destruct Hin].
      destruct Hin as [[= <- <-]|[]]. rewrite join_dir, length_dirAt. lia.
  - destruct (Quine.fresh w && (i =? S (Quine.depth w))%nat); [|discriminate].
    injection Hread as <-. destruct Hin.
Qed.

Lemma quine_listings_plain : plainListings (W:=Quine.t).
Proof.
  intros w dir entries name k Hread Hin.
  change (readdir dir w) with (Quine.q_readdir dir w) in Hread.
  unfold Quine.q_readdir in Hread.
  destruct (Quine.tooLong dir); [discriminate|].
  destruct (Quine.depthOf dir) as [i|]; [|discriminate].
  destruct (i <=? Quine.depth w)%nat.
  - injection Hread as <-. destruct Hin as [[= <- <-]|Hin]; [reflexivity|].
    destruct ((i <? Quine.depth w)%nat || Quine.fresh w && (i =? Quine.depth w)%nat);
      [|destruct Hin].
    now destruct Hin as [[= <- <-]|[]].
  - destruct (Quine.fresh w && (i =? S (Quine.depth w))%nat); [|discriminate].
    injection Hread as <-. destruct Hin.
Qed.

Lemma loop_ends_witness :
  ((forall z, In z (entered (since Scenario.unpacked
                (final (extractNestedZips 8 8 Scenario.unpackedDir Scenario.unpacked)))) ->
              z ∈ (list_to_set Scenario.nestedZips : gset string)) /\
   (size (list_to_set Scenario.nestedZips : gset string) < 8)%nat /\
   loopEnds (extractNestedZips 8 8 Scenario.unpackedDir Scenario.unpacked) /\
   exists s', extractNestedZips 8 8 Scenario.unpackedDir Scenario.unpacked
              = Ok (2%nat, 1%nat) s') /\
  (listingsWithin (W:=Quine.t) 72 /\ plainListings (W:=Quine.t) /\ plainPath "/out" /\
   (forall fuel (s : state Quine.t),
      (257 ^ 72 < fuel)%nat ->
      exists enough, forall walk, (enough <= walk)%nat ->
        loopReturns (extractNestedZips walk fuel "/out" s)) /\
   exists s', extractNestedZips 16 16 "/out" Quine.start = Ok (4%nat, 1%nat) s' /\
              world s' = Quine.mkWorld 4 false /\
              entered (trace s') = List.map Quine.zipAt (seq 0 5)).
Proof.
  split.
  - assert (HU : forall z, In z (entered (since Scenario.unpacked
                 (final (extractNestedZips 8 8 Scenario.unpackedDir Scenario.unpacked)))) ->
               z ∈ (list_to_set Scenario.nestedZips : gset string)).
    { intros z Hz. apply elem_of_list_to_set, list_elem_of_In.
      revert Hz. vm_compute. exact (fun Hz => Hz). }
    assert (Hsize : (size (list_to_set Scenario.nestedZips : gset string) < 8)%nat).
    { vm_compute. lia. }
    split; [exact HU|]. split; [exact Hsize|]. split.
    + exact (proj1 (proj2 (proj2 (loop_ends_within_finite_paths 8 8 Scenario.unpackedDir
                                    Scenario.unpacked))) _ HU Hsize).
    + eexists. vm_compute. reflexivity.
  - assert (Hroot : plainPath "/out").
    { exists ["out"]. split; [discriminate|]. split; [|reflexivity].
      constructor; [reflexivity | constructor]. }
    split; [exact quine_listings_within|]. split; [exact quine_listings_plain|].
    split; [exact Hroot|]. split.
    + intros fuel s Hfuel.
      exact (proj2 (proj2 (proj2 (proj2 (loop_ends_within_finite_paths 0 fuel "/out" s)))
                      72%nat quine_listings_within Hfuel)
               quine_listings_plain Hroot).
    + eexists. split; [vm_compute; reflexivity|]. split; vm_compute; reflexivity.
Defined.


(** ** Making directories writable, and the cleanup *)

Section Housekeeping.
Context {W : Type} `{Host W}.

Lemma succeeded_app a b : succeeded (a ++ b) = (succeeded a + succeeded b)%nat.
Proof. unfold succeeded. now rewrite List.filter_app, length_app. Qed.

(** The loop of [makeDirectoriesWritable]: one [chmod] for each
    directory, in order, whatever the outcome of the ones before. *)
Lemma chmodEach_counts dirs : forall n (s : state W),
  exists n' s' ev,
    chmodEach dirs n s = Ok n' s' /\ trace s' = trace s ++ ev /\
    mutations ev = List.map (fun d => Chmod d 493) dirs /\
    n' = (n + succeeded ev)%nat /\ (succeeded ev <= length dirs)%nat.
Proof.
  induction dirs as [|d dirs IH]; intros n s; cbn [chmodEach].
  - exists n, s, []. rewrite app_nil_r. cbn. repeat split; lia.
  - unfold bind at 1. unfold tryCatch, bind at 1. unfold sys.
    destruct (perform (Chmod d 493) (world s)) as [[e|] w'].
    + destruct (IH n (mkState w' (trace s ++ [Did (Chmod d 493) (Some e)])))
        as (n' & s' & ev & E & Ht & Hm & Hn & Hle).
      exists n', s', (Did (Chmod d 493) (Some e) :: ev).
      unfold ret. rewrite E. cbn [trace] in Ht. rewrite Ht, <- app_assoc.
      change (Did (Chmod d 493) (Some e) :: ev)
        with ([Did (Chmod d 493) (Some e)] ++ ev).
      rewrite mutations_app, succeeded_app, Hm.
      cbn [length]. repeat split; cbn; lia.
    + destruct (IH (n + 1)%nat (mkState w' (trace s ++ [Did (Chmod d 493) None])))
        as (n' & s' & ev & E & Ht & Hm & Hn & Hle).
      exists n', s', (Did (Chmod d 493) None :: ev).
      unfold ret. cbn [world trace]. rewrite E. cbn [trace] in Ht.
      rewrite Ht, <- app_assoc.
      change (Did (Chmod d 493) None :: ev) with ([Did (Chmod d 493) None] ++ ev).
      rewrite mutations_app, succeeded_app, Hm.
      cbn [length]. repeat split; cbn; lia.
Qed.

(** X3: when the directories below [rootDir] can be listed,
    [makeDirectoriesWritable] calls [chmod] with mode [0o755] once on
    [rootDir] and once on each listed directory, in that order, and
    calls nothing else; a [chmod] that fails is skipped, not raised, and
    the number returned is the number of calls that succeeded. *)
Theorem makeDirectoriesWritable_counts_successes
    (walk : nat) (rootDir : string) (s : state W) (dirs : list string) (s1 : state W) :
  listDirsRecursive walk rootDir s = Ok dirs s1 ->
  exists updated s',
    makeDirectoriesWritable walk rootDir s = Ok updated s' /\
    mutations (since s s') = List.map (fun d => Chmod d 493) (rootDir :: dirs) /\
    updated = succeeded (since s s') /\
    (updated <= S (length dirs))%nat.
Proof.
  intros E. unfold listDirsRecursive in E.
  pose proof (listDirsLoop_state walk [rootDir] [] s) as Hs.
  rewrite E in Hs. cbn [final] in Hs. subst s1.
  destruct (chmodEach_counts (rootDir :: dirs) 0 s)
    as (n' & s' & ev & Ec & Ht & Hm & Hn & Hle).
  exists n', s'. unfold makeDirectoriesWritable, listDirsRecursive, bind.
  rewrite E, Ec, (since_app _ _ _ Ht). cbn [length] in Hle.
  repeat split; [assumption | lia | lia].
Qed.

Lemma emits_removeMetadataFiles files : forall n,
  emits (W:=W) cleanupEvent (removeMetadataFiles files n).
Proof.
  induction files as [|f files IH]; intros n; cbn [removeMetadataFiles].
  - apply emits_ret.
  - destruct (isMacMetadataFile f) eqn:Ef; cbn [negb]; [|apply IH].
    apply emits_bind; [|intros; apply IH].
    apply emits_sys. intros err. exact Ef.
Qed.

Lemma emits_removeMacosxDirs dirs : forall n,
  emits (W:=W) cleanupEvent (removeMacosxDirs dirs n).
Proof.
  induction dirs as [|d dirs IH]; intros n; cbn [removeMacosxDirs].
  - apply emits_ret.
  - destruct (isMacosxDir d) eqn:Ed; cbn [negb]; [|apply IH].
    apply emits_bind; [|intros; apply IH].
    apply emits_sys. intros err. exact Ed.
Qed.

(** X4: whatever the tree and however the cleanup ends,
    [cleanupMacArtifacts] changes the file system by nothing but forced
    removals, of files whose basename is [.DS_Store] or starts with
    [._], and, recursively, of directories whose basename is
    [__MACOSX]; it starts no extraction. *)
Theorem cleanup_removes_only_metadata (walk : nat) (rootOutputDir : string) :
  emits (W:=W) cleanupEvent (cleanupMacArtifacts walk rootOutputDir).
Proof.
  unfold cleanupMacArtifacts.
  apply emits_bind; [apply emits_listFilesRecursive; reflexivity|]. intros files.
  apply emits_bind; [apply emits_removeMetadataFiles|]. intros removedFiles.
  apply emits_bind; [apply emits_listDirsLoop|]. intros dirs.
  apply emits_bind; [apply emits_removeMacosxDirs|]. intros removedDirs.
  apply emits_ret.
Qed.

Lemma removeMetadataFiles_ok files : forall n (s : state W) n' s',
  removeMetadataFiles files n s = Ok n' s' ->
  trace s' = trace s ++ List.map (fun f => Did (Rm f false true) None)
                          (List.filter isMacMetadataFile files) /\
  n' = (n + length (List.filter isMacMetadataFile files))%nat.
Proof.
  induction files as [|f files IH]; intros n s n' s'; cbn [removeMetadataFiles].
  - unfold ret. intros [= <- <-]. simpl. rewrite app_nil_r. split; [reflexivity | lia].
  - cbn [List.filter]. destruct (isMacMetadataFile f); cbn [negb].
    + unfold bind at 1. unfold sys at 1.
      destruct (perform (Rm f false true) (world s)) as [[e|] w']; [discriminate|].
      intros E. apply IH in E as [-> ->]. simpl.
      rewrite <- app_assoc. split; [reflexivity | lia].
    + apply IH.
Qed.

(** X5: when the cleanup returns, every removal it tried has succeeded
    (a path that is missing already counts as removed), and its two
    counters are the number of metadata files in its listing of the
    tree and the number of [__MACOSX] directories it removed. *)
Theorem cleanup_counts_what_it_removed
    (walk : nat) (rootOutputDir : string) (s : state W)
    (removedFiles removedDirs : nat) (s' : state W) :
  cleanupMacArtifacts walk rootOutputDir s = Ok (removedFiles, removedDirs) s' ->
  exists files,
    scans (since s s') = [files] /\
    removedFiles = length (List.filter isMacMetadataFile files) /\
    removedDirs = length (removedTrees (since s s')) /\
    length (mutations (since s s')) = (removedFiles + removedDirs)%nat /\
    succeeded (since s s') = (removedFiles + removedDirs)%nat.
Proof.
  unfold cleanupMacArtifacts. intros E.
  apply bind_inv_ok in E as (files & s1 & E1 & E).
  apply bind_inv_ok in E as (rf & s2 & E2 & E).
  apply bind_inv_ok in E as (dirs & s3 & E3 & E).
  apply bind_inv_ok in E as (rd & s4 & E4 & E).
  injection E as <- <- <-.
  rewrite listFilesRecursive_eq in E1.
  destruct (listFilesLoop walk [rootOutputDir] [] s) as [fs s0| | |]; try discriminate.
  injection E1 as <- <-.
  apply removeMetadataFiles_ok in E2 as [Ht2 ->].
  unfold listDirsRecursive in E3.
  pose proof (listDirsLoop_state walk [rootOutputDir] [] s2) as Hs3.
  rewrite E3 in Hs3. cbn [final] in Hs3. subst s3.
  apply removeMacosxDirs_ok in E4 as [Ht4 ->].
  cbn [trace] in Ht2. rewrite Ht2 in Ht4.
  set (gone := List.filter isMacMetadataFile fs) in *.
  set (trees := List.filter isMacosxDir (Js.sort byLengthDesc dirs)) in *.
  assert (Hsince : since s s4
                   = [Scan rootOutputDir fs]
                     ++ List.map (fun f => Did (Rm f false true) None) gone
                     ++ List.map (fun d => Did (Rm d true true) None) trees).
  { apply since_app. rewrite Ht4, <- !app_assoc. reflexivity. }
  rewrite Hsince. exists fs.
  assert (Hfiles : forall l, scans (List.map (fun f => Did (Rm f false true) None) l) = []
                             /\ removedTrees (List.map (fun f => Did (Rm f false true) None) l) = []
                             /\ length (mutations (List.map (fun f => Did (Rm f false true) None) l)) = length l
                             /\ succeeded (List.map (fun f => Did (Rm f false true) None) l) = length l).
  { induction l as [|x l (I1 & I2 & I3 & I4)]; [repeat split|].
    cbn. unfold succeeded in *. cbn. repeat split; auto. }
  assert (Hdirs : forall l, scans (List.map (fun d => Did (Rm d true true) None) l) = []
                            /\ length (mutations (List.map (fun d => Did (Rm d true true) None) l)) = length l
                            /\ succeeded (List.map (fun d => Did (Rm d true true) None) l) = length l).
  { induction l as [|x l (I1 & I3 & I4)]; [repeat split|].
    cbn. unfold succeeded in *. cbn. repeat split; auto. }
  destruct (Hfiles gone) as (F1 & F2 & F3 & F4).
  destruct (Hdirs trees) as (D1 & D3 & D4).
  repeat split.
  - rewrite !scans_app, F1, D1. reflexivity.
  - unfold removedTrees at 1. rewrite !omap_app. fold (removedTrees [Scan rootOutputDir fs]).
    fold (removedTrees (List.map (fun f => Did (Rm f false true) None) gone)).
    fold (removedTrees (List.map (fun d => Did (Rm d true true) None) trees)).
    rewrite F2, removedTrees_removals. cbn. lia.
  - rewrite !mutations_app, !length_app, F3, D3. cbn. lia.
  - rewrite !succeeded_app, F4, D4. cbn. lia.
Qed.

End Housekeeping.

(** ** More on the resolution of the argument *)

Section SortTies.
Context {A : Type} (key : A -> Z).

(** The head of a stable descending sort is the first element with the
    largest key. *)
Lemma sort_head_first l : forall x r,
  Js.sort (keyDesc key) l = x :: r ->
  exists l1 l2, l = l1 ++ x :: l2 /\
    (forall y, In y l1 -> key y < key x) /\ (forall y, In y l2 -> key y <= key x).
Proof.
  induction l as [|a l IH]; intros x r E; [discriminate|].
  cbn [Js.sort] in E.
  destruct (Js.sort (keyDesc key) l) as [|y r'] eqn:Es.
  - assert (l = []) as ->.
    { apply Permutation_nil. rewrite <- Es. apply sort_perm. }
    cbn in E. injection E as <- <-. exists [], []. repeat split; intros ? [].
  - cbn [Js.insert_sorted] in E. unfold keyDesc at 1 in E.
    destruct (0 <? key y - key a) eqn:Ecmp.
    + injection E as <- _. apply Z.ltb_lt in Ecmp.
      destruct (IH y r' eq_refl) as (l1 & l2 & -> & H1 & H2).
      exists (a :: l1), l2. repeat split; [|assumption].
      intros z [<-|Hz]; [lia | now apply H1].
    + injection E as <- _. apply Z.ltb_ge in Ecmp.
      exists [], l. repeat split; [intros ? []|].
      intros z Hz. pose proof (sort_head_max key l y r' Es z Hz). lia.
Qed.

End SortTies.

Section ResolutionMore.
Context {W : Type} `{Host W}.

Lemma isFile_from_stat p (s : state W) :
  from_option (fun i => isFile (st_kind i)) false
    match stat p (world s) with
    | inl _ => None
    | inr info => Some info
    end = isFileAt p s.
Proof. unfold isFileAt. now destruct (stat p (world s)). Qed.

Lemma isDirectory_from_stat p (s : state W) :
  from_option (fun i => isDirectory (st_kind i)) false
    match stat p (world s) with
    | inl _ => None
    | inr info => Some info
    end = isDirAt p s.
Proof. unfold isDirAt. now destruct (stat p (world s)). Qed.

(** X6: an argument that names an existing regular file, from the
    working directory or else from the upload folder, is resolved to
    that absolute path at once: the upload folder is not searched,
    nothing is logged, and the extension is not looked at.  The path
    from the working directory wins over the one in the upload folder. *)
Theorem existing_file_is_resolved_directly (walk : nat) (arg : string) (s : state W) :
  Js.trim arg <> "" ->
  let directPath := Path.resolve cwd [Js.trim arg] in
  let uploadPath := Path.resolve cwd [UPLOAD_DIR; Js.trim arg] in
  isFileAt directPath s || isFileAt uploadPath s = true ->
  resolveZipFromArgs walk (Some arg) s
  = Ok (if isFileAt directPath s then directPath else uploadPath) s.
Proof.
  intros Hne directPath uploadPath Hfile.
  unfold resolveZipFromArgs. cbn [from_option].
  assert (negb (String.length (Js.trim arg) =? 0)%nat = true) as ->.
  { destruct (Js.trim arg); [congruence | reflexivity]. }
  unfold bind at 1. rewrite statOrNull_run, isFile_from_stat.
  fold directPath. destruct (isFileAt directPath s); [reflexivity|].
  unfold bind at 1. rewrite statOrNull_run, isFile_from_stat.
  fold uploadPath. cbn [orb] in Hfile. now rewrite Hfile.
Qed.

(** X7: with no argument, resolution fails with [upload folder not
    found] when the upload folder is missing or is not a directory, and
    with [no .zip files found] when the folder holds no real zip. *)
Theorem no_argument_errors (walk : nat) (s : state W) :
  (isDirAt UPLOAD_DIR s = false ->
   resolveZipFromArgs walk None s
   = Throw ("upload folder not found: " +:+ UPLOAD_DIR) s) /\
  (forall files,
     isDirAt UPLOAD_DIR s = true ->
     listFilesLoop walk [UPLOAD_DIR] [] s = Ok files s ->
     List.filter isRealZipPath files = [] ->
     resolveZipFromArgs walk None s
     = Throw ("no .zip files found in upload folder: " +:+ UPLOAD_DIR)
         (mkState (world s) (trace s ++ [Scan UPLOAD_DIR files]))).
Proof.
  split.
  - intros Hdir. unfold resolveZipFromArgs. cbn [from_option String.length Nat.eqb negb].
    unfold bind at 1. rewrite statOrNull_run, isDirectory_from_stat, Hdir. reflexivity.
  - intros files Hdir Hlist Hnone.
    unfold resolveZipFromArgs. cbn [from_option String.length Nat.eqb negb].
    unfold bind at 1. rewrite statOrNull_run, isDirectory_from_stat, Hdir. cbn [negb].
    unfold bind at 1. rewrite listFilesRecursive_eq, Hlist, Hnone. reflexivity.
Qed.

Lemma drop_white_head l :
  match Js.drop_white l with
  | [] => True
  | c :: _ => Js.is_white c = false
  end.
Proof.
  induction l as [|c l IH]; [exact I|]. cbn [Js.drop_white].
  destruct (Js.is_white c) eqn:E; [exact IH | exact E].
Qed.

Lemma drop_white_fixed c l : Js.is_white c = false -> Js.drop_white (c :: l) = c :: l.
Proof. intros E. cbn [Js.drop_white]. now rewrite E. Qed.

Lemma drop_white_suffix l : exists pre, l = pre ++ Js.drop_white l.
Proof.
  induction l as [|c l [pre IH]]; [now exists []|]. cbn [Js.drop_white].
  destruct (Js.is_white c); [|now exists []].
  exists (c :: pre). cbn. now rewrite <- IH.
Qed.

(** Trimming twice is trimming once. *)
Lemma trim_idempotent arg : Js.trim (Js.trim arg) = Js.trim arg.
Proof.
  unfold Js.trim. rewrite chars_str.
  set (a := Js.drop_white (Js.chars arg)).
  set (b := Js.drop_white (rev a)).
  assert (Hb : Js.drop_white (rev b) = rev b).
  { pose proof (drop_white_head (Js.chars arg)) as Ha. fold a in Ha.
    destruct a as [|c a'] eqn:Ea; [reflexivity|].
    destruct (drop_white_suffix (rev (c :: a'))) as [pre Hpre]. fold b in Hpre.
    pose proof (drop_white_head (rev (c :: a'))) as Hhead. fold b in Hhead.
    destruct b as [|d b'] eqn:Eb; [reflexivity|].
    assert (Hlast : exists b0, d :: b' = b0 ++ [c]).
    { cbn [rev] in Hpre. destruct (exists_last (l:=d :: b')) as (b0 & z & Hz);
        [discriminate|].
      rewrite Hz, app_assoc in Hpre. apply app_inj_tail in Hpre as [_ ->]. eauto. }
    destruct Hlast as (b0 & ->). rewrite rev_app_distr. cbn [rev app].
    now apply drop_white_fixed. }
  rewrite Hb, rev_involutive.
  assert (Hb2 : Js.drop_white b = b).
  { pose proof (drop_white_head (rev a)) as Hhead. fold b in Hhead.
    destruct b; [reflexivity | now apply drop_white_fixed]. }
  now rewrite Hb2.
Qed.

Lemma drop_white_all pre l :
  forallb Js.is_white pre = true -> Js.drop_white (pre ++ l) = Js.drop_white l.
Proof.
  induction pre as [|c pre IH]; [reflexivity|]. cbn [forallb app Js.drop_white].
  intros [-> Hpre]%andb_true_iff. now apply IH.
Qed.

Lemma drop_white_keeps l post :
  Js.drop_white l <> [] -> Js.drop_white (l ++ post) = Js.drop_white l ++ post.
Proof.
  induction l as [|c l IH]; [now intros []|]. cbn [app Js.drop_white].
  destruct (Js.is_white c); [exact IH | reflexivity].
Qed.

Lemma drop_white_none l : Js.drop_white l = [] -> forallb Js.is_white l = true.
Proof.
  induction l as [|c l IH]; [reflexivity|]. cbn [Js.drop_white forallb].
  destruct (Js.is_white c); [exact IH | discriminate].
Qed.

(** White space around a string does not change what [trim] gives. *)
Lemma trim_padding pre arg post :
  forallb Js.is_white (Js.chars pre) = true ->
  forallb Js.is_white (Js.chars post) = true ->
  Js.trim (pre +:+ arg +:+ post) = Js.trim arg.
Proof.
  intros Hpre Hpost. unfold Js.trim. rewrite !chars_app, (drop_white_all _ _ Hpre).
  assert (Hrev : forallb Js.is_white (rev (Js.chars post)) = true).
  { apply forallb_forall. intros c Hc%in_rev.
    now apply (proj1 (forallb_forall _ _) Hpost). }
  destruct (Js.drop_white (Js.chars arg)) as [|c a] eqn:Ea.
  - apply drop_white_none in Ea.
    replace (Js.drop_white (Js.chars arg ++ Js.chars post)) with (@nil ascii);
      [reflexivity|].
    symmetry. rewrite <- (app_nil_r (Js.chars arg ++ Js.chars post)).
    apply drop_white_all. now rewrite forallb_app, Ea, Hpost.
  - rewrite drop_white_keeps by (rewrite Ea; discriminate).
    rewrite Ea, rev_app_distr. now rewrite (drop_white_all _ _ Hrev).
Qed.

Lemma trim_trimmed arg : trimmed arg = true -> Js.trim arg = arg.
Proof.
  unfold trimmed, Js.trim. intros Harg.
  destruct (Js.chars arg) as [|c a] eqn:Ea.
  - cbn. rewrite <- (str_chars arg), Ea. reflexivity.
  - destruct (rev (c :: a)) as [|d b] eqn:Eb.
    + apply (f_equal (@length ascii)) in Eb. rewrite length_rev in Eb. discriminate.
    + apply andb_true_iff in Harg as [Hc Hd]. apply negb_true_iff in Hc, Hd.
      rewrite (drop_white_fixed _ _ Hc), Eb, (drop_white_fixed _ _ Hd), <- Eb.
      rewrite rev_involutive, <- Ea. apply str_chars.
Qed.

(** X8: white space around the argument is ignored, and only there: an
    argument between any two runs of white space resolves exactly as
    the argument alone does, and when it neither starts nor ends with
    white space it is itself what [trim] leaves of the padded
    argument. *)
Theorem argument_is_trimmed (walk : nat) (pre arg post : string) (s : state W) :
  forallb Js.is_white (Js.chars pre) = true ->
  forallb Js.is_white (Js.chars post) = true ->
  resolveZipFromArgs walk (Some (pre +:+ arg +:+ post)) s
  = resolveZipFromArgs walk (Some arg) s /\
  (trimmed arg = true -> Js.trim (pre +:+ arg +:+ post) = arg).
Proof.
  intros Hpre Hpost. split.
  - unfold resolveZipFromArgs. cbn [from_option]. now rewrite trim_padding.
  - intros Harg. rewrite trim_padding by assumption. now apply trim_trimmed.
Qed.

(** X9: with no argument the zip picked is the first, in the order of
    the directory walk, among the real zips with the latest modification
    time: every real zip listed before it is strictly older, none listed
    after it is newer. *)
Theorem newest_zip_ties_go_to_the_first_listed
    (walk : nat) (s : state W) (p : string) (s' : state W) :
  resolveZipFromArgs walk None s = Ok p s' ->
  exists files before after tp,
    listFilesLoop walk [UPLOAD_DIR] [] s = Ok files s /\
    List.filter isRealZipPath files = before ++ p :: after /\
    mtimeOf s p = Some tp /\
    (forall z, In z before -> exists tz, mtimeOf s z = Some tz /\ tz < tp) /\
    (forall z, In z after -> exists tz, mtimeOf s z = Some tz /\ tz <= tp).
Proof.
  unfold resolveZipFromArgs. cbn [from_option String.length Nat.eqb negb].
  unfold bind at 1. rewrite statOrNull_run.
  destruct (negb _); [discriminate|].
  unfold bind at 1. rewrite listFilesRecursive_eq.
  destruct (listFilesLoop walk [UPLOAD_DIR] [] s) as [files s0| | |] eqn:El;
    try discriminate.
  pose proof (listFilesLoop_state walk [UPLOAD_DIR] [] s) as Hs0.
  rewrite El in Hs0. cbn [final] in Hs0. subst s0.
  destruct (length (List.filter isRealZipPath files) =? 0)%nat; [discriminate|].
  unfold bind at 1.
  set (s1 := mkState (world s) (trace s ++ [Scan UPLOAD_DIR files])).
  destruct (withMtimeOf (List.filter isRealZipPath files) s1) as [refs s2| | |] eqn:Ew;
    try discriminate.
  destruct (withMtimeOf_ok _ _ _ _ Ew) as [-> HF].
  change byMtimeDesc with (keyDesc zipMtimeMs).
  destruct (Js.sort (keyDesc zipMtimeMs) refs) as [|first rest] eqn:Es; [discriminate|].
  cbn [firstZipPath]. unfold ret. intros [= <- <-].
  destruct (sort_head_first zipMtimeMs refs first rest Es) as (r1 & r2 & -> & H1 & H2).
  apply List.Forall2_app_inv_r in HF as (before & tail & HF1 & HF2 & Epaths).
  inversion HF2 as [|p0 r0 after rs2 (Hp0 & info & Hinfo & Hm) HF3]; subst.
  subst s1. cbn [world] in *.
  assert (Hmt : forall paths refs',
            Forall2 (fun p r => zipPath r = p /\
                       exists info, stat p (world s) = inr info /\
                                    zipMtimeMs r = mtimeMs info) paths refs' ->
            forall z, In z paths ->
              exists r, In r refs' /\ mtimeOf s z = Some (zipMtimeMs r)).
  { clear. intros paths refs' HF. induction HF as [|p r ps rs (_ & info & Hs & Hm) _ IH];
      intros z []; subst.
    - exists r. split; [now left|]. unfold mtimeOf. now rewrite Hs, Hm.
    - destruct (IH z H0) as (r' & ? & ?). exists r'. split; [now right | assumption]. }
  exists files, before, after, (zipMtimeMs first).
  split; [reflexivity|]. split; [exact Epaths|]. split.
  - unfold mtimeOf. now rewrite Hinfo, Hm.
  - split; intros z Hz.
    + destruct (Hmt _ _ HF1 z Hz) as (r & Hr & Ht). eauto.
    + destruct (Hmt _ _ HF3 z Hz) as (r & Hr & Ht). eauto.
Qed.

(** X10: however it ends, resolution only looks: it leaves the file
    system as it was, makes no call that could change it, starts no
    extraction and does not end the process. *)
Theorem resolution_only_reads (walk : nat) (zipArg : option string) (s : state W) :
  let r := resolveZipFromArgs walk zipArg s in
  world (final r) = world s /\
  mutations (since s (final r)) = [] /\
  entered (since s (final r)) = [] /\
  forall code s', r <> Exit code s'.
Proof.
  intros r. subst r. split; [apply reads_resolveZipFromArgs|].
  destruct (emits_resolveZipFromArgs walk zipArg s) as (d & Ht & Hd).
  rewrite (since_app _ _ _ Ht). split; [now apply harmless_mutations|]. split.
  - apply (omap_class harmless); [assumption|]. now intros [].
  - apply stays_resolveZipFromArgs.
Qed.

End ResolutionMore.

(** ** One extraction and its tools *)

Section Tools.
Context {W : Type} `{Host W}.

Lemma unzipToDir_tools zipPath dir (s : state W) :
  exists ev,
    trace (final (unzipToDir zipPath dir s)) = trace s ++ ev /\
    ((toolRuns ev = [] /\ exists e s', unzipToDir zipPath dir s = Throw e s')
     \/ (exists out s',
           toolRuns ev = [("unzip", zipPath, out, true)] /\
           unzipToDir zipPath dir s = Ok out s')
     \/ (exists out s',
           toolRuns ev = [("unzip", zipPath, out, false); ("ditto", zipPath, out, true)] /\
           unzipToDir zipPath dir s = Ok out s')
     \/ (exists out unzipMsg dittoMsg s',
           toolRuns ev = [("unzip", zipPath, out, false); ("ditto", zipPath, out, false)] /\
           In (Did (ExecFile "unzip" ["-o"; zipPath; "-d"; out] cLocale) (Some unzipMsg)) ev /\
           In (Did (ExecFile "ditto" ["-x"; "-k"; zipPath; out] []) (Some dittoMsg)) ev /\
           unzipToDir zipPath dir s = Throw (bothFailed unzipMsg dittoMsg) s')).
Proof.
  destruct s as [w tr].
  remember (unzipToDir zipPath dir (mkState w tr)) as r eqn:Er.
  cbv [unzipToDir prepareEmptyDir buildFallbackDirPath bind tryCatch sys emit
       consoleLog ret throw dateNow errorText] in Er.
  cbn [world trace] in Er.
  repeat match type of Er with
         | context [perform ?c ?w0] =>
             destruct (perform c w0) as [[?|] ?]; cbn [world trace] in Er
         end;
    subst r; cbn [final trace]; eexists;
    (split; [rewrite <- !app_assoc; reflexivity|]);
    first [ left; split; [reflexivity | eauto]
          | right; left; eexists _, _; split; reflexivity
          | right; right; left; eexists _, _; split; reflexivity
          | right; right; right; eexists _, _, _, _;
            split; [reflexivity|]; split; [cbn; tauto|]; split; [cbn; tauto|];
            reflexivity ].
Qed.

(** X11: one call of [unzipToDir] starts [unzip] at most once and
    [ditto] at most once, on the archive it was given and on one and the
    same directory; [ditto] runs only after [unzip] has failed, never
    first and never after a success; the call returns when one of the
    two has succeeded and fails, with both reasons in its message, when
    both have failed; it runs no tool when the directory could not be
    prepared. *)
Theorem ditto_runs_only_after_unzip_failed (zipPath dir : string) (s : state W) :
  let r := unzipToDir zipPath dir s in
  let runs := toolRuns (since s (final r)) in
  (runs = [] /\ exists e s', r = Throw e s')
  \/ (exists out s', runs = [("unzip", zipPath, out, true)] /\ r = Ok out s')
  \/ (exists out s',
        runs = [("unzip", zipPath, out, false); ("ditto", zipPath, out, true)] /\
        r = Ok out s')
  \/ (exists out unzipMsg dittoMsg s',
        runs = [("unzip", zipPath, out, false); ("ditto", zipPath, out, false)] /\
        In (Did (ExecFile "unzip" ["-o"; zipPath; "-d"; out] cLocale) (Some unzipMsg))
           (since s (final r)) /\
        In (Did (ExecFile "ditto" ["-x"; "-k"; zipPath; out] []) (Some dittoMsg))
           (since s (final r)) /\
        r = Throw (bothFailed unzipMsg dittoMsg) s').
Proof.
  intros r runs. subst r runs.
  destruct (unzipToDir_tools zipPath dir s) as (ev & Ht & Hev).
  rewrite (since_app _ _ _ Ht). exact Hev.
Qed.

End Tools.

(** ** The process as a whole *)

Section Process.
Context {W : Type} `{Host W}.

Lemma emits_script_chmodEach dirs : forall n,
  emits (W:=W) scriptEvent (chmodEach dirs n).
Proof. induction dirs; intros; cbn [chmodEach]; effects. Qed.

Lemma emits_script_unzipToDir zipPath dir :
  emits (W:=W) scriptEvent (unzipToDir zipPath dir).
Proof.
  unfold unzipToDir, prepareEmptyDir, buildFallbackDirPath, consoleLog. effects.
Qed.

Lemma emits_script_extractPending pending : forall st,
  emits (W:=W) scriptEvent (extractPending pending st).
Proof.
  induction pending as [|z pending IH]; intros st; cbn [extractPending].
  - apply emits_ret.
  - apply emits_bind; [|intros; apply IH].
    apply emits_tryCatch.
    + apply emits_bind; [apply emits_script_unzipToDir|].
      intros. unfold consoleLog. effects.
    + intros. unfold consoleLog. effects.
Qed.

Lemma emits_script_makeDirectoriesWritable walk root :
  emits (W:=W) scriptEvent (makeDirectoriesWritable walk root).
Proof.
  unfold makeDirectoriesWritable, listDirsRecursive.
  apply emits_bind; [apply emits_listDirsLoop | intros; apply emits_script_chmodEach].
Qed.

Lemma emits_script_nestedLoop walk fuel root : forall st,
  emits (W:=W) scriptEvent (nestedLoop walk fuel root st).
Proof.
  induction fuel as [|fuel IH]; intros st; cbn [nestedLoop].
  - apply emits_outOfFuel.
  - apply emits_bind; [apply emits_script_makeDirectoriesWritable|]. intros _.
    apply emits_bind; [apply emits_listFilesRecursive; reflexivity|]. intros files.
    destruct (length (pendingOf (processed st) files) =? 0)%nat; [apply emits_ret|].
    apply emits_bind; [apply emits_script_extractPending | intros; apply IH].
Qed.

Lemma emits_script_cleanup walk root :
  emits (W:=W) scriptEvent (cleanupMacArtifacts walk root).
Proof.
  assert (Hweak : forall e, cleanupEvent e = true -> scriptEvent e = true).
  { intros [| |[p [] []| | |] err| |] He; cbn in *; solve [reflexivity | discriminate]. }
  unfold cleanupMacArtifacts.
  apply emits_bind; [apply emits_listFilesRecursive; reflexivity|]. intros files.
  apply emits_bind;
    [apply (emits_weaken _ _ _ Hweak), emits_removeMetadataFiles|]. intros removedFiles.
  apply emits_bind; [apply emits_listDirsLoop|]. intros dirs.
  apply emits_bind;
    [apply (emits_weaken _ _ _ Hweak), emits_removeMacosxDirs|]. intros removedDirs.
  apply emits_ret.
Qed.

Lemma emits_script_main walk fuel argv : emits (W:=W) scriptEvent (main walk fuel argv).
Proof.
  unfold main.
  apply emits_bind.
  { apply (emits_weaken harmless); [|apply emits_resolveZipFromArgs].
    now intros [| |? ?| |]. }
  intros zipPath. destruct (negb (isZipExt zipPath)).
  { unfold consoleError. effects. }
  unfold consoleLog.
  repeat (apply emits_bind; [solve [apply emits_emit; reflexivity]|]; intros _).
  apply emits_bind; [apply emits_script_unzipToDir|]. intros outputDir.
  repeat (apply emits_bind; [solve [apply emits_emit; reflexivity]|]; intros _).
  apply emits_bind; [apply emits_script_makeDirectoriesWritable|]. intros n.
  repeat (apply emits_bind; [solve [apply emits_emit; reflexivity]|]; intros _).
  apply emits_bind.
  { unfold extractNestedZips.
    apply emits_bind; [apply emits_script_nestedLoop | intros; apply emits_ret]. }
  intros counts.
  apply emits_bind; [apply emits_script_cleanup|]. intros removed.
  apply emits_bind; [apply emits_listFilesRecursive; reflexivity|]. intros allFiles.
  apply emits_bind; [apply emits_listDirsLoop|]. intros allDirs.
  repeat (apply emits_bind; [solve [apply emits_emit; reflexivity]|]; intros _).
  apply emits_emit. reflexivity.
Qed.

(** X12: whatever its arguments and the file system, the process
    changes the world by nothing but forced removals, recursive
    [mkdir], [chmod] to mode [0o755], [unzip -o <zip> -d <dir>] in the C
    locale and [ditto -x -k <zip> <dir>]: it never removes without
    [force], never sets another mode and starts no other program. *)
Theorem process_makes_only_the_scripts_calls (walk fuel : nat) (argv : list string) :
  emits (W:=W) scriptEvent (program walk fuel argv).
Proof.
  unfold program. apply emits_tryCatch; [apply emits_script_main|].
  intros err. unfold consoleErrorWith. effects.
Qed.

Lemma main_exit walk fuel argv (s : state W) code s' :
  main walk fuel argv s = Exit code s' ->
  code = 1 /\
  exists zipPath s1,
    resolveZipFromArgs walk (nth_error argv 2) s = Ok zipPath s1 /\
    isZipExt zipPath = false /\
    s' = mkState (world s1)
           (trace s1 ++ [LogError ("[zip:extract] input is not a .zip file: " +:+ zipPath) None]).
Proof.
  intros E. unfold main in E.
  apply bind_inv_exit in E as [E|(p & s1 & Hp & E)].
  - now apply stays_resolveZipFromArgs in E.
  - destruct (isZipExt p) eqn:Hext; cbn [negb] in E.
    + exfalso. revert E. unfold consoleLog, extractNestedZips, listDirsRecursive.
      match goal with |- ?m s1 = _ -> _ => assert (Hst : stays m) by effects end.
      apply Hst.
    + unfold bind, consoleError, emit, exit in E. injection E as <- <-.
      split; [reflexivity|]. exists p, s1. auto.
Qed.

Lemma errorOutput_calm d : forallb calm d = true -> errorOutput d = [].
Proof.
  induction d as [|e d IH]; [reflexivity|]. cbn [forallb errorOutput List.filter].
  intros [He Hd]%andb_true_iff. unfold calm in He.
  destruct (isLogError e); [discriminate|]. now apply IH.
Qed.

Lemma errorOutput_last d line caught :
  forallb calm d = true ->
  errorOutput (d ++ [LogError line caught]) = [LogError line caught].
Proof.
  intros Hd. unfold errorOutput. rewrite List.filter_app.
  fold (errorOutput d). now rewrite (errorOutput_calm _ Hd).
Qed.

Lemma emits_calm_resolveZipFromArgs walk zipArg :
  emits (W:=W) calm (resolveZipFromArgs walk zipArg).
Proof.
  unfold resolveZipFromArgs, statOrNull, firstZipPath, consoleLog.
  effects; apply emits_listFilesRecursive; reflexivity.
Qed.

Lemma emits_calm_chmodEach dirs : forall n, emits (W:=W) calm (chmodEach dirs n).
Proof. induction dirs; intros; cbn [chmodEach]; effects. Qed.

Lemma emits_calm_makeDirectoriesWritable walk root :
  emits (W:=W) calm (makeDirectoriesWritable walk root).
Proof.
  unfold makeDirectoriesWritable, listDirsRecursive.
  apply emits_bind; [apply emits_listDirsLoop | intros; apply emits_calm_chmodEach].
Qed.

Lemma emits_calm_unzipToDir zipPath dir : emits (W:=W) calm (unzipToDir zipPath dir).
Proof.
  unfold unzipToDir, prepareEmptyDir, buildFallbackDirPath, consoleLog. effects.
Qed.

Lemma emits_calm_extractPending pending : forall st,
  emits (W:=W) calm (extractPending pending st).
Proof.
  induction pending as [|z pending IH]; intros st; cbn [extractPending].
  - apply emits_ret.
  - apply emits_bind; [|intros; apply IH].
    apply emits_tryCatch.
    + apply emits_bind; [apply emits_calm_unzipToDir|].
      intros. unfold consoleLog. effects.
    + intros. unfold consoleLog. effects.
Qed.

Lemma emits_calm_nestedLoop walk fuel root : forall st,
  emits (W:=W) calm (nestedLoop walk fuel root st).
Proof.
  induction fuel as [|fuel IH]; intros st; cbn [nestedLoop].
  - apply emits_outOfFuel.
  - apply emits_bind; [apply emits_calm_makeDirectoriesWritable|]. intros _.
    apply emits_bind; [apply emits_listFilesRecursive; reflexivity|]. intros files.
    destruct (length (pendingOf (processed st) files) =? 0)%nat; [apply emits_ret|].
    apply emits_bind; [apply emits_calm_extractPending | intros; apply IH].
Qed.

Lemma emits_calm_removeMetadataFiles files : forall n,
  emits (W:=W) calm (removeMetadataFiles files n).
Proof. induction files; intros; cbn [removeMetadataFiles]; effects. Qed.

Lemma emits_calm_removeMacosxDirs dirs : forall n,
  emits (W:=W) calm (removeMacosxDirs dirs n).
Proof. induction dirs; intros; cbn [removeMacosxDirs]; effects. Qed.

(** Up to its end [main] writes nothing to the error stream; it ends the
    process itself only after one line there. *)
Lemma main_errors walk fuel argv (s : state W) :
  exists d, trace (final (main walk fuel argv s)) = trace s ++ d /\
    match main walk fuel argv s with
    | Exit _ _ => exists d0 line, d = d0 ++ [LogError line None] /\ forallb calm d0 = true
    | _ => forallb calm d = true
    end.
Proof.
  destruct (emits_calm_resolveZipFromArgs walk (nth_error argv 2) s) as (d1 & Ht1 & Hc1).
  pose proof (stays_resolveZipFromArgs walk (nth_error argv 2) s) as Hst1.
  remember (main walk fuel argv s) as r eqn:Er. unfold main in Er. unfold bind at 1 in Er.
  destruct (resolveZipFromArgs walk (nth_error argv 2) s) as [zipPath s1|e s1|c s1|l s1];
    cbn [final] in *.
  2,4: subst r; now exists d1.
  2: now exfalso; eapply Hst1.
  destruct (isZipExt zipPath); cbn [negb] in Er.
  - match type of Er with
    | _ = ?m s1 => assert (Hc : emits calm m); [|assert (Hs : stays m)]
    end.
    { unfold consoleLog, extractNestedZips, cleanupMacArtifacts, listDirsRecursive.
      repeat first
        [ apply emits_calm_unzipToDir
        | apply emits_calm_makeDirectoriesWritable
        | apply emits_calm_nestedLoop
        | apply emits_calm_removeMetadataFiles
        | apply emits_calm_removeMacosxDirs
        | apply emits_listFilesRecursive; reflexivity
        | apply emits_listDirsLoop
        | apply emits_ret
        | apply emits_emit; reflexivity
        | apply emits_bind; [|intros] ]. }
    { unfold consoleLog, extractNestedZips, listDirsRecursive. effects. }
    destruct (Hc s1) as (d2 & Ht2 & Hc2). specialize (Hs s1). rewrite <- Er in Ht2, Hs.
    exists (d1 ++ d2). split; [now rewrite Ht2, Ht1, app_assoc|].
    assert (Hall : forallb calm (d1 ++ d2) = true)
      by (rewrite forallb_app, Hc1, Hc2; reflexivity).
    destruct r; try assumption. now exfalso; eapply Hs.
  - unfold bind, consoleError, emit, exit in Er. subst r. cbn [final trace].
    exists (d1 ++ [LogError ("[zip:extract] input is not a .zip file: " +:+ zipPath) None]).
    split; [now rewrite Ht1, app_assoc|]. eexists d1, _. split; [reflexivity | assumption].
Qed.

(** X13: the process never ends on an uncaught error.  It ends with
    exit code 1 exactly when it wrote to the error stream: a run that
    ends normally (exit code 0) wrote nothing there, and a run that ends
    by [process.exit] does so with code 1 after one [console.error],
    its last output, which is either the line that the input is not a
    [.zip] file, or [[zip:extract] failed:] with the error that [main]
    raised. *)
Theorem process_exits_with_0_or_1 (walk fuel : nat) (argv : list string) (s : state W) :
  let r := program walk fuel argv s in
  let errors := errorOutput (since s (final r)) in
  match r with
  | Ok _ _ => exitCode r = Some 0 /\ errors = []
  | Exit code s' =>
      code = 1 /\
      exists line caught,
        errors = [LogError line caught] /\
        last (trace s') = Some (LogError line caught) /\
        match caught with
        | None =>
            main walk fuel argv s = Exit 1 s' /\
            exists zipPath, line = "[zip:extract] input is not a .zip file: " +:+ zipPath
        | Some e =>
            line = "[zip:extract] failed:" /\
            exists s1, main walk fuel argv s = Throw e s1
        end
  | Throw _ _ => False
  | OutOfFuel _ _ => errors = []
  end.
Proof.
  cbv zeta. unfold program, tryCatch.
  destruct (main_errors walk fuel argv s) as (d & Ht & Hd).
  destruct (main walk fuel argv s) as [u s'|e s1|code s'|l s'] eqn:E; cbn [final] in *.
  - split; [reflexivity|]. rewrite (since_app _ _ _ Ht). now apply errorOutput_calm.
  - unfold bind, consoleErrorWith, emit, exit. cbn [final trace world].
    split; [reflexivity|]. exists "[zip:extract] failed:", (Some e).
    split; [|split; [apply last_snoc | split; [reflexivity | now exists s1]]].
    erewrite since_app by (cbn [trace]; rewrite Ht, <- app_assoc; reflexivity).
    now apply errorOutput_last.
  - destruct Hd as (d0 & line & -> & Hd0). rewrite (since_app _ _ _ Ht).
    destruct (main_exit _ _ _ _ _ _ E) as (-> & p & s1 & _ & _ & ->). cbn [trace] in Ht.
    rewrite app_assoc in Ht. apply app_inj_tail in Ht as [_ [= <-]].
    split; [reflexivity|].
    exists ("[zip:extract] input is not a .zip file: " +:+ p), None.
    split; [now apply errorOutput_last|]. split; [apply last_snoc|].
    split; [reflexivity | now exists p].
  - rewrite (since_app _ _ _ Ht). now apply errorOutput_calm.
Qed.

End Process.

(** ** Failures before the nested loop, and the summary *)

Section Endings.
Context {W : Type} `{Host W}.

(** X14: when the archive cannot be resolved, the process prints the
    error on the error stream and exits with code 1, having logged
    nothing else but what resolution logged, changed nothing in the file
    system and started no extraction. *)
Theorem unresolved_archive_is_fatal
    (walk fuel : nat) (argv : list string) (s : state W) (e : string) (s1 : state W) :
  resolveZipFromArgs walk (nth_error argv 2) s = Throw e s1 ->
  program walk fuel argv s
  = Exit 1 (mkState (world s) (trace s1 ++ [LogError "[zip:extract] failed:" (Some e)])) /\
  mutations (since s s1) = [] /\
  entered (since s s1) = [].
Proof.
  intros E.
  pose proof (reads_resolveZipFromArgs walk (nth_error argv 2) s) as Hw.
  destruct (emits_resolveZipFromArgs walk (nth_error argv 2) s) as (d & Ht & Hd).
  rewrite E in Hw, Ht. cbn [final] in Hw, Ht.
  split.
  - unfold program, tryCatch, main, bind at 1. rewrite E.
    unfold bind, consoleErrorWith, emit, exit. now rewrite Hw.
  - rewrite (since_app _ _ _ Ht). split; [now apply harmless_mutations|].
    apply (omap_class harmless); [assumption|]. now intros [].
Qed.

(** X15: unlike a nested archive, the root archive must extract: when
    both tools fail on it (or its output directory cannot be prepared),
    the process prints that error and exits with code 1 at once, without
    looking for nested archives, cleaning up or printing a summary. *)
Theorem root_extraction_failure_is_fatal
    (walk fuel : nat) (argv : list string) (s : state W)
    (zipPath : string) (s1 : state W) (e : string) (s2 : state W) :
  resolveZipFromArgs walk (nth_error argv 2) s = Ok zipPath s1 ->
  isZipExt zipPath = true ->
  let requested :=
    Path.resolve cwd
      [from_option id
         (Path.join [Path.dirname zipPath;
                     Path.basename_ext zipPath ".zip" +:+ "_extracted"])
         (nth_error argv 3)] in
  unzipToDir zipPath requested
    (mkState (world s1)
       (trace s1 ++ [Log ("[zip:extract] source zip: " +:+ zipPath);
                     Log ("[zip:extract] requested output dir: " +:+ requested)]))
    = Throw e s2 ->
  program walk fuel argv s
  = Exit 1 (mkState (world s2) (trace s2 ++ [LogError "[zip:extract] failed:" (Some e)])).
Proof.
  intros Hres Hzip requested Hroot.
  unfold program, tryCatch, main. rewrite (bind_ok _ _ _ _ _ Hres), Hzip.
  cbn [negb]. fold requested.
  unfold bind at 1, consoleLog at 1, emit at 1.
  unfold bind at 1, consoleLog at 1, emit at 1. cbn [world trace].
  rewrite <- app_assoc. cbn [app].
  unfold bind at 1. rewrite Hroot. reflexivity.
Qed.

Lemma filter_split_length {A} (f : A -> bool) l :
  (length (List.filter (fun x => negb (f x)) l) + length (List.filter f l))%nat = length l.
Proof.
  induction l as [|a l IH]; [reflexivity|].
  cbn [List.filter]. destruct (f a); cbn [negb length]; lia.
Qed.

(** X16: the summary of a run that ends normally reports the last
    listing of the output tree: the number of files it found, split
    into those whose extension is [.zip] in any case and the rest, so
    that the two add up to the total. *)
Theorem summary_counts_add_up
    (walk fuel : nat) (argv : list string) (s : state W) (s' : state W) :
  program walk fuel argv s = Ok tt s' ->
  exists tr counts removed (allDirs allFiles : list string) nonZip zips,
    trace s' = tr ++ summaryLines counts removed (length allDirs) (length allFiles) nonZip zips /\
    last (scans (trace s')) = Some allFiles /\
    zips = length (List.filter isZipExt allFiles) /\
    (nonZip + zips)%nat = length allFiles.
Proof.
  unfold program, tryCatch. intros E.
  destruct (main walk fuel argv s) as [[] s0| | |] eqn:Em; try discriminate.
  injection E as ->. unfold main in Em.
  apply bind_inv_ok in Em as (zipPath & s1 & Hres & Em).
  destruct (isZipExt zipPath); cbn [negb] in Em.
  2:{ revert Em. unfold bind, consoleError, emit, exit. discriminate. }
  do 7 (apply bind_inv_ok in Em as (? & ? & ? & Em)).
  apply bind_inv_ok in Em as (counts & s4 & Hnested & Em).
  apply bind_inv_ok in Em as (removed & s5 & Hclean & Em).
  apply bind_inv_ok in Em as (allFiles & s6 & Hfiles & Em).
  rewrite listFilesRecursive_eq in Hfiles.
  destruct (listFilesLoop walk _ [] s5) as [fs s5'| | |]; try discriminate.
  injection Hfiles as -> <-.
  apply bind_inv_ok in Em as (allDirs & s7 & Hdirs & Em).
  unfold listDirsRecursive in Hdirs.
  match type of Hdirs with
  | listDirsLoop ?w ?st ?o ?s0 = _ =>
      pose proof (listDirsLoop_state w st o s0) as Hs7
  end.
  rewrite Hdirs in Hs7. cbn [final] in Hs7. subst s7.
  repeat (apply bind_inv_ok in Em as (? & ? & ? & Em)).
  repeat match goal with
         | E : consoleLog _ _ = Ok _ _ |- _ => apply consoleLog_inv in E; subst
         end.
  cbn [trace world]. rewrite <- !app_assoc. cbn [app].
  eexists (trace s5 ++ [Scan _ allFiles]), counts, removed, allDirs, allFiles,
    (length (List.filter (fun file => negb (isZipExt file)) allFiles)),
    (length (List.filter isZipExt allFiles)).
  split; [rewrite <- app_assoc; reflexivity|].
  split.
  - rewrite scans_app. cbn. apply last_snoc.
  - split; [reflexivity | apply filter_split_length].
Qed.

End Endings.

(** ** Names: metadata, archives and output directories *)

Section Names.

Lemma is_infix_unfold p l :
  Js.is_infix p l
  = Js.is_prefix p l || match l with [] => false | _ :: l' => Js.is_infix p l' end.
Proof. destruct l; reflexivity. Qed.

Lemma is_prefix_app p b : Js.is_prefix p (p ++ b) = true.
Proof.
  induction p as [|c p IH]; [reflexivity|].
  cbn [app Js.is_prefix]. now rewrite Ascii.eqb_refl.
Qed.

Lemma is_infix_app p a b : Js.is_infix p (a ++ p ++ b) = true.
Proof.
  induction a as [|c a IH]; cbn [app].
  - now rewrite is_infix_unfold, is_prefix_app.
  - rewrite is_infix_unfold, IH. apply orb_true_r.
Qed.

Lemma includes_middle pre mid rest : Js.includes (pre +:+ mid +:+ rest) mid = true.
Proof. unfold Js.includes. rewrite !chars_app. apply is_infix_app. Qed.

(** X17: what the cleanup deletes is never taken for an archive: a
    file whose basename is [.DS_Store] or starts with [._] is no real
    zip, whatever its extension, and neither is any path with a
    [__MACOSX] component before its last one. *)
Theorem metadata_is_never_an_archive :
  (forall p, isMacMetadataFile p = true -> isRealZipPath p = false) /\
  (forall pre rest, isRealZipPath (pre +:+ "/__MACOSX/" +:+ rest) = false) /\
  (forall pre rest, isRealZipPath (pre +:+ "\__MACOSX\" +:+ rest) = false).
Proof.
  split; [|split].
  - intros p Hp. unfold isMacMetadataFile in Hp. apply orb_true_iff in Hp as [Hp|Hp].
    + apply String.eqb_eq in Hp. unfold Path.basename in Hp.
      apply (f_equal Js.chars) in Hp. rewrite chars_str in Hp.
      apply (f_equal (@rev ascii)) in Hp. rewrite rev_involutive in Hp.
      unfold isRealZipPath, isZipExt, Path.extname. rewrite Hp. reflexivity.
    + unfold isRealZipPath. destruct (negb (isZipExt p)); [reflexivity|].
      now rewrite Hp.
  - intros pre rest. unfold isRealZipPath.
    destruct (negb _); [reflexivity|]. destruct (Js.startsWith _ _); [reflexivity|].
    now rewrite includes_middle.
  - intros pre rest. unfold isRealZipPath.
    destruct (negb _); [reflexivity|]. destruct (Js.startsWith _ _); [reflexivity|].
    rewrite (includes_middle pre "\__MACOSX\" rest). now rewrite orb_true_r.
Qed.

Lemma length_chars s : length (Js.chars s) = String.length s.
Proof. induction s as [|c s IH]; [reflexivity|]. cbn. now rewrite <- IH. Qed.

Lemma plain_length name : plain name = true -> (1 <= String.length name)%nat.
Proof.
  intros Hn. destruct (plain_inv name Hn) as ((c & r & Hc) & _).
  rewrite <- length_chars, Hc. cbn. lia.
Qed.





Lemma eqb_false_by_length a b :
  String.length a <> String.length b -> String.eqb a b = false.
Proof.
  intros Hne. destruct (String.eqb a b) eqn:E; [|reflexivity].
  apply String.eqb_eq in E. now subst.
Qed.









End Names.

(** ** The fallback directory *)

Section Fallback.
Context {W : Type} `{Host W}.

Lemma uint_chars d :
  existsb Path.is_slash (Js.chars (NilEmpty.string_of_uint d)) = false.
Proof. induction d; cbn; auto. Qed.

Lemma nz_uint_chars d :
  existsb Path.is_slash (Js.chars (NilZero.string_of_uint d)) = false /\
  (1 <= String.length (NilZero.string_of_uint d))%nat.
Proof.
  destruct d; cbn; (split; [try reflexivity; apply uint_chars | lia]).
Qed.

Lemma ofZ_chars z :
  existsb Path.is_slash (Js.chars (Js.ofZ z)) = false /\
  (1 <= String.length (Js.ofZ z))%nat.
Proof.
  unfold Js.ofZ, NilZero.string_of_int.
  destruct (Z.to_int z) as [d|d]; destruct (nz_uint_chars d) as [Hc Hl].
  - now split.
  - cbn. split; [exact Hc | lia].
Qed.

Lemma plain_stamped name t :
  plain name = true -> plain (name +:+ "_" +:+ Js.ofZ t) = true.
Proof.
  intros Hn. destruct (plain_inv name Hn) as (_ & Hslash & _).
  destruct (ofZ_chars t) as [Hz Hlen].
  pose proof (plain_length name Hn) as Hlen'.
  unfold plain.
  assert (Hl : (3 <= String.length (name +:+ "_" +:+ Js.ofZ t))%nat).
  { rewrite !length_append. cbn. lia. }
  rewrite !chars_app, !existsb_app, Hslash, Hz.
  rewrite !eqb_false_by_length by (cbn [String.length]; lia).
  destruct (String.length (name +:+ "_" +:+ Js.ofZ t)); [lia | reflexivity].
Qed.

(** X22: the fallback directory of a preferred directory [name] is its
    sibling [<name>_<clock>], the clock read in milliseconds and
    written in decimal: it lies in the same directory, it is never the
    preferred directory itself, and building its path changes
    nothing. *)
Theorem fallback_directory_is_a_sibling
    (segs : list string) (name : string) (s : state W) :
  Forall (fun seg => plain seg = true) segs -> segs <> [] -> plain name = true ->
  let preferredDir := render (segs ++ [name]) in
  let fallbackDir := render (segs ++ [name +:+ "_" +:+ Js.ofZ (now (world s))]) in
  buildFallbackDirPath preferredDir s = Ok fallbackDir s /\
  Path.dirname fallbackDir = Path.dirname preferredDir /\
  fallbackDir <> preferredDir.
Proof.
  intros Hp Hne Hn preferredDir fallbackDir. subst preferredDir fallbackDir.
  pose proof (plain_stamped name (now (world s)) Hn) as Hst.
  rewrite !render_snoc by assumption. split; [|split].
  - unfold buildFallbackDirPath, bind, dateNow, ret. f_equal.
    rewrite (dirname_child segs name Hp Hne Hn).
    unfold Path.basename. rewrite (rev_base_child (render segs) name Hn).
    rewrite rev_involutive, str_chars, <- render_snoc by assumption.
    now apply join_render.
  - rewrite (dirname_child segs _ Hp Hne Hst).
    now rewrite (dirname_child segs name Hp Hne Hn).
  - intros E. apply (f_equal String.length) in E. rewrite !length_append in E.
    cbn in E. lia.
Qed.

End Fallback.

(** * Properties of the detection script's helpers *)

Section DetectHelpers.
Import Detect.

Lemma isSafeChar_underscore : isSafeChar "_"%char = true.
Proof. reflexivity. Qed.

Lemma sanitize_chars name :
  Js.chars (sanitizeFilename name)
  = List.map (fun c => if isSafeChar c then c else "_"%char) (Js.chars name).
Proof. unfold sanitizeFilename. apply chars_str. Qed.

Lemma safe_is_no_separator c :
  isSafeChar c = true -> Path.is_slash c = false /\ Ascii.eqb c Path.dot = false.
Proof.
  intros Hc. split.
  - destruct (Path.is_slash c) eqn:E; [|reflexivity].
    apply Ascii.eqb_eq in E. subst c. discriminate.
  - destruct (Ascii.eqb c Path.dot) eqn:E; [|reflexivity].
    apply Ascii.eqb_eq in E. subst c. discriminate.
Qed.

(** X19: [sanitizeFilename] keeps the length of the name and every
    letter, digit, underscore and hyphen in its place, and puts an
    underscore for every other code unit, so the result holds no slash
    and no dot, and sanitizing again changes nothing. *)
Theorem sanitized_names_are_safe (name : string) :
  String.length (sanitizeFilename name) = String.length name /\
  forallb isSafeChar (Js.chars (sanitizeFilename name)) = true /\
  existsb Path.is_slash (Js.chars (sanitizeFilename name)) = false /\
  existsb (fun c => Ascii.eqb c Path.dot) (Js.chars (sanitizeFilename name)) = false /\
  sanitizeFilename (sanitizeFilename name) = sanitizeFilename name /\
  (forallb isSafeChar (Js.chars name) = true -> sanitizeFilename name = name).
Proof.
  assert (Hsafe : forall l,
            forallb isSafeChar
              (List.map (fun c => if isSafeChar c then c else "_"%char) l) = true).
  { induction l as [|c l IH]; [reflexivity|]. cbn [List.map forallb].
    rewrite IH, andb_true_r. destruct (isSafeChar c) eqn:E; [exact E | reflexivity]. }
  assert (Hfix : forall l, forallb isSafeChar l = true ->
            List.map (fun c => if isSafeChar c then c else "_"%char) l = l).
  { induction l as [|c l IH]; [reflexivity|]. cbn [List.map forallb].
    intros Hl. apply andb_true_iff in Hl as [-> Hl]. now rewrite IH. }
  assert (Hnone : forall (f : ascii -> bool) l,
            (forall c, isSafeChar c = true -> f c = false) ->
            forallb isSafeChar l = true -> existsb f l = false).
  { intros f l Hf. induction l as [|c l IH]; [reflexivity|]. cbn [forallb existsb].
    intros Hl. apply andb_true_iff in Hl as [Hc Hl]. now rewrite (Hf c Hc), IH. }
  repeat split.
  - rewrite <- !length_chars, sanitize_chars. apply length_map.
  - rewrite sanitize_chars. apply Hsafe.
  - apply Hnone; [intros c Hc; apply (safe_is_no_separator c Hc)|].
    rewrite sanitize_chars. apply Hsafe.
  - apply Hnone; [intros c Hc; apply (safe_is_no_separator c Hc)|].
    rewrite sanitize_chars. apply Hsafe.
  - unfold sanitizeFilename at 1. rewrite sanitize_chars, Hfix by apply Hsafe.
    reflexivity.
  - intros Hl. unfold sanitizeFilename. rewrite (Hfix _ Hl). apply str_chars.
Qed.

Lemma replaceAll_app c by_ a b :
  replaceAll c by_ (a ++ b) = replaceAll c by_ a ++ replaceAll c by_ b.
Proof.
  induction a as [|x a IH]; [reflexivity|].
  cbn [app replaceAll]. now rewrite IH, app_assoc.
Qed.

Lemma replaceAll_absent c by_ l :
  existsb (fun x => Ascii.eqb x c) l = false -> replaceAll c by_ l = l.
Proof.
  induction l as [|x l IH]; [reflexivity|]. cbn [existsb replaceAll].
  intros Hl. apply orb_false_iff in Hl as [-> Hl]. now rewrite IH.
Qed.

Lemma escape_one c :
  replaceAll quot "&quot;"
    (replaceAll gt "&gt;" (replaceAll lt "&lt;" (replaceAll amp "&amp;" [c])))
  = entityOf c.
Proof.
  unfold entityOf. cbn [replaceAll]. rewrite app_nil_r.
  destruct (Ascii.eqb c amp) eqn:Ea; [reflexivity|].
  cbn [replaceAll]. rewrite app_nil_r.
  destruct (Ascii.eqb c lt) eqn:El; [reflexivity|].
  cbn [replaceAll]. rewrite app_nil_r.
  destruct (Ascii.eqb c gt) eqn:Eg; [reflexivity|].
  cbn [replaceAll]. rewrite app_nil_r.
  destruct (Ascii.eqb c quot) eqn:Eq; reflexivity.
Qed.

Lemma escape_chars l :
  replaceAll quot "&quot;"
    (replaceAll gt "&gt;" (replaceAll lt "&lt;" (replaceAll amp "&amp;" l)))
  = flat_map entityOf l.
Proof.
  induction l as [|c l IH]; [reflexivity|].
  change (c :: l) with ([c] ++ l).
  rewrite !replaceAll_app, IH, escape_one. reflexivity.
Qed.

Lemma entityOf_clean c :
  existsb (fun x => Ascii.eqb x lt || Ascii.eqb x gt || Ascii.eqb x quot) (entityOf c)
  = false.
Proof.
  unfold entityOf.
  destruct (Ascii.eqb c amp) eqn:Ea; [reflexivity|].
  destruct (Ascii.eqb c lt) eqn:El; [reflexivity|].
  destruct (Ascii.eqb c gt) eqn:Eg; [reflexivity|].
  destruct (Ascii.eqb c quot) eqn:Eq; [reflexivity|].
  cbn [existsb]. now rewrite El, Eg, Eq.
Qed.

(** X20: the four replacements of [escapeXml], made one after the
    other, amount to one pass that puts [&amp;], [&lt;], [&gt;] and
    [&quot;] for the four characters and keeps every other character:
    an entity written by an earlier replacement is not touched by a
    later one.  The result holds no [<], no [>] and no double quote, and
    a text without the four characters comes back unchanged. *)
Theorem escapeXml_is_one_pass (s : string) :
  escapeXml s = Js.str (flat_map entityOf (Js.chars s)) /\
  existsb (fun x => Ascii.eqb x lt || Ascii.eqb x gt || Ascii.eqb x quot)
    (Js.chars (escapeXml s)) = false /\
  (existsb (fun x => Ascii.eqb x amp || Ascii.eqb x lt || Ascii.eqb x gt
                     || Ascii.eqb x quot) (Js.chars s) = false ->
   escapeXml s = s).
Proof.
  assert (E : escapeXml s = Js.str (flat_map entityOf (Js.chars s))).
  { unfold escapeXml. now rewrite escape_chars. }
  split; [exact E|]. split.
  - rewrite E, chars_str. clear E.
    induction (Js.chars s) as [|c l IH]; [reflexivity|].
    cbn [flat_map]. now rewrite existsb_app, entityOf_clean, IH.
  - intros Hs. rewrite E. clear E. rewrite <- (str_chars s) at 2. f_equal.
    induction (Js.chars s) as [|c l IH]; [reflexivity|].
    cbn [existsb] in Hs. apply orb_false_iff in Hs as [Hc Hl].
    cbn [flat_map]. rewrite (IH Hl). unfold entityOf.
    apply orb_false_iff in Hc as [Hc Hq]. apply orb_false_iff in Hc as [Hc Hg].
    apply orb_false_iff in Hc as [Ha Hlt]. now rewrite Ha, Hlt, Hg, Hq.
Qed.

(** X21: a detection that is not skipped is cropped to a region that
    lies inside the image: its corner is at or after the origin, its
    sides are at least one pixel and no longer than the detection's, and
    it ends at or before the image's edges.  A detection that lies
    inside the image already is cropped as it is. *)
Theorem crop_region_lies_inside_the_image (left top w h actualWidth actualHeight : Z) :
  (forall l t w' h',
     cropRegion left top w h actualWidth actualHeight = Some (l, t, w', h') ->
     0 <= l /\ 0 <= t /\ 0 < w' <= w /\ 0 < h' <= h /\
     l + w' <= actualWidth /\ t + h' <= actualHeight) /\
  (0 <= left -> 0 <= top -> 0 < w -> 0 < h ->
   left + w <= actualWidth -> top + h <= actualHeight ->
   cropRegion left top w h actualWidth actualHeight = Some (left, top, w, h)).
Proof.
  unfold cropRegion. split.
  - intros l t w' h'.
    destruct (Z.min w (actualWidth - Z.max 0 (Z.min left (actualWidth - 1))) <=? 0) eqn:Ew;
      [discriminate|].
    destruct (Z.min h (actualHeight - Z.max 0 (Z.min top (actualHeight - 1))) <=? 0) eqn:Eh;
      [discriminate|].
    cbn [orb]. intros [= <- <- <- <-].
    apply Z.leb_gt in Ew, Eh. lia.
  - intros Hl Ht Hw Hh Hr Hb.
    replace (Z.max 0 (Z.min left (actualWidth - 1))) with left by lia.
    replace (Z.max 0 (Z.min top (actualHeight - 1))) with top by lia.
    replace (Z.min w (actualWidth - left)) with w by lia.
    replace (Z.min h (actualHeight - top)) with h by lia.
    replace (w <=? 0) with false by (symmetry; apply Z.leb_gt; lia).
    replace (h <=? 0) with false by (symmetry; apply Z.leb_gt; lia).
    reflexivity.
Qed.

End DetectHelpers.

(** * The further properties on concrete trees *)

Lemma listFilesRecursive_witness :
  listFilesRecursive 4 "/t" Cases.linked
  = Ok ["/t/g.zip"; "/t/a/f.txt"]
       (mkState (world Cases.linked) [Scan "/t" ["/t/g.zip"; "/t/a/f.txt"]]) /\
  forall p, In p ["/t/g.zip"; "/t/a/f.txt"]
            <-> entryBelow (world Cases.linked) KFile "/t" p.
Proof.
  split; [vm_compute; reflexivity|].
  apply (listFilesRecursive_lists_the_files 4 "/t" Cases.linked _
           (mkState (world Cases.linked) [Scan "/t" ["/t/g.zip"; "/t/a/f.txt"]])).
  vm_compute. reflexivity.
Defined.

Lemma listDirsRecursive_witness :
  listDirsRecursive 4 "/t" Cases.linked = Ok ["/t/a"] Cases.linked /\
  forall p, In p ["/t/a"] <-> entryBelow (world Cases.linked) KDir "/t" p.
Proof.
  split; [vm_compute; reflexivity|].
  apply (listDirsRecursive_lists_the_directories 4 "/t" Cases.linked _ Cases.linked).
  vm_compute. reflexivity.
Defined.

Lemma makeDirectoriesWritable_witness :
  exists updated s',
    makeDirectoriesWritable 4 "/t" Cases.linked = Ok updated s' /\
    mutations (since Cases.linked s') = [Chmod "/t" 493; Chmod "/t/a" 493] /\
    updated = succeeded (since Cases.linked s') /\
    (updated <= 2)%nat.
Proof.
  apply (makeDirectoriesWritable_counts_successes 4 "/t" Cases.linked ["/t/a"]
           Cases.linked).
  vm_compute. reflexivity.
Defined.

Lemma cleanup_counts_witness :
  exists files,
    scans (since Cases.extracted
             (final (cleanupMacArtifacts 8 Scenario.unpackedDir Cases.extracted)))
      = [files] /\
    2%nat = length (List.filter isMacMetadataFile files) /\
    1%nat = length (removedTrees
                      (since Cases.extracted
                         (final (cleanupMacArtifacts 8 Scenario.unpackedDir
                                   Cases.extracted)))) /\
    length (mutations
              (since Cases.extracted
                 (final (cleanupMacArtifacts 8 Scenario.unpackedDir Cases.extracted))))
      = 3%nat /\
    succeeded (since Cases.extracted
                 (final (cleanupMacArtifacts 8 Scenario.unpackedDir Cases.extracted)))
      = 3%nat.
Proof.
  apply (cleanup_counts_what_it_removed 8 Scenario.unpackedDir Cases.extracted 2 1
           (final (cleanupMacArtifacts 8 Scenario.unpackedDir Cases.extracted))).
  vm_compute. reflexivity.
Defined.

Lemma existing_file_witness :
  resolveZipFromArgs 4 (Some "  a.zip ") Scenario.uploads
  = Ok "/work/upload/a.zip" Scenario.uploads.
Proof.
  pose proof (existing_file_is_resolved_directly 4 "  a.zip " Scenario.uploads) as T.
  cbv zeta in T. rewrite T.
  - vm_compute. reflexivity.
  - vm_compute. discriminate.
  - vm_compute. reflexivity.
Defined.

Lemma newest_zip_ties_witness :
  exists files before after tp,
    listFilesLoop 4 [UPLOAD_DIR (W:=Sim.t)] [] Cases.tied = Ok files Cases.tied /\
    List.filter isRealZipPath files = before ++ "/work/upload/b.zip" :: after /\
    mtimeOf Cases.tied "/work/upload/b.zip" = Some tp /\
    (forall z, In z before -> exists tz, mtimeOf Cases.tied z = Some tz /\ tz < tp) /\
    (forall z, In z after -> exists tz, mtimeOf Cases.tied z = Some tz /\ tz <= tp).
Proof.
  apply (newest_zip_ties_go_to_the_first_listed 4 Cases.tied "/work/upload/b.zip"
           (final (resolveZipFromArgs 4 None Cases.tied))).
  vm_compute. reflexivity.
Defined.

Lemma unresolved_archive_witness :
  let e := "zip file not found: nope. Available zip files in upload: data.zip, a.zip, A.ZIP" in
  let s1 := final (resolveZipFromArgs 4 (Some "nope") Scenario.uploads) in
  program 4 4 ["node"; "extract-zip-and-count.mjs"; "nope"] Scenario.uploads
  = Exit 1 (mkState (world Scenario.uploads)
              (trace s1 ++ [LogError "[zip:extract] failed:" (Some e)])) /\
  mutations (since Scenario.uploads s1) = [] /\
  entered (since Scenario.uploads s1) = [].
Proof.
  apply (unresolved_archive_is_fatal 4 4 ["node"; "extract-zip-and-count.mjs"; "nope"]
           Scenario.uploads).
  vm_compute. reflexivity.
Defined.

Lemma root_extraction_failure_witness :
  exists s2 e,
    program 4 4 ["node"; "extract-zip-and-count.mjs"; "/work/upload/data_extracted/bad.zip"]
      Scenario.unpacked
    = Exit 1 (mkState (world s2) (trace s2 ++ [LogError "[zip:extract] failed:" (Some e)])) /\
    e = bothFailed
          ("Command failed: unzip -o /work/upload/data_extracted/bad.zip -d "
           +:+ "/work/upload/data_extracted/bad_extracted")
          "spawn ditto ENOENT" /\
    scans (since Scenario.unpacked s2) = [].
Proof.
  eexists _, _. split; [|split].
  - apply (root_extraction_failure_is_fatal 4 4
             ["node"; "extract-zip-and-count.mjs"; "/work/upload/data_extracted/bad.zip"]
             Scenario.unpacked "/work/upload/data_extracted/bad.zip" Scenario.unpacked).
    + vm_compute. reflexivity.
    + reflexivity.
    + vm_compute. reflexivity.
  - vm_compute. reflexivity.
  - vm_compute. reflexivity.
Defined.

Lemma summary_counts_witness :
  exists tr counts removed (allDirs allFiles : list string) nonZip zips,
    trace (final (program 8 8 ["node"; "extract-zip-and-count.mjs"; "data.zip"]
                    Scenario.uploads))
    = tr ++ summaryLines counts removed (length allDirs) (length allFiles) nonZip zips /\
    last (scans (trace (final (program 8 8 ["node"; "extract-zip-and-count.mjs"; "data.zip"]
                                 Scenario.uploads))))
    = Some allFiles /\
    zips = length (List.filter isZipExt allFiles) /\
    (nonZip + zips)%nat = length allFiles.
Proof.
  apply (summary_counts_add_up 8 8 ["node"; "extract-zip-and-count.mjs"; "data.zip"]
           Scenario.uploads).
  vm_compute. reflexivity.
Defined.


Lemma fallback_directory_witness :
  buildFallbackDirPath "/work/out" Scenario.sealed
  = Ok "/work/out_1700000000000" Scenario.sealed.
Proof.
  destruct (fallback_directory_is_a_sibling ["work"] "out" Scenario.sealed) as [T _].
  - repeat constructor.
  - discriminate.
  - reflexivity.
  - exact T.
Defined.

Lemma no_argument_errors_witness :
  resolveZipFromArgs 4 None Cases.linked
  = Throw "upload folder not found: /work/upload" Cases.linked /\
  resolveZipFromArgs 4 None (Sim.start (Sim.mkSim [Sim.mkNode "/work/upload" KDir 0 1;
                                                   Sim.mkNode "/work/upload/a.txt" KFile 0 1]
                                                  [] [] [] 0))
  = Throw "no .zip files found in upload folder: /work/upload"
      (mkState (Sim.mkSim [Sim.mkNode "/work/upload" KDir 0 1;
                           Sim.mkNode "/work/upload/a.txt" KFile 0 1] [] [] [] 0)
         [Scan "/work/upload" ["/work/upload/a.txt"]]).
Proof.
  split.
  - rewrite (proj1 (no_argument_errors 4 Cases.linked)) by reflexivity. reflexivity.
  - rewrite (proj2 (no_argument_errors 4 _) ["/work/upload/a.txt"]);
      [reflexivity | reflexivity | vm_compute; reflexivity | reflexivity].
Defined.

Lemma argument_is_trimmed_witness :
  resolveZipFromArgs 4 (Some "  a.zip ") Scenario.uploads
  = resolveZipFromArgs 4 (Some "a.zip") Scenario.uploads /\
  Js.trim "  a.zip " = "a.zip".
Proof.
  destruct (argument_is_trimmed 4 "  " "a.zip" " " Scenario.uploads eq_refl eq_refl)
    as [Hsame Htrim].
  split; [exact Hsame | exact (Htrim eq_refl)].
Defined.
